(** * nisl.region: regions of interest extraction and handling

    A shallow embedding of [nisl/region.py] and the properties of its
    operations.

    Conventions of the embedding.
    - The operations on label images only add the numbers of the images and
      divide a sum by a count: they are written for any type of numbers with
      these operations ([Number]), and their properties hold for exact
      rationals ([Q]) and for double-precision floats ([PrimFloat.float])
      alike.
    - The operations on weighted maps go through [scipy.linalg.lstsq]; the
      entries of their arrays are rationals ([Q]), arithmetic is exact, and
      "equal" on such entries is [Qeq].  A double is a rational, so what is
      proved of the values the solver returns holds of the doubles it
      returns; what is proved of a sum or a quotient is proved of the exact
      one.  A division by zero, which numpy answers with [nan] or [inf], is
      not modelled ([Qdiv] answers 0): the properties about a quotient are
      stated where its divisor is not zero.
    - Labels and mask entries are integers ([Z]); an array of labels has a
      dtype, which decides what an assignment leaves in it.
    - An array carries its shape tuple.  The items of a 3D array (x, y, z)
      are its voxels in raster order; those of a 4D array (x, y, z, n) are,
      in the same voxel order, the rows along its last axis; those of a 2D
      array are its rows.
    - Python exceptions are the [Raise] results of an error monad.
    - [scipy.linalg.lstsq] is a parameter of the operations that call it,
      with the contract [least_squares].
    - The operations are first given on array values.  Module [Heap] gives
      the label operations and [_trim_maps] again on a store of array
      objects, where references alias and assignments through an index
      write in place; it is shown to compute the same values. *)

From Stdlib Require Import List ZArith QArith Qabs Qminmax Lia Lqa String Bool.
From Stdlib Require Import Sorting.Sorted.
From Corelib Require PrimFloat.
From stdpp Require Import gmap.
Import ListNotations.

Local Open Scope Q_scope.

(** ** Exceptions *)

Inductive exn :=
| ValueError (msg : string)
| TypeError (msg : string)
| IndexError (msg : string)
| StopIteration.

Inductive result (A : Type) :=
| Ok (a : A)
| Raise (e : exn).
Arguments Ok {A} a.
Arguments Raise {A} e.

#[global] Instance result_ret : MRet result := fun A a => Ok a.
#[global] Instance result_bind : MBind result := fun A B k m =>
  match m with
  | Ok a => k a
  | Raise e => Raise e
  end.

Definition is_error {A} (m : result A) : Prop :=
  match m with Ok _ => False | Raise _ => True end.

(** ** Numbers

    The operations on label images need little of the numbers the images
    hold: a zero, sums, and the quotient of a sum by a count.  They are
    written for any type of numbers with these operations, and used with
    exact rationals and with double-precision floats. *)

Class Number (R : Type) := {
  num_zero : R;
  num_add : R -> R -> R;
  num_div : R -> R -> R;
  num_of_nat : nat -> R
}.

#[global] Instance Q_number : Number Q := {|
  num_zero := 0;
  num_add := Qplus;
  num_div := Qdiv;
  num_of_nat n := inject_Z (Z.of_nat n)
|}.

Module Double.

Import PrimFloat.

(** A count as a double (exact below 2 ** 53). *)
Fixpoint of_nat (n : nat) : PrimFloat.float :=
  match n with
  | O => PrimFloat.zero
  | S k => PrimFloat.add (of_nat k) PrimFloat.one
  end.


End Double.


(** ** The dtype of an array of integers

    What matters of it here is what an assignment [a[...] = x] of a Python
    int [x] leaves in the array: [x] cast to the dtype.  An array of
    unsigned 8-bit integers keeps [x] modulo 256. *)

Record dtype := Dtype { astype : Z -> Z }.

Definition uint8 : dtype := Dtype (fun x => x mod 256)%Z.

Definition int64 : dtype :=
  Dtype (fun x => (x + 2 ^ 63) mod 2 ^ 64 - 2 ^ 63)%Z.

(** ** Arrays and images

    A numpy array is its shape tuple and its items.  The items of a 3D
    array are its voxels in raster order ([volume]); the items of a 4D
    array are, in the same voxel order, the rows along its last axis
    ([stack]); the items of a 2D array are its rows ([matrix]). *)

Record ndarray (A : Type) := NdArray {
  shape : list nat;
  items : A
}.
Arguments NdArray {A} _ _.
Arguments shape {A} _.
Arguments items {A} _.

Abbreviation volume A := (list A) (only parsing).
Abbreviation stack A := (list (list A)) (only parsing).
Abbreviation matrix := (list (list Q)) (only parsing).

(** What [utils.check_niimg] hands back: an object with [get_data] and
    [get_affine]; the affine is the sixteen entries of the 4x4 matrix. *)
Record niimg (A : Type) := Niimg {
  get_data : ndarray A;
  get_affine : list Q
}.
Arguments Niimg {A} _ _.
Arguments get_data {A} _.
Arguments get_affine {A} _.

(** [utils._get_shape] *)
Definition get_shape {A} (img : niimg A) : list nat := shape (get_data img).

(** Number of voxels of a shape: the product of its first three axes. *)
Definition n_voxels (sh : list nat) : nat :=
  fold_right Nat.mul 1%nat (firstn 3 sh).

Definition wf_volume {A} (a : ndarray (volume A)) : Prop :=
  length (shape a) = 3%nat /\ length (items a) = n_voxels (shape a).

Definition wf_stack {A} (a : ndarray (stack A)) : Prop :=
  length (shape a) = 4%nat /\
  length (items a) = n_voxels (shape a) /\
  Forall (fun row => length row = nth 3 (shape a) 0%nat) (items a).

Definition wf_matrix {A} (a : ndarray (list (list A))) : Prop :=
  length (shape a) = 2%nat /\
  length (items a) = nth 0 (shape a) 0%nat /\
  Forall (fun row => length row = nth 1 (shape a) 0%nat) (items a).


(** ** Elementwise helpers (numpy) *)

Definition Qgtb (x y : Q) : bool := negb (Qle_bool x y).

Fixpoint map2 {A B C} (f : A -> B -> C) (l : list A) (l' : list B) : list C :=
  match l, l' with
  | a :: t, b :: t' => f a b :: map2 f t t'
  | _, _ => []
  end.

(** [a[cond] = x] for a boolean array [cond] of the shape of [a]. *)
Definition assign_where {A} (a : list A) (cond : list bool) (x : A) : list A :=
  map2 (fun (c : bool) old => if c then x else old) cond a.

(** [a[cond]] (or [a[cond, :]]) for a boolean array [cond]. *)
Definition select {A} (cond : list bool) (a : list A) : list A :=
  map snd (List.filter fst (combine cond a)).

(** [np.logical_not] and [utils.as_ndarray(_, dtype=np.bool)] on an integer
    array. *)
Definition logical_not (m : list Z) : list bool := map (Z.eqb 0) m.
Definition as_bool (m : list Z) : list bool := map (fun z => negb (Z.eqb 0 z)) m.

(** [a[..., n]] of a 4D array, [a[:, n]] of a 2D one. *)
Definition column {A} (d : A) (a : list (list A)) (n : nat) : list A :=
  map (fun row => nth n row d) a.

(** [a.T] of a 2D array. *)
Definition transpose (a : ndarray matrix) : ndarray matrix :=
  NdArray (rev (shape a)) (map (column 0 (items a)) (seq 0 (nth 1 (shape a) 0%nat))).

Definition Qsum (l : list Q) : Q := fold_right Qplus 0 l.

Definition shape_eqb (s s' : list nat) : bool := bool_decide (s = s').

(** [abs(a - b).max()] for two affines. *)
Definition max_abs_diff (a b : list Q) : Q :=
  fold_right Qmax 0 (map2 (fun x y => Qabs (x - y)) a b).

(** The tolerance [1e-9]. *)
Definition tol : Q := 1 # 1000000000.

Definition affine_mismatch (a b : list Q) : bool := Qgtb (max_abs_diff a b) tol.

(** [np.zeros] *)
Definition zeros3 {A} (zero : A) (sh : list nat) : ndarray (volume A) :=
  NdArray sh (repeat zero (n_voxels sh)).
Definition zeros4 {A} (zero : A) (sh : list nat) : ndarray (stack A) :=
  NdArray sh (repeat (repeat zero (nth 3 sh 0%nat)) (n_voxels sh)).

(** [np.unique]: the sorted distinct values. *)
Fixpoint insert_unique (x : Z) (l : list Z) : list Z :=
  match l with
  | [] => [x]
  | y :: t =>
      if (x <? y)%Z then x :: l
      else if (x =? y)%Z then l
      else y :: insert_unique x t
  end.

Definition unique (l : list Z) : list Z := fold_right insert_unique [] l.

(** [list.remove]: drops the first occurrence. *)
Fixpoint list_remove (x : Z) (l : list Z) : list Z :=
  match l with
  | [] => []
  | y :: t => if (y =? x)%Z then t else y :: list_remove x t
  end.

(** [ndimage.measurements.mean(img, labels=labels, index=index)]: for each
    label of [index], the sum of the values of [img] on the voxels carrying
    it, accumulated in the order of the voxels, over their number. *)
Definition label_values {R} (img : volume R) (labels : volume Z) (l : Z) : list R :=
  select (map (Z.eqb l) labels) img.

Definition mean {R} `{Number R} (vals : list R) : R :=
  num_div (fold_left num_add vals num_zero) (num_of_nat (length vals)).

Definition ndimage_mean {R} `{Number R} (img : volume R) (labels : volume Z)
    (index : list Z) : list R :=
  map (fun l => mean (label_values img labels l)) index.

(** ** Label images: [signals_from_labels] and [img_from_labels] *)

(** [labels_data] after the block [if mask_img is not None]: without a mask
    the array of the image itself, with one a copy on which every voxel
    outside the mask carries [background_label], cast to the dtype [dt] of
    the array of labels. *)
Definition masked_labels (dt : dtype) (labels_img : niimg (volume Z))
    (mask_img : option (niimg (volume Z))) (background_label : Z)
    : ndarray (volume Z) :=
  let labels_data := get_data labels_img in
  match mask_img with
  | Some mask_img =>
      let mask_data := get_data mask_img in
      NdArray (shape labels_data)
              (assign_where (items labels_data) (logical_not (items mask_data))
                            (astype dt background_label))
  | None => labels_data
  end.

(** [labels = list(np.unique(labels_data))], without [background_label]. *)
Definition region_labels (labels_data : ndarray (volume Z)) (background_label : Z)
    : list Z :=
  let labels := unique (items labels_data) in
  if existsb (Z.eqb background_label) labels
  then list_remove background_label labels
  else labels.

(** The checks made on a mask image. *)
Definition check_mask (mask_img : option (niimg (volume Z)))
    (target_shape : list nat) (target_affine : list Q)
    (shape_msg affine_msg : string) : result unit :=
  match mask_img with
  | Some mask_img =>
      if negb (shape_eqb (get_shape mask_img) target_shape)
      then Raise (ValueError shape_msg)
      else if affine_mismatch (get_affine mask_img) target_affine
      then Raise (ValueError affine_msg)
      else Ok tt
  | None => Ok tt
  end.

(** [dt] is the dtype of the array of [labels_img]. *)
Definition signals_from_labels {R} `{Number R} (dt : dtype)
    (niimgs : niimg (stack R))
    (labels_img : niimg (volume Z)) (mask_img : option (niimg (volume Z)))
    (background_label : Z) : result (ndarray (list (list R)) * list Z) :=
  let target_affine := get_affine niimgs in
  let target_shape := firstn 3 (get_shape niimgs) in
  if negb (shape_eqb (get_shape labels_img) target_shape)
  then Raise (ValueError "labels_img and niimgs shapes must be identical.")
  else if affine_mismatch (get_affine labels_img) target_affine
  then Raise (ValueError "labels_img and niimgs affines must be identical")
  else
    _ ← check_mask mask_img target_shape target_affine
          "mask_img and niimgs shapes must be identical."
          "mask_img and niimgs affines must be identical";
    let labels_data := masked_labels dt labels_img mask_img background_label in
    let labels := region_labels labels_data background_label in
    let data := get_data niimgs in
    let n_scans := List.last (shape data) 0%nat in
    let signals :=
      map (fun n => ndimage_mean (column num_zero (items data) n)
                                 (items labels_data) labels)
          (seq 0 n_scans) in
    Ok (NdArray [n_scans; length labels] signals, labels).

(** The loop [for n, label in enumerate(labels)] of [img_from_labels]:
    [data[labels_data == label, :] = signals[:, n]]; the index [n] is
    checked against the number of columns of [signals]. *)
Fixpoint fill_labels {R} `{Number R} (signals : ndarray (list (list R)))
    (labels_data : volume Z) (labels : list Z) (n : nat) (data : stack R)
    : result (stack R) :=
  match labels with
  | [] => Ok data
  | label :: rest =>
      if (n <? nth 1 (shape signals) 0)%nat
      then fill_labels signals labels_data rest (S n)
             (assign_where data (map (Z.eqb label) labels_data)
                           (column num_zero (items signals) n))
      else Raise (IndexError "index out of bounds")
  end.

(** [dt] is the dtype of the array of [labels_img]. *)
Definition img_from_labels {R} `{Number R} (dt : dtype)
    (signals : ndarray (list (list R)))
    (labels_img : niimg (volume Z)) (mask_img : option (niimg (volume Z)))
    (background_label : Z) : result (niimg (stack R)) :=
  let target_affine := get_affine labels_img in
  let target_shape := firstn 3 (get_shape labels_img) in
  _ ← check_mask mask_img target_shape target_affine
        "mask_img and labels_img shapes must be identical."
        "mask_img and labels_img affines must be identical";
  let data := zeros4 num_zero (target_shape ++ [nth 0 (shape signals) 0%nat]) in
  let labels_data := masked_labels dt labels_img mask_img background_label in
  let labels := region_labels labels_data background_label in
  filled ← fill_labels signals (items labels_data) labels 0 (items data);
  Ok (Niimg (NdArray (shape data) filled) target_affine).

(** ** Maps: [_trim_maps] *)

(** [sums = abs(maps[mask, :]).sum(axis=0)] *)
Definition map_sums (maps : ndarray (stack Q)) (mask : list bool) : list Q :=
  let inside := select mask (items maps) in
  map (fun n => Qsum (map Qabs (column 0 inside n))) (seq 0 (List.last (shape maps) 0%nat)).

(** [trimmed_maps[mask, p] = maps[mask, n]] *)
Definition copy_inside (mask : list bool) (maps : stack Q) (n : nat)
    (trimmed_maps : stack Q) (p : nat) : stack Q :=
  map2 (fun (mr : bool * list Q) (tr : list Q) =>
          if fst mr then <[p := nth n (snd mr) 0]> tr else tr)
       (combine mask maps) trimmed_maps.

(** [maps_mask[trimmed_maps[..., p] > 0] = 1] *)
Definition mark_positive (trimmed_maps : stack Q) (p : nat) (maps_mask : volume Z)
    : volume Z :=
  assign_where maps_mask (map (fun w => Qgtb w 0) (column 0 trimmed_maps p)) 1%Z.

(** The loop over the maps; the state is [(trimmed_maps, maps_mask, p)]. *)
Definition trim_step (maps : stack Q) (mask : list bool) (sums : list Q)
    (st : stack Q * volume Z * nat) (n : nat) : stack Q * volume Z * nat :=
  let '(trimmed_maps, maps_mask, p) := st in
  if Qeq_bool (nth n sums 0) 0 then st
  else
    let trimmed_maps := copy_inside mask maps n trimmed_maps p in
    let maps_mask := mark_positive trimmed_maps p maps_mask in
    (trimmed_maps, maps_mask, S p).

Definition _trim_maps (maps : ndarray (stack Q)) (mask : ndarray (volume Z))
    : ndarray (stack Q) * ndarray (volume Z) * list nat :=
  let sums := map_sums maps (as_bool (items mask)) in
  let n_regions := length (List.filter (fun s => Qgtb s 0) sums) in
  let trimmed_maps := zeros4 0 (firstn 3 (shape maps) ++ [n_regions]) in
  let maps_mask := zeros3 0%Z (shape mask) in
  let mask := as_bool (items mask) in
  let '(trimmed, union, _) :=
    fold_left (trim_step (items maps) mask sums)
              (seq 0 (List.last (shape maps) 0%nat))
              (items trimmed_maps, items maps_mask, 0%nat) in
  (NdArray (shape trimmed_maps) trimmed,
   NdArray (shape maps_mask) union,
   List.filter (fun n => Qgtb (nth n sums 0) 0) (seq 0 (length sums))).

(** ** Maps: the least-squares solver *)

(** [a[i, j]] of a 2D array. *)
Definition entry (a : matrix) (i j : nat) : Q := nth j (nth i a []) 0.

Definition dot (u v : list Q) : Q := Qsum (map2 Qmult u v).

(** Total squared residual of [a x = b], for [a] of shape (m, n), [x] of
    shape (n, k) and [b] of shape (m, k). *)
Definition residual (a b x : ndarray matrix) : Q :=
  Qsum (map (fun i =>
          Qsum (map (fun j =>
                  let d := dot (nth i (items a) []) (column 0 (items x) j)
                           - entry (items b) i j in
                  d * d)
               (seq 0 (nth 1 (shape b) 0%nat))))
       (seq 0 (nth 0 (shape a) 0%nat))).

(** What [scipy.linalg.lstsq(a, b)[0]] is documented to return: an array [x]
    of shape (n, k) that minimises the 2-norm of [b - a x]. *)
Definition least_squares (a b x : ndarray matrix) : Prop :=
  wf_matrix x /\
  shape x = [nth 1 (shape a) 0%nat; nth 1 (shape b) 0%nat] /\
  forall x' : ndarray matrix,
    wf_matrix x' -> shape x' = shape x -> residual a b x <= residual a b x'.

Section Solver.

(** [linalg.lstsq(a, b)[0]], a collaborator taken as given. *)
Variable lstsq : ndarray matrix -> ndarray matrix -> ndarray matrix.

(** The factor of a region is the sum of its weights over the sum of their
    squares.  Where a factor is zero numpy answers [nan] or [inf] (and
    warns); rationals have no such values, [Qdiv] answers 0 there, and the
    properties of the normalised signals are stated for regions whose factor
    is not zero. *)
Definition apply_regions (voxel_signals regions : ndarray matrix)
    (normalize_regions : bool) : ndarray matrix :=
  let region_signals :=
    transpose (lstsq (transpose regions) (transpose voxel_signals)) in
  if normalize_regions then
    let factor :=
      map (fun row => Qsum row / Qsum (map (fun w => w * w) row)) (items regions) in
    NdArray (shape region_signals)
            (map (fun row => map2 Qdiv row factor) (items region_signals))
  else region_signals.

Definition unapply_regions (region_signals regions : ndarray matrix)
    : ndarray matrix :=
  NdArray [nth 0 (shape region_signals) 0%nat; nth 1 (shape regions) 0%nat]
          (map (fun row =>
                  map (fun v => dot row (column 0 (items regions) v))
                      (seq 0 (nth 1 (shape regions) 0%nat)))
               (items region_signals)).

(** [a[mask, :]] of a 4D array: the rows of the voxels in [mask]. *)
Definition select_rows (mask : list bool) (a : ndarray (stack Q)) : ndarray matrix :=
  let rows := select mask (items a) in
  NdArray [length rows; List.last (shape a) 0%nat] rows.

Definition signals_from_maps (niimgs maps_img : niimg (stack Q))
    (mask_img : option (niimg (volume Z))) : result (ndarray matrix) :=
  let affine := get_affine niimgs in
  let shape3 := firstn 3 (get_shape niimgs) in
  if negb (shape_eqb (firstn 3 (get_shape maps_img)) shape3)
  then Raise (ValueError "maps_img and niimgs shapes must be identical.")
  else if affine_mismatch (get_affine maps_img) affine
  then Raise (ValueError "maps_img and niimgs affines must be identical")
  else
    let maps_data := get_data maps_img in
    _ ← check_mask mask_img shape3 affine
          "mask_img and niimgs shapes must be identical."
          "mask_img and niimgs affines must be identical";
    let '(maps_data, maps_mask) :=
      match mask_img with
      | Some mask_img =>
          let '(maps_data, maps_mask, _) :=
            _trim_maps maps_data (get_data mask_img) in
          (maps_data, as_bool (items maps_mask))
      | None => (maps_data, repeat true (n_voxels (shape maps_data)))
      end in
    let data := get_data niimgs in
    Ok (transpose (lstsq (select_rows maps_mask maps_data)
                         (select_rows maps_mask data))).

End Solver.

(** ** [regions_to_mask] *)

(** The handled forms of [regions_img]: an iterable of 3D images, or one
    image holding either a 4D array of weights or a 3D array of labels.
    The source tells the two by the number of axes; an image whose number
    of axes does not fit its data is not an input the source can get, and is
    answered here with a [TypeError]. *)
Inductive region_data :=
| Weights (a : stack Q)
| Labels (a : volume Z).

Inductive regions_arg :=
| RegionList (imgs : list (niimg (volume Q)))
| RegionImg (img : niimg region_data)
| RegionOther.

(** [output[abs(data) > threshold] = True], [output] of an integer dtype. *)
Definition mark_above (threshold : Q) (output : volume Z) (data : volume Q)
    : volume Z :=
  assign_where output (map (fun w => Qgtb (Qabs w) threshold) data) 1%Z.

(** The loop over the images of a list. *)
Fixpoint merge_list (threshold : Q) (imgs : list (niimg (volume Q)))
    (output : ndarray (volume Z)) : result (ndarray (volume Z)) :=
  match imgs with
  | [] => Ok output
  | r :: rest =>
      if negb (shape_eqb (get_shape r) (shape output))
      then Raise (ValueError "Inconsistent shape in input list")
      else merge_list threshold rest
             (NdArray (shape output)
                      (mark_above threshold (items output) (items (get_data r))))
  end.

(** The loop [for n in xrange(shape[3])]. *)
Definition merge_stack (threshold : Q) (data : stack Q) (n_last : nat)
    (output : volume Z) : volume Z :=
  fold_left (fun out n => mark_above threshold out (column 0 data n))
            (seq 0 n_last) output.

Definition regions_to_mask (regions_img : regions_arg) (threshold : Q)
    (background : Z) : result (niimg (volume Z)) :=
  match regions_img with
  | RegionList imgs =>
      match imgs with
      | [] => Raise StopIteration
      | first :: _ =>
          let affine := get_affine first in
          let sh := get_shape first in
          if negb (length sh =? 3)%nat
          then Raise (ValueError "List must contain 3D arrays, {0:d}D array was provided")
          else
            output ← merge_list threshold imgs (zeros3 0%Z sh);
            Ok (Niimg output affine)
      end
  | RegionImg niimg =>
      let sh := get_shape niimg in
      let affine := get_affine niimg in
      if (length sh =? 4)%nat then
        match items (get_data niimg) with
        | Weights data =>
            let output := zeros3 0%Z (firstn 3 sh) in
            Ok (Niimg (NdArray (shape output)
                         (merge_stack threshold data (nth 3 sh 0%nat) (items output)))
                      affine)
        | Labels _ => Raise (TypeError "an array of labels has three axes")
        end
      else if (length sh =? 3)%nat then
        match items (get_data niimg) with
        | Labels data =>
            Ok (Niimg (NdArray sh
                         (map (fun l => if (l =? background)%Z then 0%Z else 1%Z) data))
                      affine)
        | Weights _ => Raise (TypeError "an array of weights has four axes")
        end
      else Raise (ValueError "Invalid shape for input array")
  | RegionOther => Raise (TypeError "Unhandled data type")
  end.

(** ** Overlap of regions: [regions_are_overlapping] *)

(** [np.where(a != 0, 1, 0)] on one weight. *)
Definition nonzero (w : Q) : Z := if Qeq_bool w 0 then 0%Z else 1%Z.

Definition Zsum (l : list Z) : Z := fold_right Z.add 0%Z l.

(** [a.max()]: numpy raises on an array without items. *)
Definition array_max (a : list Z) : result Z :=
  match a with
  | [] =>
      Raise (ValueError
               "zero-size array to reduction operation maximum which has no identity")
  | x :: t => Ok (fold_right Z.max x t)
  end.

(** [regions_masked] has shape (region number, voxel number); [count] is the
    sum along axis 0. *)
Definition _regions_are_overlapping_masked (regions_masked : ndarray matrix) : bool :=
  let ones := map (map nonzero) (items regions_masked) in
  let count :=
    map (fun v => Zsum (column 0%Z ones v))
        (seq 0 (nth 1 (shape regions_masked) 0%nat)) in
  existsb (fun c => (1 <? c)%Z) count.

(** The sum runs along the last axis: one count per voxel. *)
Definition _regions_are_overlapping_array (regions_array : ndarray (stack Q))
    : result bool :=
  let regions := map (map nonzero) (items regions_array) in
  m ← array_max (map Zsum regions);
  Ok (1 <? m)%Z.

(** Broadcasting of numpy, for the in-place addition [count += b]: the
    shape of [b], aligned on the last axis with that of [count], must have on
    each axis the length 1 or the length [count] has, and no more axes than
    [count]. *)
Definition broadcastable (from to : list nat) : bool :=
  (length from <=? length to)%nat &&
  forallb (fun p : nat * nat => (fst p =? 1)%nat || (fst p =? snd p)%nat)
          (combine (rev from) (rev to)).

(** The steps, in items, of the axes of an array in C order. *)
Fixpoint strides (sh : list nat) : list nat :=
  match sh with
  | [] => []
  | _ :: rest => fold_right Nat.mul 1%nat rest :: strides rest
  end.

(** The index along each axis of item [i] of an array of shape [sh]. *)
Definition unravel (sh : list nat) (i : nat) : list nat :=
  map2 (fun n step => ((i / step) mod n)%nat) sh (strides sh).

(** The item of an array of shape [from] that is read at item [i] of its
    stretching to shape [to]: an axis of length 1 is read at index 0. *)
Definition broadcast_index (from to : list nat) (i : nat) : nat :=
  let padded := repeat 1%nat (length to - length from) ++ from in
  fold_right Nat.add 0%nat
    (map2 (fun (axis : nat * nat) (k : nat) =>
             if (fst axis =? 1)%nat then 0%nat else (k * snd axis)%nat)
          (combine padded (strides padded)) (unravel to i)).

Definition broadcast_to {A} (d : A) (a : ndarray (list A)) (to : list nat)
    : list A :=
  map (fun i => nth (broadcast_index (shape a) to i) (items a) d)
      (seq 0 (fold_right Nat.mul 1%nat to)).

(** The loop [for region in regions_list: count += region != 0].  The counts
    are whole numbers, which the float array [count] holds exactly.  A region
    of the shape of [count] is added item by item; a region of another shape
    is stretched to the shape of [count] when broadcasting allows it, and the
    addition raises otherwise. *)
Fixpoint overlap_count (regions_list : list (ndarray (volume Q)))
    (count : ndarray (volume Z)) : result (ndarray (volume Z)) :=
  match regions_list with
  | [] => Ok count
  | region :: rest =>
      if negb (shape_eqb (shape region) (shape count))
      then
        if broadcastable (shape region) (shape count)
        then overlap_count rest
               (NdArray (shape count)
                        (map2 Z.add (items count)
                              (map nonzero (broadcast_to 0 region (shape count)))))
        else Raise (ValueError "operands could not be broadcast together")
      else overlap_count rest
             (NdArray (shape count)
                      (map2 Z.add (items count) (map nonzero (items region))))
  end.

Definition _regions_are_overlapping_list (regions_list : list (ndarray (volume Q)))
    : result bool :=
  match regions_list with
  | [] => Raise (IndexError "list index out of range")
  | first :: _ =>
      let count :=
        NdArray (shape first)
                (repeat 0%Z (fold_right Nat.mul 1%nat (shape first))) in
      count ← overlap_count regions_list count;
      m ← array_max (items count);
      Ok (1 <? m)%Z
  end.

(** What [regions_are_overlapping] can be given: a list of arrays, an array
    of two axes (rows of weights), of three (labels), of four (weights
    along the last axis), of another number of axes, or something else. *)
Inductive overlap_arg :=
| OverlapList (regions : list (ndarray (volume Q)))
| OverlapMasked (regions : ndarray matrix)
| OverlapLabels (regions : ndarray (volume Z))
| OverlapArray (regions : ndarray (stack Q))
| OverlapRank (regions : ndarray (list Q))
| OverlapOther.

Definition regions_are_overlapping (regions : overlap_arg) : result bool :=
  match regions with
  | OverlapList regions => _regions_are_overlapping_list regions
  | OverlapMasked regions => Ok (_regions_are_overlapping_masked regions)
  | OverlapLabels _ => Ok false
  | OverlapArray regions => _regions_are_overlapping_array regions
  | OverlapRank _ => Raise (TypeError "input array may have 2 to 4 dimensions.")
  | OverlapOther => Raise (TypeError "type not understood")
  end.

(** ** The operations on a store of arrays

    The functions above take and return array values.  To follow which
    array objects an operation writes to, the same operations are given here
    over a store: an image holds a reference to its array, [get_data] hands
    back that reference (not a copy), [copy] and [np.zeros] allocate, and an
    assignment through an index writes to the array referred to. *)

Module Heap.

(** The array objects: 3D arrays of integers (labels, masks), 3D arrays of
    reals (the weights of one region) and arrays of reals with a last axis
    (4D images and maps, 2D signals). *)
Inductive array :=
| IntArray (a : ndarray (volume Z))
| WeightArray (a : ndarray (volume Q))
| RealArray (a : ndarray (stack Q)).

Definition array_shape (a : array) : list nat :=
  match a with
  | IntArray a => shape a
  | WeightArray a => shape a
  | RealArray a => shape a
  end.

Abbreviation heap := (gmap nat array) (only parsing).

Record niimg := Niimg {
  get_data : nat;
  get_affine : list Q
}.

(** A computation on the store; it may raise, and the store it leaves is
    there in both cases. *)
Definition M (A : Type) : Type := heap -> result A * heap.

Definition ret {A} (a : A) : M A := fun h => (Ok a, h).

Definition raise {A} (e : exn) : M A := fun h => (Raise e, h).

Definition bind {A B} (m : M A) (k : A -> M B) : M B := fun h =>
  match m h with
  | (Ok a, h') => k a h'
  | (Raise e, h') => (Raise e, h')
  end.

#[global] Instance M_ret : MRet M := @ret.
#[global] Instance M_bind : MBind M := fun A B k m => bind m k.

(** A new array object. *)
Definition alloc (a : array) : M nat := fun h =>
  let l := fresh (dom h) in (Ok l, <[l := a]> h).

Definition read (l : nat) : M array := fun h =>
  match h !! l with
  | Some a => (Ok a, h)
  | None => (Raise (TypeError "not an array"), h)
  end.

Definition read_int (l : nat) : M (ndarray (volume Z)) :=
  a ← read l;
  match a with
  | IntArray a => ret a
  | _ => raise (TypeError "an array of integers is expected")
  end.

Definition read_real (l : nat) : M (ndarray (stack Q)) :=
  a ← read l;
  match a with
  | RealArray a => ret a
  | _ => raise (TypeError "an array of reals is expected")
  end.

(** The array object at [l] gets new contents. *)
Definition write (l : nat) (a : array) : M unit := fun h => (Ok tt, <[l := a]> h).

(** [a.copy()] *)
Definition copy (l : nat) : M nat := a ← read l; alloc a.

(** [for x in xs], with the variables the body updates as a state. *)
Fixpoint for_each {A S} (xs : list A) (body : A -> S -> M S) (s : S) : M S :=
  match xs with
  | [] => ret s
  | x :: xs => s' ← body x s; for_each xs body s'
  end.

(** [a[cond] = x] on the integer array at [l], of dtype [dt]. *)
Definition setitem_where (dt : dtype) (l : nat) (cond : list bool) (x : Z)
    : M unit :=
  a ← read_int l;
  write l (IntArray (NdArray (shape a) (assign_where (items a) cond (astype dt x)))).

(** [a[n] = row] on the 2D array at [l]. *)
Definition setitem_row (l : nat) (n : nat) (row : list Q) : M unit :=
  a ← read_real l;
  write l (RealArray (NdArray (shape a) (<[n := row]> (items a)))).

(** The checks made on a mask image. *)
Definition check_mask (mask_img : option niimg) (target_shape : list nat)
    (target_affine : list Q) (shape_msg affine_msg : string) : M unit :=
  match mask_img with
  | Some mask_img =>
      mask ← read_int (get_data mask_img);
      if negb (shape_eqb (shape mask) target_shape)
      then raise (ValueError shape_msg)
      else if affine_mismatch (get_affine mask_img) target_affine
      then raise (ValueError affine_msg)
      else ret tt
  | None => ret tt
  end.

(** The block [if mask_img is not None] of the label operations: the
    array of labels itself without a mask, a copy with the voxels outside
    the mask set to [background_label] with one. *)
Definition masked_labels (dt : dtype) (labels_img : niimg)
    (mask_img : option niimg) (background_label : Z) : M nat :=
  let labels_data := get_data labels_img in
  match mask_img with
  | Some mask_img =>
      mask_data ← read_int (get_data mask_img);
      labels_data ← copy labels_data;
      _ ← setitem_where dt labels_data (logical_not (items mask_data))
                        background_label;
      ret labels_data
  | None => ret labels_data
  end.

Definition signals_from_labels (dt : dtype) (niimgs labels_img : niimg)
    (mask_img : option niimg) (background_label : Z) : M (nat * list Z) :=
  labels_arr ← read_int (get_data labels_img);
  data ← read_real (get_data niimgs);
  let target_affine := get_affine niimgs in
  let target_shape := firstn 3 (shape data) in
  if negb (shape_eqb (shape labels_arr) target_shape)
  then raise (ValueError "labels_img and niimgs shapes must be identical.")
  else if affine_mismatch (get_affine labels_img) target_affine
  then raise (ValueError "labels_img and niimgs affines must be identical")
  else
    _ ← check_mask mask_img target_shape target_affine
          "mask_img and niimgs shapes must be identical."
          "mask_img and niimgs affines must be identical";
    labels_data ← masked_labels dt labels_img mask_img background_label;
    labels_arr ← read_int labels_data;
    let labels := region_labels labels_arr background_label in
    let n_scans := List.last (shape data) 0%nat in
    signals ← alloc (RealArray (NdArray [n_scans; length labels]
                                  (repeat (repeat 0 (length labels)) n_scans)));
    _ ← for_each (seq 0 n_scans)
          (fun n _ =>
             setitem_row signals n
               (ndimage_mean (column 0 (items data) n) (items labels_arr) labels))
          tt;
    ret (signals, labels).

(** [data[labels_data == label, :] = signals[:, n]] on the array at [l]. *)
Definition setitem_label (l : nat) (labels_data : volume Z) (label : Z)
    (signals : ndarray matrix) (n : nat) : M unit :=
  if (n <? nth 1 (shape signals) 0)%nat then
    a ← read_real l;
    write l (RealArray (NdArray (shape a)
               (assign_where (items a) (map (Z.eqb label) labels_data)
                             (column 0 (items signals) n))))
  else raise (IndexError "index out of bounds").

Definition img_from_labels (dt : dtype) (signals : ndarray matrix)
    (labels_img : niimg) (mask_img : option niimg) (background_label : Z)
    : M niimg :=
  labels_arr ← read_int (get_data labels_img);
  let target_affine := get_affine labels_img in
  let target_shape := firstn 3 (shape labels_arr) in
  _ ← check_mask mask_img target_shape target_affine
        "mask_img and labels_img shapes must be identical."
        "mask_img and labels_img affines must be identical";
  data ← alloc (RealArray (zeros4 0 (target_shape ++ [nth 0 (shape signals) 0%nat])));
  labels_data ← masked_labels dt labels_img mask_img background_label;
  labels_arr ← read_int labels_data;
  let labels := region_labels labels_arr background_label in
  _ ← for_each labels
        (fun label n =>
           _ ← setitem_label data (items labels_arr) label signals n;
           ret (S n))
        0%nat;
  ret (Niimg data target_affine).

(** The body of the loop of [_trim_maps]; the state is [p]. *)
Definition trim_body (maps trimmed_maps maps_mask : nat) (mask : list bool)
    (sums : list Q) (n p : nat) : M nat :=
  if Qeq_bool (nth n sums 0) 0 then ret p
  else
    m ← read_real maps;
    t ← read_real trimmed_maps;
    _ ← write trimmed_maps
          (RealArray (NdArray (shape t) (copy_inside mask (items m) n (items t) p)));
    t ← read_real trimmed_maps;
    u ← read_int maps_mask;
    _ ← write maps_mask
          (IntArray (NdArray (shape u) (mark_positive (items t) p (items u))));
    ret (S p).

Definition _trim_maps (maps mask : nat) : M (nat * nat * list nat) :=
  maps ← copy maps;
  m ← read_real maps;
  mask_arr ← read_int mask;
  let sums := map_sums m (as_bool (items mask_arr)) in
  let n_regions := length (List.filter (fun s => Qgtb s 0) sums) in
  trimmed_maps ← alloc (RealArray (zeros4 0 (firstn 3 (shape m) ++ [n_regions])));
  maps_mask ← alloc (IntArray (zeros3 0%Z (shape mask_arr)));
  let mask := as_bool (items mask_arr) in
  _ ← for_each (seq 0 (List.last (shape m) 0%nat))
        (trim_body maps trimmed_maps maps_mask mask sums) 0%nat;
  ret (trimmed_maps, maps_mask,
       List.filter (fun n => Qgtb (nth n sums 0) 0) (seq 0 (length sums))).

Section WithSolver.

(** [linalg.lstsq(a, b)[0]]; what it returns is a new array. *)
Variable lstsq : ndarray matrix -> ndarray matrix -> ndarray matrix.

Definition apply_regions (voxel_signals regions : nat) (normalize_regions : bool)
    : M nat :=
  vs ← read_real voxel_signals;
  rs ← read_real regions;
  region_signals ← alloc (RealArray (transpose (lstsq (transpose rs) (transpose vs))));
  _ ← (if normalize_regions then
         let factor :=
           map (fun row => Qsum row / Qsum (map (fun w => w * w) row)) (items rs) in
         a ← read_real region_signals;
         write region_signals
           (RealArray (NdArray (shape a)
                         (map (fun row => map2 Qdiv row factor) (items a))))
       else ret tt);
  ret region_signals.

Definition signals_from_maps (niimgs maps_img : niimg) (mask_img : option niimg)
    : M nat :=
  maps_data ← read_real (get_data maps_img);
  data ← read_real (get_data niimgs);
  let affine := get_affine niimgs in
  let shape3 := firstn 3 (shape data) in
  if negb (shape_eqb (firstn 3 (shape maps_data)) shape3)
  then raise (ValueError "maps_img and niimgs shapes must be identical.")
  else if affine_mismatch (get_affine maps_img) affine
  then raise (ValueError "maps_img and niimgs affines must be identical")
  else
    _ ← check_mask mask_img shape3 affine
          "mask_img and niimgs shapes must be identical."
          "mask_img and niimgs affines must be identical";
    selected ← match mask_img with
                | Some mask_img =>
                    r ← _trim_maps (get_data maps_img) (get_data mask_img);
                    let '(trimmed_maps, maps_mask, _) := r in
                    t ← read_real trimmed_maps;
                    u ← read_int maps_mask;
                    ret (t, as_bool (items u))
                | None => ret (maps_data, repeat true (n_voxels (shape maps_data)))
                end;
    let '(maps_data, maps_mask) := selected in
    alloc (RealArray (transpose (lstsq (select_rows maps_mask maps_data)
                                       (select_rows maps_mask data)))).

End WithSolver.

Inductive regions_arg :=
| RegionList (imgs : list niimg)
| RegionImg (img : niimg)
| RegionOther.

(** [output[abs(data) > threshold] = True] on the array at [output]. *)
Definition setitem_above (output : nat) (threshold : Q) (data : volume Q) : M unit :=
  out ← read_int output;
  write output (IntArray (NdArray (shape out) (mark_above threshold (items out) data))).

Definition regions_to_mask (regions_img : regions_arg) (threshold : Q)
    (background : Z) : M niimg :=
  match regions_img with
  | RegionList imgs =>
      match imgs with
      | [] => raise StopIteration
      | first :: _ =>
          a ← read (get_data first);
          let affine := get_affine first in
          let sh := array_shape a in
          if negb (length sh =? 3)%nat
          then raise (ValueError "List must contain 3D arrays, {0:d}D array was provided")
          else
            output ← alloc (IntArray (zeros3 0%Z sh));
            _ ← for_each imgs
                  (fun r _ =>
                     a ← read (get_data r);
                     if negb (shape_eqb (array_shape a) sh)
                     then raise (ValueError "Inconsistent shape in input list")
                     else
                       match a with
                       | WeightArray d => setitem_above output threshold (items d)
                       | _ => raise (TypeError "an array of weights is expected")
                       end)
                  tt;
            ret (Niimg output affine)
      end
  | RegionImg img =>
      a ← read (get_data img);
      let sh := array_shape a in
      let affine := get_affine img in
      if (length sh =? 4)%nat then
        match a with
        | RealArray d =>
            output ← alloc (IntArray (zeros3 0%Z (firstn 3 sh)));
            _ ← for_each (seq 0 (nth 3 sh 0%nat))
                  (fun n _ => setitem_above output threshold (column 0 (items d) n))
                  tt;
            ret (Niimg output affine)
        | _ => raise (TypeError "an array of labels has three axes")
        end
      else if (length sh =? 3)%nat then
        match a with
        | IntArray d =>
            output ← alloc (IntArray (NdArray sh
                       (map (fun l => if (l =? background)%Z then 0%Z else 1%Z)
                            (items d))));
            ret (Niimg output affine)
        | _ => raise (TypeError "an array of weights has four axes")
        end
      else raise (ValueError "Invalid shape for input array")
  | RegionOther => raise (TypeError "Unhandled data type")
  end.

End Heap.

(** * Vocabulary of the properties *)

(** A list of single-region volumes, all of one shape. *)
Definition wf_region_list (imgs : list (niimg (volume Q))) : Prop :=
  imgs <> [] /\
  Forall (fun r => wf_volume (get_data r) /\
                   get_shape r = get_shape (hd (Niimg (NdArray [] []) []) imgs))
         imgs.

(** The 4D image made of the volumes of a list, along the last axis. *)
Definition stack_of (imgs : list (niimg (volume Q))) : niimg region_data :=
  let first := hd (Niimg (NdArray [] []) []) imgs in
  Niimg (NdArray (get_shape first ++ [length imgs])
           (Weights (map (fun v => map (fun r => nth v (items (get_data r)) 0) imgs)
                         (seq 0 (n_voxels (get_shape first))))))
        (get_affine first).

(** Some volume of the list has a weight above the threshold at voxel [v]. *)
Definition above_in_list (threshold : Q) (imgs : list (niimg (volume Q))) (v : nat)
    : bool :=
  existsb (fun r => Qgtb (Qabs (nth v (items (get_data r)) 0)) threshold) imgs.

(** A weighted input of [regions_to_mask]: a list of volumes of one shape,
    or a 4D array. *)
Definition wf_weighted (regions_img : regions_arg) : Prop :=
  match regions_img with
  | RegionList imgs => wf_region_list imgs
  | RegionImg img =>
      exists d, items (get_data img) = Weights d /\
                wf_stack (NdArray (get_shape img) d)
  | RegionOther => False
  end.

(** The weights that the input volumes give to voxel [v]. *)
Definition weights_at (regions_img : regions_arg) (v : nat) : list Q :=
  match regions_img with
  | RegionList imgs => map (fun r => nth v (items (get_data r)) 0) imgs
  | RegionImg img =>
      match items (get_data img) with
      | Weights d => nth v d []
      | Labels _ => []
      end
  | RegionOther => []
  end.

(** The number of voxels of the mask returned for a weighted input. *)
Definition mask_voxels (regions_img : regions_arg) : nat :=
  match regions_img with
  | RegionList imgs => n_voxels (get_shape (hd (Niimg (NdArray [] []) []) imgs))
  | RegionImg img => n_voxels (get_shape img)
  | RegionOther => 0
  end.


(** Voxel [v] is kept by the mask (every voxel is when there is none). *)
Definition in_mask (mask_img : option (niimg (volume Z))) (v : nat) : bool :=
  match mask_img with
  | Some m => negb (0 =? nth v (items (get_data m)) 0%Z)%Z
  | None => true
  end.

(** The item [a[i][j]] of an array of numbers with two levels: the value at
    instant [j] of voxel [i] of a stack of volumes, the signal at instant [i]
    of column [j] of a matrix of signals. *)
Definition item {R} `{Number R} (a : list (list R)) (i j : nat) : R :=
  nth j (nth i a []) num_zero.

(** The label of voxel [v] once the mask is applied: its own inside the
    mask, [background_label] cast to the dtype of the labels outside. *)
Definition masked_label (dt : dtype) (labels_img : niimg (volume Z))
    (mask_img : option (niimg (volume Z))) (background_label : Z) (v : nat) : Z :=
  if in_mask mask_img v then nth v (items (get_data labels_img)) 0%Z
  else astype dt background_label.

(** The voxels of a region: those that carry label [l] once the mask is
    applied. *)
Definition region_voxels (dt : dtype) (labels_img : niimg (volume Z))
    (mask_img : option (niimg (volume Z))) (background_label l : Z) : list nat :=
  List.filter
    (fun v => (masked_label dt labels_img mask_img background_label v =? l)%Z)
    (seq 0 (n_voxels (get_shape labels_img))).

(** The preconditions of the label operations on a mask. *)
Definition mask_fits (mask_img : option (niimg (volume Z))) (target_shape : list nat)
    (target_affine : list Q) : Prop :=
  forall m, mask_img = Some m ->
    wf_volume (get_data m) /\
    get_shape m = target_shape /\
    affine_mismatch (get_affine m) target_affine = false.

(** The preconditions of [signals_from_labels]. *)
Definition labels_fit {R} (niimgs : niimg (stack R)) (labels_img : niimg (volume Z))
    (mask_img : option (niimg (volume Z))) : Prop :=
  wf_stack (get_data niimgs) /\
  wf_volume (get_data labels_img) /\
  get_shape labels_img = firstn 3 (get_shape niimgs) /\
  affine_mismatch (get_affine labels_img) (get_affine niimgs) = false /\
  mask_fits mask_img (firstn 3 (get_shape niimgs)) (get_affine niimgs).

(** At each instant, the voxels of one region hold one value. *)
Definition constant_on_regions (dt : dtype) (niimgs : niimg (stack Q))
    (labels_img : niimg (volume Z)) (mask_img : option (niimg (volume Z)))
    (background_label : Z) : Prop :=
  forall l t v v',
    l <> background_label ->
    In v (region_voxels dt labels_img mask_img background_label l) ->
    In v' (region_voxels dt labels_img mask_img background_label l) ->
    entry (items (get_data niimgs)) v t == entry (items (get_data niimgs)) v' t.

(** Voxel [v] is inside a mask array. *)
Definition inside (mask : ndarray (volume Z)) (v : nat) : bool :=
  nth v (as_bool (items mask)) false.

(** Map [n] has a non-zero weight on some voxel inside the mask. *)
Definition nonzero_inside (maps : ndarray (stack Q)) (mask : ndarray (volume Z))
    (n : nat) : bool :=
  existsb (fun v => inside mask v && negb (Qeq_bool (entry (items maps) v n) 0))
          (seq 0 (n_voxels (shape maps))).

(** Map [n] has a strictly positive weight on some voxel inside the mask. *)
Definition positive_inside (maps : ndarray (stack Q)) (mask : ndarray (volume Z))
    (n : nat) : bool :=
  existsb (fun v => inside mask v && Qgtb (entry (items maps) v n) 0)
          (seq 0 (n_voxels (shape maps))).

(** The preconditions of [_trim_maps]. *)
Definition maps_fit (maps : ndarray (stack Q)) (mask : ndarray (volume Z)) : Prop :=
  wf_stack maps /\ wf_volume mask /\ shape mask = firstn 3 (shape maps).

(** The indices below [k] of the maps that are kept. *)
Definition kept_below (sums : list Q) (k : nat) : list nat :=
  List.filter (fun n => Qgtb (nth n sums 0) 0) (seq 0 k).

(** The invariant of the loop of [_trim_maps] once the maps below [k] are
    processed: [p] maps are copied, column [j < p] of the output holds the
    weights inside the mask of the [j]-th kept map, the other columns hold
    zeros, and a voxel is marked when one of its copied weights is
    positive. *)
Definition trim_inv (maps : stack Q) (mask : list bool) (sums : list Q)
    (n_voxels n_regions k : nat) (st : stack Q * volume Z * nat) : Prop :=
  let '(trimmed_maps, maps_mask, p) := st in
  p = length (kept_below sums k) /\
  length trimmed_maps = n_voxels /\
  Forall (fun row => length row = n_regions) trimmed_maps /\
  (forall v j, (v < n_voxels)%nat -> (j < p)%nat ->
     entry trimmed_maps v j =
     if nth v mask false then entry maps v (nth j (kept_below sums k) 0%nat) else 0) /\
  (forall v j, (v < n_voxels)%nat -> (p <= j)%nat -> entry trimmed_maps v j = 0) /\
  length maps_mask = n_voxels /\
  (forall v, (v < n_voxels)%nat ->
     nth v maps_mask 0%Z =
     if existsb (fun j => Qgtb (entry trimmed_maps v j) 0) (seq 0 p)
     then 1%Z else 0%Z).

(** Voxel [v] is inside the mask and some map is strictly positive on it. *)
Definition in_support (maps : ndarray (stack Q)) (mask : ndarray (volume Z))
    (v : nat) : bool :=
  inside mask v &&
  existsb (fun n => Qgtb (entry (items maps) v n) 0) (seq 0 (nth 3 (shape maps) 0%nat)).

(** The voxels of the support, in raster order. *)
Definition support_voxels (maps : ndarray (stack Q)) (mask : ndarray (volume Z))
    : list nat :=
  List.filter (in_support maps mask) (seq 0 (n_voxels (shape maps))).

(** The rows of a 4D array at the given voxels, as a 2D array. *)
Definition rows_at (voxels : list nat) (a : ndarray (stack Q)) : ndarray matrix :=
  NdArray [length voxels; List.last (shape a) 0%nat]
          (map (fun v => nth v (items a) []) voxels).

(** The preconditions of [signals_from_maps] with a mask. *)
Definition maps_call_fit (niimgs maps_img : niimg (stack Q))
    (mask_img : niimg (volume Z)) : Prop :=
  wf_stack (get_data niimgs) /\
  wf_stack (get_data maps_img) /\
  firstn 3 (get_shape maps_img) = firstn 3 (get_shape niimgs) /\
  affine_mismatch (get_affine maps_img) (get_affine niimgs) = false /\
  mask_fits (Some mask_img) (firstn 3 (get_shape niimgs)) (get_affine niimgs).

(** The computation [m] leaves the array objects of the store [h0] as they
    are, and what it returns satisfies [post]. *)
Definition frame {A} (h0 : gmap nat Heap.array) (m : Heap.M A) (post : A -> Prop)
    : Prop :=
  forall h, h0 ⊆ h -> h0 ⊆ (m h).2 /\ forall a, (m h).1 = Ok a -> post a.

(** The sum of [f k] for [k] below [n]. *)
Definition bigsum (n : nat) (f : nat -> Q) : Q := Qsum (map f (seq 0 n)).

(** The array [x] with [eps] added to its entry at row [r], column [t]. *)
Definition perturb (x : ndarray matrix) (r t : nat) (eps : Q) : ndarray matrix :=
  NdArray (shape x)
    (map (fun k =>
            map (fun j =>
                   if (k =? r)%nat && (j =? t)%nat
                   then entry (items x) k j + eps
                   else entry (items x) k j)
                (seq 0 (nth 1 (shape x) 0%nat)))
         (seq 0 (nth 0 (shape x) 0%nat))).

(** The factor of region [r]: (sum of its weights) / (sum of their squares). *)
Definition region_factor (regions : ndarray matrix) (r : nat) : Q :=
  Qsum (nth r (items regions) [])
  / Qsum (map (fun w => w * w) (nth r (items regions) [])).

(** The image [img] of the store [h] holds the arrays of the image value
    [v]. *)
Definition holds_labels (h : gmap nat Heap.array) (img : Heap.niimg)
    (v : niimg (volume Z)) : Prop :=
  h !! Heap.get_data img = Some (Heap.IntArray (get_data v)) /\
  Heap.get_affine img = get_affine v.

Definition holds_stack (h : gmap nat Heap.array) (img : Heap.niimg)
    (v : niimg (stack Q)) : Prop :=
  h !! Heap.get_data img = Some (Heap.RealArray (get_data v)) /\
  Heap.get_affine img = get_affine v.

Definition holds_mask (h : gmap nat Heap.array) (img : option Heap.niimg)
    (v : option (niimg (volume Z))) : Prop :=
  match img, v with
  | Some img, Some v => holds_labels h img v
  | None, None => True
  | _, _ => False
  end.

(** The argument [r] of [regions_to_mask] on the store [h] holds the arrays
    of the argument [v] on values. *)
Definition holds_regions (h : gmap nat Heap.array) (r : Heap.regions_arg)
    (v : regions_arg) : Prop :=
  match r, v with
  | Heap.RegionList rs, RegionList vs =>
      Forall2 (fun r v =>
                 h !! Heap.get_data r = Some (Heap.WeightArray (get_data v)))
              rs vs /\
      Heap.get_affine (hd (Heap.Niimg 0 []) rs) =
      get_affine (hd (Niimg (NdArray [] []) []) vs)
  | Heap.RegionImg r, RegionImg v =>
      h !! Heap.get_data r =
        Some (match items (get_data v) with
              | Weights d => Heap.RealArray (NdArray (get_shape v) d)
              | Labels d => Heap.IntArray (NdArray (get_shape v) d)
              end) /\
      Heap.get_affine r = get_affine v
  | Heap.RegionOther, RegionOther => True
  | _, _ => False
  end.

(** Two of the weights of a list, at different places, are not zero. *)
Definition two_nonzero (ws : list Q) : Prop :=
  exists n m, (n < m < length ws)%nat /\ ~ nth n ws 0 == 0 /\ ~ nth m ws 0 == 0.

(** The 4D array made of the arrays of a list, along the last axis. *)
Definition stacked (regions : list (ndarray (volume Q))) : ndarray (stack Q) :=
  let first := hd (NdArray [] []) regions in
  NdArray (shape first ++ [length regions])
          (map (fun v => map (fun r => nth v (items r) 0) regions)
               (seq 0 (n_voxels (shape first)))).

(** No combination of the rows of [regions], other than the one with all
    coefficients zero, is zero on every voxel. *)
Definition independent_rows (regions : ndarray matrix) : Prop :=
  forall u : nat -> Q,
    (forall v, (v < nth 1 (shape regions) 0)%nat ->
       bigsum (nth 0 (shape regions) 0%nat)
              (fun k => u k * entry (items regions) k v) == 0) ->
    forall k, (k < nth 0 (shape regions) 0)%nat -> u k == 0.

(** A 4D array seen as a 2D one, one row per voxel. *)
Definition voxel_rows (a : ndarray (stack Q)) : ndarray matrix :=
  NdArray [n_voxels (shape a); nth 3 (shape a) 0%nat] (items a).

(** * Properties *)

(** ** Lists as arrays *)

Lemma length_map2 {A B C} (f : A -> B -> C) l l' :
  length (map2 f l l') = Nat.min (length l) (length l').
Proof.
  revert l'; induction l as [|a l IH]; intros [|b l']; simpl; auto.
Qed.

Lemma nth_map2 {A B C} (f : A -> B -> C) l l' i da db dc :
  (i < length l)%nat -> (i < length l')%nat ->
  nth i (map2 f l l') dc = f (nth i l da) (nth i l' db).
Proof.
  revert l' i; induction l as [|a l IH]; intros [|b l'] [|i]; simpl;
    intros; try lia; auto.
  apply IH; lia.
Qed.

Lemma length_assign_where {A} (a : list A) cond x :
  length cond = length a -> length (assign_where a cond x) = length a.
Proof. intros H. unfold assign_where. rewrite length_map2. lia. Qed.

Lemma nth_assign_where {A} (a : list A) cond x i d :
  length cond = length a -> (i < length a)%nat ->
  nth i (assign_where a cond x) d = if nth i cond false then x else nth i a d.
Proof.
  intros Hl Hi. unfold assign_where.
  rewrite (nth_map2 _ _ _ _ false d) by lia. reflexivity.
Qed.

Lemma length_column {A} (d : A) a n : length (column d a n) = length a.
Proof. apply length_map. Qed.

Lemma nth_column {A} (d : A) a n i :
  (i < length a)%nat -> nth i (column d a n) d = nth n (nth i a []) d.
Proof.
  intros Hi. unfold column.
  rewrite (nth_indep _ d (nth n [] d)) by (rewrite length_map; lia).
  apply (map_nth (fun row => nth n row d)).
Qed.

Lemma nth_map_lt {A B} (f : A -> B) l i da db :
  (i < length l)%nat -> nth i (map f l) db = f (nth i l da).
Proof.
  intros Hi. rewrite (nth_indep _ db (f da)) by (rewrite length_map; lia).
  apply map_nth.
Qed.

Lemma nth_map_seq {B} (f : nat -> B) n i d :
  (i < n)%nat -> nth i (map f (seq 0 n)) d = f i.
Proof.
  intros Hi. rewrite (nth_map_lt _ _ _ 0%nat) by (rewrite length_seq; lia).
  rewrite seq_nth by lia. reflexivity.
Qed.

Lemma list_eq_nth {A} (l l' : list A) d :
  length l = length l' ->
  (forall i, (i < length l)%nat -> nth i l d = nth i l' d) -> l = l'.
Proof.
  intros Hl H. apply (nth_ext _ _ d d); auto.
Qed.

Lemma Qgtb_lt x y : Qgtb x y = true <-> y < x.
Proof.
  unfold Qgtb. rewrite negb_true_iff, <- not_true_iff_false, Qle_bool_iff.
  split; [apply Qnot_le_lt | apply Qlt_not_le].
Qed.

Lemma Qgtb_le x y : Qgtb x y = false <-> x <= y.
Proof.
  unfold Qgtb. rewrite negb_false_iff. apply Qle_bool_iff.
Qed.

(** ** [regions_to_mask]: what a voxel of the output holds *)

Lemma length_mark_above thr out data :
  length data = length out -> length (mark_above thr out data) = length out.
Proof.
  intros H. unfold mark_above. apply length_assign_where.
  rewrite length_map. exact H.
Qed.

Lemma nth_mark_above thr out data v :
  length data = length out -> (v < length out)%nat ->
  nth v (mark_above thr out data) 0%Z =
  if Qgtb (Qabs (nth v data 0)) thr then 1%Z else nth v out 0%Z.
Proof.
  intros Hl Hv. unfold mark_above.
  rewrite nth_assign_where by (rewrite ?length_map; lia).
  rewrite (nth_map_lt _ _ _ 0) by lia. reflexivity.
Qed.

Lemma merge_list_spec thr imgs : forall output,
  Forall (fun r => get_shape r = shape output /\
                   length (items (get_data r)) = length (items output)) imgs ->
  exists out,
    merge_list thr imgs output = Ok (NdArray (shape output) out) /\
    length out = length (items output) /\
    forall v, (v < length (items output))%nat ->
      nth v out 0%Z =
      if above_in_list thr imgs v then 1%Z else nth v (items output) 0%Z.
Proof.
  induction imgs as [|r rest IH]; intros output Hall.
  - exists (items output). destruct output; simpl. auto.
  - inversion Hall as [|? ? [Hs Hl] Hrest]; subst.
    simpl. unfold shape_eqb. rewrite bool_decide_eq_true_2 by exact Hs. simpl.
    destruct (IH (NdArray (shape output)
                    (mark_above thr (items output) (items (get_data r)))))
      as (out & Heq & Hlen & Hnth).
    { simpl. rewrite length_mark_above by exact Hl. exact Hrest. }
    simpl in *. rewrite length_mark_above in * by exact Hl.
    exists out. split; [exact Heq|]. split; [exact Hlen|].
    intros v Hv. rewrite (Hnth v Hv), nth_mark_above by auto.
    destruct (above_in_list thr rest v) eqn:E; rewrite ?orb_true_r; auto.
    rewrite orb_false_r. reflexivity.
Qed.

Lemma merge_stack_spec thr data ns : forall output,
  length data = length output ->
  let out := fold_left (fun out n => mark_above thr out (column 0 data n)) ns output in
  length out = length output /\
  forall v, (v < length output)%nat ->
    nth v out 0%Z =
    if existsb (fun n => Qgtb (Qabs (nth n (nth v data []) 0)) thr) ns
    then 1%Z else nth v output 0%Z.
Proof.
  induction ns as [|n ns IH]; intros output Hl; simpl.
  - auto.
  - destruct (IH (mark_above thr output (column 0 data n))) as [Hlen Hnth].
    { rewrite length_mark_above; rewrite ?length_column; auto. }
    rewrite length_mark_above in * by (rewrite length_column; auto).
    split; [exact Hlen|].
    intros v Hv. rewrite (Hnth v Hv).
    rewrite nth_mark_above by (rewrite ?length_column; auto).
    rewrite nth_column by lia.
    destruct (existsb _ ns); rewrite ?orb_true_r; auto.
    rewrite orb_false_r. reflexivity.
Qed.

Lemma existsb_nth_seq {A} (f : A -> bool) (l : list A) (d : A) :
  existsb f l = existsb (fun n => f (nth n l d)) (seq 0 (length l)).
Proof.
  induction l as [|a l IH]; simpl; auto.
  rewrite IH, <- seq_shift. f_equal. clear IH.
  induction (seq 0 (length l)) as [|n ns IHns]; simpl; auto.
  rewrite IHns. reflexivity.
Qed.

Lemma existsb_map_comp {A B} (f : B -> bool) (g : A -> B) (l : list A) :
  existsb f (map g l) = existsb (fun a => f (g a)) l.
Proof.
  induction l as [|a l IH]; simpl; [reflexivity|]. rewrite IH. reflexivity.
Qed.

Lemma nth_repeat_lt {A} (x d : A) n i : (i < n)%nat -> nth i (repeat x n) d = x.
Proof.
  revert i; induction n; intros [|i] H; simpl; try lia; auto. apply IHn; lia.
Qed.

Lemma n_voxels_firstn sh : n_voxels (firstn 3 sh) = n_voxels sh.
Proof. unfold n_voxels. rewrite firstn_firstn. reflexivity. Qed.

Lemma n_voxels_app sh n : length sh = 3%nat -> n_voxels (sh ++ [n]) = n_voxels sh.
Proof.
  intros H. unfold n_voxels. rewrite List.firstn_app, H. simpl.
  rewrite app_nil_r. reflexivity.
Qed.

(** The list form returns, and a voxel of its output is set exactly when
    some volume is above the threshold there. *)
Lemma regions_to_mask_list thr bg imgs :
  wf_region_list imgs ->
  let first := hd (Niimg (NdArray [] []) []) imgs in
  exists out,
    regions_to_mask (RegionList imgs) thr bg =
      Ok (Niimg (NdArray (get_shape first) out) (get_affine first)) /\
    length out = n_voxels (get_shape first) /\
    forall v, (v < n_voxels (get_shape first))%nat ->
      nth v out 0%Z = if above_in_list thr imgs v then 1%Z else 0%Z.
Proof.
  intros [Hne Hall]. destruct imgs as [|first rest]; [congruence|].
  simpl hd in *. cbv zeta.
  assert (H3 : length (get_shape first) = 3%nat).
  { inversion Hall as [|? ? [[H _] _] _]. exact H. }
  destruct (merge_list_spec thr (first :: rest) (zeros3 0%Z (get_shape first)))
    as (out & Heq & Hlen & Hnth).
  { eapply List.Forall_impl; [|exact Hall]. intros r [[_ Hl] Hs]. simpl.
    rewrite repeat_length. split; [exact Hs|].
    rewrite <- Hs. exact Hl. }
  simpl in Hlen, Hnth. rewrite repeat_length in *.
  exists out. split; [|split; [exact Hlen|]].
  - unfold regions_to_mask. rewrite H3. simpl negb. cbv iota.
    rewrite Heq. reflexivity.
  - intros v Hv. rewrite (Hnth v Hv), nth_repeat_lt by exact Hv. reflexivity.
Qed.

(** The 4D form returns, and a voxel of its output is set exactly when some
    entry of its row along the last axis is above the threshold. *)
Lemma regions_to_mask_weights thr bg sh d aff :
  length sh = 4%nat -> length d = n_voxels sh ->
  exists out,
    regions_to_mask (RegionImg (Niimg (NdArray sh (Weights d)) aff)) thr bg =
      Ok (Niimg (NdArray (firstn 3 sh) out) aff) /\
    length out = n_voxels sh /\
    forall v, (v < n_voxels sh)%nat ->
      nth v out 0%Z =
      if existsb (fun n => Qgtb (Qabs (nth n (nth v d []) 0)) thr)
                 (seq 0 (nth 3 sh 0%nat))
      then 1%Z else 0%Z.
Proof.
  intros H4 Hd.
  destruct (merge_stack_spec thr d (seq 0 (nth 3 sh 0%nat))
              (items (zeros3 0%Z (firstn 3 sh)))) as [Hlen Hnth].
  { simpl. rewrite repeat_length, n_voxels_firstn. exact Hd. }
  simpl in Hlen, Hnth. rewrite repeat_length, n_voxels_firstn in *.
  exists (merge_stack thr d (nth 3 sh 0%nat) (repeat 0%Z (n_voxels sh))).
  split; [|split; [exact Hlen|]].
  - unfold regions_to_mask, get_shape, zeros3.
    cbn [get_data shape items get_affine].
    rewrite H4, n_voxels_firstn. reflexivity.
  - intros v Hv. unfold merge_stack.
    rewrite (Hnth v Hv), nth_repeat_lt by exact Hv. reflexivity.
Qed.

Lemma existsb_Exists_above thr (ws : list Q) :
  existsb (fun w => Qgtb (Qabs w) thr) ws = true <->
  Exists (fun w => thr < Qabs w) ws.
Proof.
  rewrite existsb_exists, List.Exists_exists.
  split; intros (w & Hin & Hw); exists w; split; auto; apply Qgtb_lt; auto.
Qed.

(** For any threshold: the operation returns a mask, and a voxel of it is
    [1] when some weight there is above the threshold in absolute value,
    [0] otherwise. *)
Lemma regions_to_mask_weighted regions_img thr bg :
  wf_weighted regions_img ->
  exists mask,
    regions_to_mask regions_img thr bg = Ok mask /\
    length (items (get_data mask)) = mask_voxels regions_img /\
    forall v, (v < mask_voxels regions_img)%nat ->
      nth v (items (get_data mask)) 0%Z =
      if existsb (fun w => Qgtb (Qabs w) thr) (weights_at regions_img v)
      then 1%Z else 0%Z.
Proof.
  destruct regions_img as [imgs|img|]; simpl; [| |tauto].
  - intros Hwf. destruct (regions_to_mask_list thr bg imgs Hwf)
      as (out & Heq & Hlen & Hnth).
    eexists. split; [exact Heq|]. split; [exact Hlen|].
    intros v Hv. simpl. rewrite (Hnth v Hv). unfold above_in_list.
    rewrite existsb_map_comp. reflexivity.
  - intros (d & Hd & H4 & Hlen & Hrows). simpl in H4, Hlen, Hrows.
    destruct img as [[sh dat] aff]. unfold get_shape in *. simpl in *. subst dat.
    destruct (regions_to_mask_weights thr bg sh d aff H4 Hlen)
      as (out & Heq & Hl & Hnth).
    eexists. split; [exact Heq|]. split; [exact Hl|].
    intros v Hv. simpl. rewrite (Hnth v Hv).
    assert (Hrow : length (nth v d []) = nth 3 sh 0%nat).
    { rewrite List.Forall_forall in Hrows. apply Hrows, nth_In. lia. }
    rewrite <- Hrow, <- (existsb_nth_seq (fun w => Qgtb (Qabs w) thr)).
    reflexivity.
Qed.

(** C8. With [threshold = 0], on every weighted input (a list of volumes or
    a 4D array) [regions_to_mask] returns a mask in which a voxel whose
    weight is exactly zero in every input volume is not set, and a voxel
    whose weight has a strictly positive absolute value in at least one
    input volume is set: membership is [abs(weight) > threshold], strict. *)
Theorem regions_to_mask_zero_threshold :
  forall (regions_img : regions_arg) (background : Z),
    wf_weighted regions_img ->
    exists mask,
      regions_to_mask regions_img 0 background = Ok mask /\
      forall v, (v < mask_voxels regions_img)%nat ->
        (Forall (fun w => w == 0) (weights_at regions_img v) ->
         nth v (items (get_data mask)) 0%Z = 0%Z) /\
        (Exists (fun w => 0 < Qabs w) (weights_at regions_img v) ->
         nth v (items (get_data mask)) 0%Z = 1%Z).
Proof.
  intros regions_img bg Hwf.
  destruct (regions_to_mask_weighted regions_img 0 bg Hwf)
    as (mask & Heq & _ & Hnth).
  exists mask. split; [exact Heq|].
  intros v Hv. rewrite (Hnth v Hv). split.
  - intros Hall.
    destruct (existsb _ (weights_at regions_img v)) eqn:E; [|reflexivity].
    apply existsb_Exists_above in E.
    rewrite List.Exists_exists in E. destruct E as (w & Hin & Hw).
    rewrite List.Forall_forall in Hall. specialize (Hall w Hin).
    rewrite Hall in Hw. discriminate.
  - intros Hex. apply existsb_Exists_above in Hex. rewrite Hex. reflexivity.
Qed.

Lemma regions_to_mask_zero_threshold_witness :
  let aff := repeat 1 16 in
  let regions_img :=
    RegionList [Niimg (NdArray [2; 1; 1]%nat [0; 0]) aff;
                Niimg (NdArray [2; 1; 1]%nat [0; 1 # 1000000000000]) aff] in
  exists mask,
    regions_to_mask regions_img 0 0%Z = Ok mask /\
    forall v, (v < mask_voxels regions_img)%nat ->
      (Forall (fun w => w == 0) (weights_at regions_img v) ->
       nth v (items (get_data mask)) 0%Z = 0%Z) /\
      (Exists (fun w => 0 < Qabs w) (weights_at regions_img v) ->
       nth v (items (get_data mask)) 0%Z = 1%Z).
Proof.
  intros aff regions_img.
  apply (regions_to_mask_zero_threshold regions_img 0%Z).
  split; [discriminate|].
  repeat constructor.
Defined.

(** C9. For every non-empty list of single-region volumes of one shape and
    every threshold, [regions_to_mask] returns on the list exactly what it
    returns on the 4D image made of the same volumes along the last axis,
    and what it returns is a mask. *)
Theorem regions_to_mask_list_eq_stack :
  forall (imgs : list (niimg (volume Q))) (threshold : Q) (background : Z),
    wf_region_list imgs ->
    regions_to_mask (RegionList imgs) threshold background =
      regions_to_mask (RegionImg (stack_of imgs)) threshold background /\
    exists mask, regions_to_mask (RegionList imgs) threshold background = Ok mask.
Proof.
  intros imgs thr bg Hwf.
  destruct (regions_to_mask_list thr bg imgs Hwf) as (out & Heq & Hlen & Hnth).
  cbv zeta in *.
  set (first := hd (Niimg (NdArray [] []) []) imgs) in *.
  assert (H3 : length (get_shape first) = 3%nat).
  { destruct Hwf as [Hne Hall]. destruct imgs as [|f rest]; [congruence|].
    inversion Hall as [|? ? [[H _] _] _]. exact H. }
  destruct (regions_to_mask_weights thr bg (get_shape first ++ [length imgs])
              (map (fun v => map (fun r => nth v (items (get_data r)) 0) imgs)
                   (seq 0 (n_voxels (get_shape first))))
              (get_affine first))
    as (out' & Heq' & Hlen' & Hnth').
  { rewrite length_app, H3. reflexivity. }
  { rewrite length_map, length_seq, n_voxels_app by exact H3. reflexivity. }
  rewrite n_voxels_app in * by exact H3.
  split; [|eexists; exact Heq].
  rewrite Heq. unfold stack_of. fold first. rewrite Heq'.
  rewrite List.firstn_app, H3, Nat.sub_diag, firstn_all2 by lia.
  simpl. rewrite app_nil_r.
  replace out' with out; [reflexivity|].
  apply (list_eq_nth _ _ 0%Z); [lia|].
  intros v Hv. rewrite Hlen in Hv.
  rewrite (Hnth v Hv), (Hnth' v Hv).
  rewrite app_nth2, H3 by lia. simpl nth.
  rewrite (nth_map_seq _ _ _ _ Hv).
  rewrite <- (length_map (fun r => nth v (items (get_data r)) 0) imgs).
  rewrite <- (existsb_nth_seq (fun w => Qgtb (Qabs w) thr)).
  rewrite existsb_map_comp. reflexivity.
Qed.

Lemma regions_to_mask_list_eq_stack_witness :
  let aff := repeat 1 16 in
  let imgs :=
    [Niimg (NdArray [2; 1; 1]%nat [0; 3]) aff;
     Niimg (NdArray [2; 1; 1]%nat [-(1 # 2); 0]) aff] in
  regions_to_mask (RegionList imgs) (1 # 4) 0%Z =
    regions_to_mask (RegionImg (stack_of imgs)) (1 # 4) 0%Z /\
  exists mask, regions_to_mask (RegionList imgs) (1 # 4) 0%Z = Ok mask.
Proof.
  intros aff imgs.
  apply (regions_to_mask_list_eq_stack imgs (1 # 4) 0%Z).
  split; [discriminate|].
  repeat constructor.
Defined.

(** ** Validation of shapes and affines *)





Lemma shape_eqb_eq s s' : s = s' -> shape_eqb s s' = true.
Proof. intros H. unfold shape_eqb. apply bool_decide_eq_true_2. exact H. Qed.



(** ** [np.unique] and the list of labels *)

Lemma insert_unique_In x y l : In y (insert_unique x l) <-> y = x \/ In y l.
Proof.
  induction l as [|z l IH]; simpl.
  - intuition.
  - destruct (Z.ltb_spec x z); [simpl; intuition|].
    destruct (Z.eqb_spec x z); simpl; [subst; intuition|].
    rewrite IH. intuition.
Qed.

Lemma insert_unique_sorted x l :
  StronglySorted Z.lt l -> StronglySorted Z.lt (insert_unique x l).
Proof.
  induction 1 as [|z l Hs IH Hall]; simpl.
  - repeat constructor.
  - destruct (Z.ltb_spec x z).
    + constructor; [constructor; assumption|].
      constructor; [assumption|].
      eapply List.Forall_impl; [|exact Hall]. intros; simpl in *; lia.
    + destruct (Z.eqb_spec x z); [constructor; assumption|].
      constructor; [exact IH|].
      rewrite List.Forall_forall in *. intros y Hy.
      apply insert_unique_In in Hy. destruct Hy as [->|Hy]; [lia|auto].
Qed.

Lemma unique_In y l : In y (unique l) <-> In y l.
Proof.
  induction l as [|x l IH]; simpl; [tauto|].
  rewrite insert_unique_In, IH. intuition.
Qed.

Lemma unique_sorted l : StronglySorted Z.lt (unique l).
Proof.
  induction l as [|x l IH]; simpl; [constructor|].
  apply insert_unique_sorted, IH.
Qed.

Lemma list_remove_sorted x l :
  StronglySorted Z.lt l ->
  StronglySorted Z.lt (list_remove x l) /\
  forall y, In y (list_remove x l) <-> In y l /\ y <> x.
Proof.
  induction 1 as [|z l Hs [IHs IHin] Hall]; simpl.
  - split; [constructor|]. tauto.
  - rewrite List.Forall_forall in Hall.
    destruct (Z.eqb_spec z x) as [->|Hne].
    + split; [exact Hs|]. intros y. split.
      * intros Hy. split; [right; exact Hy|]. apply Hall in Hy. lia.
      * intros [[?|Hy] Hn]; [congruence|exact Hy].
    + split.
      * constructor; [exact IHs|]. rewrite List.Forall_forall.
        intros y Hy. apply IHin in Hy. apply Hall, Hy.
      * intros y. simpl. rewrite IHin. split.
        -- intros [->|[? ?]]; auto.
        -- intros [[->|?] ?]; auto.
Qed.

Lemma region_labels_sorted a bg : StronglySorted Z.lt (region_labels a bg).
Proof.
  unfold region_labels. destruct (existsb _ _).
  - apply list_remove_sorted, unique_sorted.
  - apply unique_sorted.
Qed.

Lemma region_labels_In a bg l :
  In l (region_labels a bg) <-> In l (items a) /\ l <> bg.
Proof.
  unfold region_labels. destruct (existsb _ _) eqn:E.
  - rewrite (proj2 (list_remove_sorted bg _ (unique_sorted _))), unique_In.
    reflexivity.
  - rewrite unique_In. split; [|tauto]. intros H. split; [exact H|].
    intros ->. apply not_true_iff_false in E. apply E.
    apply existsb_exists. exists bg. rewrite unique_In, Z.eqb_refl. auto.
Qed.

(** Two ascending lists with the same elements are the same list. *)
Lemma sorted_unique (l l' : list Z) :
  StronglySorted Z.lt l -> StronglySorted Z.lt l' ->
  (forall x, In x l <-> In x l') -> l = l'.
Proof.
  intros Hl; revert l'. induction Hl as [|a l Hs IH Ha]; intros l' Hl' Hin.
  - destruct l' as [|b l']; [reflexivity|].
    exfalso. apply (Hin b). left; reflexivity.
  - destruct Hl' as [|b l' Hs' Hb].
    { exfalso. apply (Hin a). left; reflexivity. }
    rewrite List.Forall_forall in Ha, Hb.
    assert (a = b).
    { destruct (proj1 (Hin a) (or_introl eq_refl)) as [|Ha'];
        [congruence|].
      destruct (proj2 (Hin b) (or_introl eq_refl)) as [|Hb'];
        [congruence|].
      apply Ha in Hb'. apply Hb in Ha'. lia. }
    subst b. f_equal. apply IH; [exact Hs'|].
    intros x. split; intros Hx.
    + destruct (proj1 (Hin x) (or_intror Hx)) as [<-|]; [|assumption].
      apply Ha in Hx. lia.
    + destruct (proj2 (Hin x) (or_intror Hx)) as [<-|]; [|assumption].
      apply Hb in Hx. lia.
Qed.

(** ** Boolean indexing *)

Lemma filter_map_comm {A B} (f : B -> bool) (g : A -> B) (l : list A) :
  List.filter f (map g l) = map g (List.filter (fun a => f (g a)) l).
Proof.
  induction l as [|a l IH]; simpl; [reflexivity|].
  rewrite IH. destruct (f (g a)); reflexivity.
Qed.

(** [a[cond]] holds the items of [a] at the indices where [cond] is true,
    in order. *)
Lemma select_filter_seq {A} (d : A) (cond : list bool) (a : list A) :
  length cond = length a ->
  select cond a =
  map (fun v => nth v a d)
      (List.filter (fun v => nth v cond false) (seq 0 (length a))).
Proof.
  revert cond; induction a as [|x a IH]; intros [|c cond] Hl;
    simpl in Hl; try lia; [reflexivity|].
  unfold select in *. simpl combine. simpl length.
  rewrite <- cons_seq, <- seq_shift. simpl List.filter.
  rewrite filter_map_comm.
  destruct c; simpl; rewrite map_map, IH by lia; reflexivity.
Qed.

Lemma filter_ext_seq (f g : nat -> bool) n :
  (forall v, (v < n)%nat -> f v = g v) ->
  List.filter f (seq 0 n) = List.filter g (seq 0 n).
Proof.
  intros H. apply filter_ext_in. intros v Hv. apply in_seq in Hv.
  apply H. lia.
Qed.

(** ** Labels under a mask *)

Lemma masked_labels_length dt labels_img mask_img bg sh aff :
  wf_volume (get_data labels_img) -> get_shape labels_img = sh ->
  mask_fits mask_img sh aff ->
  shape (masked_labels dt labels_img mask_img bg) = sh /\
  length (items (masked_labels dt labels_img mask_img bg)) = n_voxels sh.
Proof.
  intros [_ Hl] Hs Hm. unfold get_shape in *. rewrite Hs in Hl.
  destruct mask_img as [m|]; simpl; [|auto].
  destruct (Hm m eq_refl) as ([_ Hlm] & Hsm & _).
  unfold get_shape in Hsm. rewrite Hsm in Hlm.
  split; [exact Hs|]. rewrite length_assign_where; [exact Hl|].
  unfold logical_not. rewrite length_map. lia.
Qed.

Lemma masked_labels_nth dt labels_img mask_img bg sh aff v :
  wf_volume (get_data labels_img) -> get_shape labels_img = sh ->
  mask_fits mask_img sh aff -> (v < n_voxels sh)%nat ->
  nth v (items (masked_labels dt labels_img mask_img bg)) 0%Z =
  masked_label dt labels_img mask_img bg v.
Proof.
  intros [_ Hl] Hs Hm Hv. unfold get_shape in *. rewrite Hs in Hl.
  unfold masked_label.
  destruct mask_img as [m|]; simpl; [|reflexivity].
  destruct (Hm m eq_refl) as ([_ Hlm] & Hsm & _).
  unfold get_shape in Hsm. rewrite Hsm in Hlm.
  unfold logical_not.
  rewrite nth_assign_where by (rewrite ?length_map; lia).
  rewrite (nth_map_lt _ _ _ 0%Z) by lia.
  destruct (nth v (items (get_data m)) 0%Z); reflexivity.
Qed.

(** The values that enter the mean of a region: those of its voxels. *)
Lemma label_values_region {R} (d : R) dt labels_img mask_img bg sh aff
    (img : list R) l :
  wf_volume (get_data labels_img) -> get_shape labels_img = sh ->
  mask_fits mask_img sh aff -> length img = n_voxels sh ->
  label_values img (items (masked_labels dt labels_img mask_img bg)) l =
  map (fun v => nth v img d) (region_voxels dt labels_img mask_img bg l).
Proof.
  intros Hwf Hs Hm Himg.
  destruct (masked_labels_length dt labels_img mask_img bg sh aff Hwf Hs Hm)
    as [_ Hlen].
  unfold label_values, region_voxels.
  rewrite (select_filter_seq d) by (rewrite length_map; lia).
  rewrite Himg, Hs. f_equal. apply filter_ext_seq. intros v Hv.
  rewrite (nth_map_lt _ _ _ 0%Z) by lia.
  rewrite (masked_labels_nth dt labels_img mask_img bg sh aff v Hwf Hs Hm Hv).
  apply Z.eqb_sym.
Qed.

Lemma region_voxels_In dt labels_img mask_img bg l v :
  In v (region_voxels dt labels_img mask_img bg l) <->
  (v < n_voxels (get_shape labels_img))%nat /\
  masked_label dt labels_img mask_img bg v = l.
Proof.
  unfold region_voxels. rewrite filter_In, in_seq, Z.eqb_eq.
  intuition lia.
Qed.

(** When the dtype of the labels holds [bg] as it is, the voxels of a
    region other than the background are those inside the mask that carry
    its label. *)
Lemma region_voxels_inside dt labels_img mask_img bg l v :
  astype dt bg = bg -> l <> bg ->
  (In v (region_voxels dt labels_img mask_img bg l) <->
   (v < n_voxels (get_shape labels_img))%nat /\
   in_mask mask_img v = true /\
   nth v (items (get_data labels_img)) 0%Z = l).
Proof.
  intros Hdt Hne. rewrite region_voxels_In. unfold masked_label.
  rewrite Hdt. destruct (in_mask mask_img v).
  - intuition congruence.
  - split; [intros [_ H]; congruence|intros (_ & H & _); discriminate].
Qed.

(** A label other than the background is in the list of labels exactly when
    some voxel carries it once the mask is applied. *)
Lemma region_labels_present dt labels_img mask_img bg sh aff l :
  wf_volume (get_data labels_img) -> get_shape labels_img = sh ->
  mask_fits mask_img sh aff ->
  (In l (region_labels (masked_labels dt labels_img mask_img bg) bg) <->
   l <> bg /\ exists v, In v (region_voxels dt labels_img mask_img bg l)).
Proof.
  intros Hwf Hs Hm.
  destruct (masked_labels_length dt labels_img mask_img bg sh aff Hwf Hs Hm)
    as [_ Hlen].
  rewrite region_labels_In. split.
  - intros [Hin Hne]. split; [exact Hne|].
    apply (In_nth _ _ 0%Z) in Hin. destruct Hin as (v & Hv & Hnth).
    rewrite Hlen in Hv.
    rewrite (masked_labels_nth _ _ _ _ sh aff v Hwf Hs Hm Hv) in Hnth.
    exists v. apply region_voxels_In. rewrite Hs. auto.
  - intros [Hne (v & Hv)]. split; [|exact Hne].
    apply region_voxels_In in Hv. destruct Hv as (Hv & Hl).
    rewrite Hs in Hv.
    pose proof (masked_labels_nth dt _ _ bg sh aff v Hwf Hs Hm Hv) as Hnth.
    rewrite Hl in Hnth. rewrite <- Hnth.
    apply nth_In. lia.
Qed.

Lemma check_mask_fits mask_img sh aff msg msg' :
  mask_fits mask_img sh aff -> check_mask mask_img sh aff msg msg' = Ok tt.
Proof.
  intros Hm. destruct mask_img as [m|]; [|reflexivity].
  destruct (Hm m eq_refl) as (_ & Hs & Ha). simpl.
  rewrite (shape_eqb_eq _ _ Hs), Ha. reflexivity.
Qed.

Lemma last_nth3 (sh : list nat) :
  length sh = 4%nat -> List.last sh 0%nat = nth 3 sh 0%nat.
Proof.
  destruct sh as [|a [|b [|c [|d [|e sh]]]]]; simpl; intros H;
    try discriminate; reflexivity.
Qed.

(** ** [signals_from_labels] *)

(** What [signals_from_labels] returns on inputs that pass its checks. *)
Lemma signals_from_labels_run {R} `{Number R} dt (niimgs : niimg (stack R))
    labels_img mask_img bg :
  labels_fit niimgs labels_img mask_img ->
  let labels_data := masked_labels dt labels_img mask_img bg in
  let labels := region_labels labels_data bg in
  let n_scans := nth 3 (get_shape niimgs) 0%nat in
  signals_from_labels dt niimgs labels_img mask_img bg =
    Ok (NdArray [n_scans; length labels]
          (map (fun n => ndimage_mean (column num_zero (items (get_data niimgs)) n)
                           (items labels_data) labels)
               (seq 0 n_scans)),
        labels).
Proof.
  intros ((H4 & _) & _ & Hs & Ha & Hm). cbv zeta.
  unfold signals_from_labels.
  rewrite (shape_eqb_eq _ _ Hs), Ha, (check_mask_fits _ _ _ _ _ Hm).
  simpl. unfold get_shape. rewrite (last_nth3 _ H4). reflexivity.
Qed.

(** An entry of the signals: the mean over the voxels of the region. *)
Lemma signals_entry {R} `{Number R} dt (niimgs : niimg (stack R))
    labels_img mask_img bg t n :
  labels_fit niimgs labels_img mask_img ->
  let labels_data := masked_labels dt labels_img mask_img bg in
  let labels := region_labels labels_data bg in
  let n_scans := nth 3 (get_shape niimgs) 0%nat in
  (t < n_scans)%nat -> (n < length labels)%nat ->
  item (map (fun n => ndimage_mean (column num_zero (items (get_data niimgs)) n)
                        (items labels_data) labels)
            (seq 0 n_scans)) t n =
  mean (map (fun v => item (items (get_data niimgs)) v t)
            (region_voxels dt labels_img mask_img bg (nth n labels 0%Z))).
Proof.
  intros ((H4 & Hlen & Hrows) & Hwf & Hs & Ha & Hm) labels_data labels n_scans Ht Hn.
  unfold item.
  rewrite (nth_map_seq _ _ _ _ Ht). unfold ndimage_mean.
  rewrite (nth_map_lt _ _ _ 0%Z) by exact Hn. f_equal.
  unfold labels_data.
  rewrite (label_values_region num_zero dt labels_img mask_img bg _ _ _ _ Hwf Hs Hm);
    [|rewrite length_column, n_voxels_firstn; exact Hlen].
  apply map_ext_in. intros v Hv. apply region_voxels_In in Hv.
  destruct Hv as [Hv _]. rewrite Hs, n_voxels_firstn in Hv.
  apply nth_column. unfold get_shape in Hv. lia.
Qed.

(** C2. On inputs that pass the shape and affine checks, whatever the type
    of the numbers of the images (rationals, doubles) and the dtype of the
    array of labels, [signals_from_labels] returns a list of labels and a
    matrix of signals: the list is ascending without repetition, holds
    exactly the labels other than [background_label] carried by some voxel
    once the mask is applied, and is the only ascending list that does (so
    it does not depend on the order in which the voxels are met); the matrix
    has one row per instant and one column per label, and its entry at
    instant [t] and column [n] is the mean of the values at instant [t] of
    the voxels that carry label [labels[n]] once the mask is applied.
    Applying the mask gives a voxel outside the mask the label
    [background_label] cast to the dtype of the labels; so when that dtype
    holds [background_label] as it is, the voxels of a label of the list are
    those inside the mask that carry it. *)
Theorem signals_from_labels_correct :
  forall (R : Type) (number : Number R) (dt : dtype)
         (niimgs : niimg (stack R)) (labels_img : niimg (volume Z))
         (mask_img : option (niimg (volume Z))) (background_label : Z),
    labels_fit niimgs labels_img mask_img ->
    let n_scans := nth 3 (get_shape niimgs) 0%nat in
    let region := region_voxels dt labels_img mask_img background_label in
    exists signals labels,
      signals_from_labels dt niimgs labels_img mask_img background_label =
        Ok (signals, labels) /\
      StronglySorted Z.lt labels /\
      (forall l, In l labels <->
         l <> background_label /\ exists v, In v (region l)) /\
      (forall labels', StronglySorted Z.lt labels' ->
         (forall l, In l labels' <-> In l labels) -> labels' = labels) /\
      wf_matrix signals /\
      shape signals = [n_scans; length labels] /\
      (forall t n, (t < n_scans)%nat -> (n < length labels)%nat ->
         item (items signals) t n =
         mean (map (fun v => item (items (get_data niimgs)) v t)
                   (region (nth n labels 0%Z)))) /\
      (forall l v, In v (region l) <->
         (v < n_voxels (get_shape labels_img))%nat /\
         (if in_mask mask_img v then nth v (items (get_data labels_img)) 0%Z
          else astype dt background_label) = l) /\
      (astype dt background_label = background_label ->
       forall l v, l <> background_label ->
         (In v (region l) <->
          (v < n_voxels (get_shape labels_img))%nat /\
          in_mask mask_img v = true /\
          nth v (items (get_data labels_img)) 0%Z = l)).
Proof.
  intros R number dt niimgs labels_img mask_img bg Hfit n_scans region.
  rewrite (signals_from_labels_run dt _ _ _ bg Hfit). fold n_scans.
  pose proof Hfit as ((H4 & Hlen & Hrows) & Hwf & Hs & Ha & Hm).
  set (labels_data := masked_labels dt labels_img mask_img bg).
  set (labels := region_labels labels_data bg).
  assert (Hin : forall l, In l labels <->
            l <> bg /\ exists v, In v (region l)).
  { intros l. eapply region_labels_present; eauto. }
  eexists _, labels. split; [reflexivity|].
  split; [apply region_labels_sorted|]. split; [exact Hin|].
  split; [intros labels' Hs' Hin'; apply sorted_unique;
          [exact Hs'|apply region_labels_sorted|exact Hin']|].
  split; [|split; [reflexivity|split; [|split]]].
  - split; [reflexivity|]. simpl. rewrite length_map, length_seq.
    split; [reflexivity|]. rewrite List.Forall_forall.
    intros row Hrow. apply in_map_iff in Hrow. destruct Hrow as (n & <- & _).
    unfold ndimage_mean. apply length_map.
  - intros t n Ht Hn. simpl items.
    apply (signals_entry dt niimgs labels_img mask_img bg t n Hfit Ht Hn).
  - intros l v. apply region_voxels_In.
  - intros Hdt l v Hne. apply region_voxels_inside; assumption.
Qed.

Lemma signals_from_labels_correct_witness :
  let aff := repeat 1 16 in
  let niimgs := Niimg (NdArray [2; 2; 1; 2]%nat [[1; 2]; [3; 4]; [5; 6]; [7; 8]]) aff in
  let labels_img := Niimg (NdArray [2; 2; 1]%nat [3; 1; 3; 0]%Z) aff in
  let mask_img := Some (Niimg (NdArray [2; 2; 1]%nat [1; 1; 0; 1]%Z) aff) in
  let region := region_voxels uint8 labels_img mask_img (-1)%Z in
  exists signals labels,
    signals_from_labels uint8 niimgs labels_img mask_img (-1)%Z =
      Ok (signals, labels) /\
    StronglySorted Z.lt labels /\
    (forall l, In l labels <-> l <> (-1)%Z /\ exists v, In v (region l)) /\
    (forall labels', StronglySorted Z.lt labels' ->
       (forall l, In l labels' <-> In l labels) -> labels' = labels) /\
    wf_matrix signals /\
    shape signals = [2%nat; length labels] /\
    (forall t n, (t < 2)%nat -> (n < length labels)%nat ->
       item (items signals) t n =
       mean (map (fun v => item (items (get_data niimgs)) v t)
                 (region (nth n labels 0%Z)))) /\
    (forall l v, In v (region l) <->
       (v < n_voxels (get_shape labels_img))%nat /\
       (if in_mask mask_img v then nth v (items (get_data labels_img)) 0%Z
        else astype uint8 (-1)%Z) = l) /\
    (astype uint8 (-1)%Z = (-1)%Z ->
     forall l v, l <> (-1)%Z ->
       (In v (region l) <->
        (v < n_voxels (get_shape labels_img))%nat /\
        in_mask mask_img v = true /\
        nth v (items (get_data labels_img)) 0%Z = l)).
Proof.
  intros aff niimgs labels_img mask_img.
  refine (signals_from_labels_correct Q Q_number uint8 niimgs labels_img
            mask_img (-1)%Z _).
  split; [|split; [|split; [|split]]].
  - split; [reflexivity|]. split; [reflexivity|]. repeat constructor.
  - split; reflexivity.
  - reflexivity.
  - reflexivity.
  - intros m Hm. injection Hm as <-.
    split; [split; reflexivity|]. split; reflexivity.
Defined.

(** ** [img_from_labels] and the round trip *)

Lemma fill_labels_spec {R} `{Number R} (signals : ndarray (list (list R)))
    labels_data :
  forall labels n data,
  List.NoDup labels ->
  length data = length labels_data ->
  (n + length labels <= nth 1 (shape signals) 0)%nat ->
  exists out,
    fill_labels signals labels_data labels n data = Ok out /\
    length out = length data /\
    forall v, (v < length labels_data)%nat ->
      (forall i, (i < length labels)%nat ->
         nth i labels 0%Z = nth v labels_data 0%Z ->
         nth v out [] = column num_zero (items signals) (n + i)) /\
      (~ In (nth v labels_data 0%Z) labels -> nth v out [] = nth v data []).
Proof.
  induction labels as [|label rest IH]; intros n data Hnd Hlen Hcols.
  - exists data. split; [reflexivity|]. split; [reflexivity|].
    intros v Hv. split; [simpl; intros; lia|auto].
  - cbn [fill_labels]. simpl length in Hcols.
    assert (Hchk : (n <? nth 1 (shape signals) 0)%nat = true)
      by (apply Nat.ltb_lt; lia).
    rewrite Hchk. inversion Hnd as [|? ? Hnotin Hnd']; subst.
    set (data1 := assign_where data (map (Z.eqb label) labels_data)
                               (column num_zero (items signals) n)).
    assert (Hlen1 : length data1 = length labels_data).
    { unfold data1. rewrite length_assign_where; rewrite ?length_map; lia. }
    destruct (IH (S n) data1 Hnd' Hlen1) as (out & Heq & Hlo & Hout); [lia|].
    exists out. split; [exact Heq|]. split; [lia|].
    intros v Hv. destruct (Hout v Hv) as [Hhit Hmiss].
    assert (Hd1 : nth v data1 [] =
                  if (label =? nth v labels_data 0)%Z
                  then column num_zero (items signals) n else nth v data []).
    { unfold data1. rewrite nth_assign_where by (rewrite ?length_map; lia).
      rewrite (nth_map_lt _ _ _ 0%Z) by lia. reflexivity. }
    split.
    + intros [|i] Hi Hl; simpl in Hi, Hl.
      * rewrite Hmiss, Hd1, <- Hl, Z.eqb_refl, Nat.add_0_r by (rewrite <- Hl; exact Hnotin).
        reflexivity.
      * rewrite Nat.add_succ_r. apply Hhit; [lia|exact Hl].
    + intros Hn. rewrite Hmiss, Hd1 by (intros H'; apply Hn; right; exact H').
      destruct (Z.eqb_spec label (nth v labels_data 0%Z)) as [E|E];
        [|reflexivity].
      exfalso. apply Hn. left. exact E.
Qed.

Lemma sorted_NoDup (l : list Z) : StronglySorted Z.lt l -> List.NoDup l.
Proof.
  induction 1 as [|a l Hs IH Ha]; constructor; [|exact IH].
  rewrite List.Forall_forall in Ha. intros Hin. apply Ha in Hin. lia.
Qed.

Lemma Qsum_const (c : Q) (vals : list Q) :
  Forall (fun x => x == c) vals ->
  Qsum vals == inject_Z (Z.of_nat (length vals)) * c.
Proof.
  induction 1 as [|x vals Hx Hall IH].
  - simpl. ring.
  - change (Qsum (x :: vals)) with (x + Qsum vals).
    rewrite IH, Hx. simpl length. rewrite Nat2Z.inj_succ.
    unfold Z.succ. rewrite inject_Z_plus. ring.
Qed.

(** The mean on rationals. *)
Lemma mean_Q (vals : list Q) :
  mean vals = fold_left Qplus vals 0 / inject_Z (Z.of_nat (length vals)).
Proof. reflexivity. Qed.

Lemma fold_left_Qplus (vals : list Q) :
  forall a, fold_left Qplus vals a == a + Qsum vals.
Proof.
  induction vals as [|x vals IH]; intros a.
  - simpl. ring.
  - cbn [fold_left]. rewrite IH.
    change (Qsum (x :: vals)) with (x + Qsum vals). ring.
Qed.

(** In exact arithmetic, the mean of one or more copies of a value is that
    value. *)
Lemma mean_const (c : Q) (vals : list Q) :
  vals <> [] -> Forall (fun x => x == c) vals -> mean vals == c.
Proof.
  intros Hne Hall. rewrite mean_Q.
  assert (E : fold_left Qplus vals 0 == inject_Z (Z.of_nat (length vals)) * c).
  { rewrite fold_left_Qplus, (Qsum_const c vals Hall). ring. }
  rewrite E.
  field. destruct vals as [|x vals]; [congruence|].
  simpl length. rewrite Nat2Z.inj_succ. unfold Z.succ.
  rewrite inject_Z_plus.
  assert (0 <= inject_Z (Z.of_nat (length vals))).
  { change 0 with (inject_Z 0). rewrite <- Zle_Qle. lia. }
  change (inject_Z 1) with 1. lra.
Qed.

Lemma map_const {A B} (f : A -> B) (c : B) (l : list A) :
  (forall x, In x l -> f x = c) -> map f l = repeat c (length l).
Proof.
  induction l as [|x l IH]; intros Hc; [reflexivity|].
  simpl. rewrite (Hc x) by (left; reflexivity).
  rewrite IH by (intros y Hy; apply Hc; right; exact Hy). reflexivity.
Qed.

(** What [img_from_labels] returns when the mask passes its checks and the
    signals have a column for each label: a voxel carrying, once the mask is
    applied, the [n]-th label holds column [n] of the signals, a background
    voxel holds zeros. *)
Lemma img_from_labels_spec {R} `{Number R} dt
    (signals : ndarray (list (list R))) labels_img mask_img bg :
  wf_volume (get_data labels_img) ->
  mask_fits mask_img (get_shape labels_img) (get_affine labels_img) ->
  let labels := region_labels (masked_labels dt labels_img mask_img bg) bg in
  let n_scans := nth 0 (shape signals) 0%nat in
  (length labels <= nth 1 (shape signals) 0)%nat ->
  exists out,
    img_from_labels dt signals labels_img mask_img bg =
      Ok (Niimg (NdArray (get_shape labels_img ++ [n_scans]) out)
                (get_affine labels_img)) /\
    length out = n_voxels (get_shape labels_img) /\
    forall v, (v < n_voxels (get_shape labels_img))%nat ->
      let l := masked_label dt labels_img mask_img bg v in
      (forall n, (n < length labels)%nat -> nth n labels 0%Z = l ->
         nth v out [] = column num_zero (items signals) n) /\
      (l = bg -> nth v out [] = repeat num_zero n_scans).
Proof.
  intros Hwf Hm labels n_scans Hcols.
  pose proof Hwf as [H3 Hl].
  destruct (masked_labels_length dt labels_img mask_img bg _ _ Hwf eq_refl Hm)
    as [_ Hlen].
  set (sh := get_shape labels_img) in *.
  assert (Hsh : firstn 3 sh = sh) by (apply firstn_all2; unfold sh, get_shape; lia).
  destruct (fill_labels_spec signals
              (items (masked_labels dt labels_img mask_img bg)) labels 0
              (items (zeros4 num_zero (sh ++ [n_scans]))))
    as (out & Heq & Hlo & Hout).
  { apply sorted_NoDup, region_labels_sorted. }
  { simpl. rewrite repeat_length, n_voxels_app by exact H3. lia. }
  { simpl. exact Hcols. }
  simpl in Hlo. rewrite repeat_length, n_voxels_app in Hlo by exact H3.
  exists out. split; [|split; [exact Hlo|]].
  - unfold img_from_labels. fold sh. rewrite Hsh.
    rewrite (check_mask_fits _ _ _ _ _ Hm). simpl mbind.
    change (fill_labels signals
              (items (masked_labels dt labels_img mask_img bg)) labels 0
              (items (zeros4 num_zero (sh ++ [n_scans]))) ≫=
            (fun filled => Ok (Niimg (NdArray (sh ++ [n_scans]) filled)
                                     (get_affine labels_img))) =
            Ok (Niimg (NdArray (sh ++ [n_scans]) out) (get_affine labels_img))).
    rewrite Heq. reflexivity.
  - intros v Hv l. rewrite Hlen in Hout. destruct (Hout v Hv) as [Hhit Hmiss].
    rewrite (masked_labels_nth dt _ _ bg sh _ v Hwf eq_refl Hm Hv) in Hhit, Hmiss.
    fold l in Hhit, Hmiss. split.
    + intros n Hn Hnl. apply (Hhit n Hn Hnl).
    + intros Hbg. rewrite Hmiss.
      * simpl. rewrite n_voxels_app by exact H3.
        rewrite nth_repeat_lt by exact Hv.
        rewrite app_nth2 by (unfold sh, get_shape; lia).
        unfold sh, get_shape. rewrite H3. reflexivity.
      * rewrite Hbg. intros Hin. apply region_labels_In in Hin. tauto.
Qed.

(** The two operations in a row, on inputs that pass their checks: both
    return, and the image holds, on a voxel whose label once the mask is
    applied is not the background, the mean of the values of the voxels that
    carry that label, and zero on another voxel. *)
Lemma round_trip_means {R} `{Number R} dt (niimgs : niimg (stack R))
    labels_img mask_img bg :
  labels_fit niimgs labels_img mask_img ->
  mask_fits mask_img (get_shape labels_img) (get_affine labels_img) ->
  exists signals labels img,
    signals_from_labels dt niimgs labels_img mask_img bg = Ok (signals, labels) /\
    img_from_labels dt signals labels_img mask_img bg = Ok img /\
    get_shape img = get_shape niimgs /\
    length (items (get_data img)) = n_voxels (get_shape niimgs) /\
    forall v t,
      (v < n_voxels (get_shape niimgs))%nat ->
      (t < nth 3 (get_shape niimgs) 0)%nat ->
      let l := masked_label dt labels_img mask_img bg v in
      (l <> bg ->
       In v (region_voxels dt labels_img mask_img bg l) /\
       item (items (get_data img)) v t =
       mean (map (fun v' => item (items (get_data niimgs)) v' t)
                 (region_voxels dt labels_img mask_img bg l))) /\
      (l = bg -> item (items (get_data img)) v t = num_zero).
Proof.
  intros Hfit Hm'.
  rewrite (signals_from_labels_run dt _ _ _ bg Hfit).
  pose proof Hfit as ((H4 & Hlen & Hrows) & Hwf & Hs & Ha & Hm).
  set (labels_data := masked_labels dt labels_img mask_img bg) in *.
  set (labels := region_labels labels_data bg) in *.
  set (n_scans := nth 3 (get_shape niimgs) 0%nat) in *.
  set (signals := NdArray [n_scans; length labels] _).
  destruct (img_from_labels_spec dt signals labels_img mask_img bg Hwf Hm')
    as (out & Heq & Hlo & Hout).
  { simpl. fold labels_data labels. lia. }
  fold labels_data labels in Hout. simpl in Heq.
  assert (Hnv : n_voxels (get_shape labels_img) = n_voxels (get_shape niimgs)).
  { rewrite Hs. apply n_voxels_firstn. }
  exists signals, labels. eexists. split; [reflexivity|].
  split; [exact Heq|]. split; [|split; [simpl; lia|]].
  - unfold get_shape at 1. simpl. rewrite Hs. unfold n_scans, get_shape.
    clear - H4. destruct (shape (get_data niimgs)) as [|a [|b [|c [|d [|e sh]]]]];
      simpl in *; try discriminate; reflexivity.
  - intros v t Hv Ht l. simpl get_data. simpl items.
    rewrite <- Hnv in Hv. destruct (Hout v Hv) as [Hhit Hmiss].
    split.
    + intros Hne.
      assert (Hvox : In v (region_voxels dt labels_img mask_img bg l)).
      { apply region_voxels_In. split; [exact Hv|reflexivity]. }
      split; [exact Hvox|].
      assert (Hl : In l labels).
      { eapply region_labels_present; eauto. }
      apply (In_nth _ _ 0%Z) in Hl. destruct Hl as (n & Hn & Hnl).
      unfold item at 1. rewrite (Hhit n Hn Hnl).
      rewrite nth_column by (simpl; rewrite length_map, length_seq; exact Ht).
      rewrite <- Hnl.
      exact (signals_entry dt niimgs labels_img mask_img bg t n Hfit Ht Hn).
    + intros Hbg. unfold item. rewrite (Hmiss Hbg). simpl.
      apply nth_repeat_lt. exact Ht.
Qed.




(** In exact arithmetic, and when the dtype of the labels holds
    [background_label] as it is, the round trip of a stack that is constant
    on each region gives the stack back on the voxels inside the mask whose
    label is not the background, and zero elsewhere. *)
Lemma labels_round_trip_rational :
  forall (dt : dtype) (niimgs : niimg (stack Q)) (labels_img : niimg (volume Z))
         (mask_img : option (niimg (volume Z))) (background_label : Z),
    labels_fit niimgs labels_img mask_img ->
    mask_fits mask_img (get_shape labels_img) (get_affine labels_img) ->
    astype dt background_label = background_label ->
    constant_on_regions dt niimgs labels_img mask_img background_label ->
    exists signals labels img,
      signals_from_labels dt niimgs labels_img mask_img background_label =
        Ok (signals, labels) /\
      img_from_labels dt signals labels_img mask_img background_label = Ok img /\
      get_shape img = get_shape niimgs /\
      length (items (get_data img)) = n_voxels (get_shape niimgs) /\
      forall v t,
        (v < n_voxels (get_shape niimgs))%nat ->
        (t < nth 3 (get_shape niimgs) 0)%nat ->
        let l := nth v (items (get_data labels_img)) 0%Z in
        (in_mask mask_img v = true /\ l <> background_label ->
         entry (items (get_data img)) v t ==
         entry (items (get_data niimgs)) v t) /\
        (in_mask mask_img v = false \/ l = background_label ->
         entry (items (get_data img)) v t = 0).
Proof.
  intros dt niimgs labels_img mask_img bg Hfit Hm Hdt Hconst.
  destruct (round_trip_means dt niimgs labels_img mask_img bg Hfit Hm)
    as (signals & labels & img & Hs & Hi & Hsh & Hlen & Hv).
  exists signals, labels, img.
  split; [exact Hs|]. split; [exact Hi|]. split; [exact Hsh|].
  split; [exact Hlen|].
  intros v t Hlt Ht l. destruct (Hv v t Hlt Ht) as [Hin Hout].
  unfold masked_label in Hin, Hout. rewrite Hdt in Hin, Hout. fold l in Hin, Hout.
  split.
  - intros [Hmask Hne]. rewrite Hmask in Hin.
    destruct (Hin Hne) as [Hvox Hmean].
    change (entry (items (get_data img)) v t)
      with (item (items (get_data img)) v t).
    rewrite Hmean. apply mean_const.
    + intros E. apply map_eq_nil in E. rewrite E in Hvox. exact Hvox.
    + rewrite List.Forall_forall. intros x Hx. apply in_map_iff in Hx.
      destruct Hx as (v' & <- & Hv'). apply (Hconst l); auto.
  - intros Hbg. apply Hout.
    destruct Hbg as [-> | ->]; [reflexivity|].
    destruct (in_mask mask_img v); reflexivity.
Qed.

(** ** [_trim_maps] *)

Lemma Qsum_abs_nonneg (l : list Q) : 0 <= Qsum (map Qabs l).
Proof.
  induction l as [|x l IH]; simpl; [lra|].
  pose proof (Qabs_nonneg x). lra.
Qed.

Lemma Qabs_pos_nonzero (x : Q) : 0 < Qabs x <-> ~ x == 0.
Proof.
  split.
  - intros H E. rewrite E in H. discriminate.
  - intros H. pose proof (Qabs_nonneg x) as Hn.
    destruct (Qlt_le_dec 0 (Qabs x)) as [|Hle]; [assumption|].
    exfalso. apply H. assert (E : Qabs x == 0) by lra.
    revert E. apply Qabs_case; intros; lra.
Qed.

Lemma Qsum_abs_pos (l : list Q) :
  0 < Qsum (map Qabs l) <-> Exists (fun x => ~ x == 0) l.
Proof.
  induction l as [|x l IH]; simpl.
  - split; [intros H; lra|intros H; inversion H].
  - rewrite List.Exists_cons, <- IH, <- Qabs_pos_nonzero.
    pose proof (Qabs_nonneg x). pose proof (Qsum_abs_nonneg l).
    split; [|intros [|]; lra].
    intros Hs. destruct (Qlt_le_dec 0 (Qabs x)); [left; assumption|].
    right. lra.
Qed.

Lemma nth_list_insert {A} (l : list A) (p j : nat) (x d : A) :
  nth j (<[p := x]> l) d =
  if (j =? p)%nat && (p <? length l)%nat then x else nth j l d.
Proof.
  revert p j; induction l as [|a l IH]; intros [|p] [|j]; simpl; auto.
  rewrite andb_false_r. reflexivity.
Qed.

Lemma filter_seq_succ (f : nat -> bool) k :
  List.filter f (seq 0 (S k)) =
  List.filter f (seq 0 k) ++ (if f k then [k] else []).
Proof.
  rewrite seq_S, List.filter_app. reflexivity.
Qed.

Lemma filter_seq_length_mono (f : nat -> bool) k n :
  (k <= n)%nat ->
  (length (List.filter f (seq 0 k)) <= length (List.filter f (seq 0 n)))%nat.
Proof.
  induction 1 as [|n Hle IH]; [lia|].
  rewrite filter_seq_succ, length_app. lia.
Qed.

Lemma seq_sorted a n : StronglySorted lt (seq a n).
Proof.
  revert a; induction n as [|n IH]; intros a; simpl; constructor; [apply IH|].
  rewrite List.Forall_forall. intros x Hx. apply in_seq in Hx. lia.
Qed.

Lemma filter_sorted (f : nat -> bool) (l : list nat) :
  StronglySorted lt l -> StronglySorted lt (List.filter f l).
Proof.
  induction 1 as [|a l Hs IH Ha]; simpl; [constructor|].
  destruct (f a); [|exact IH]. constructor; [exact IH|].
  rewrite List.Forall_forall in *. intros x Hx.
  apply filter_In in Hx. apply Ha, Hx.
Qed.

Lemma filter_sublist (f : nat -> bool) (l : list nat) :
  sublist (List.filter f l) l.
Proof.
  induction l as [|a l IH]; simpl; [constructor|].
  destruct (f a); constructor; exact IH.
Qed.

Section TrimLoop.

Variables (maps : stack Q) (mask : list bool) (sums : list Q).
Variables (nvox n_regions n_maps : nat).
Hypothesis Hmaps : length maps = nvox.
Hypothesis Hmask : length mask = nvox.
Hypothesis Hsums : forall n, 0 <= nth n sums 0.
Hypothesis Hregions : n_regions = length (kept_below sums n_maps).

Lemma trim_inv_init :
  trim_inv maps mask sums nvox n_regions 0
           (repeat (repeat 0 n_regions) nvox, repeat 0%Z nvox, 0%nat).
Proof.
  unfold trim_inv. simpl.
  split; [reflexivity|]. split; [apply repeat_length|].
  split; [apply List.Forall_forall; intros row Hrow;
          apply repeat_spec in Hrow; subst; apply repeat_length|].
  split; [intros; lia|].
  split.
  { intros v j Hv _. unfold entry. rewrite nth_repeat_lt by exact Hv.
    destruct (Nat.lt_ge_cases j n_regions).
    - apply nth_repeat_lt; assumption.
    - apply nth_overflow. rewrite repeat_length. assumption. }
  split; [apply repeat_length|].
  intros v Hv. apply nth_repeat_lt. exact Hv.
Qed.

Lemma trim_inv_step k st :
  (k < n_maps)%nat ->
  trim_inv maps mask sums nvox n_regions k st ->
  trim_inv maps mask sums nvox n_regions (S k) (trim_step maps mask sums st k).
Proof.
  destruct st as [[T M] p]. intros Hk (Hp & HT & Hrows & Hkept & Hrest & HM & Hmark).
  unfold trim_step. unfold kept_below in *.
  destruct (Qeq_bool (nth k sums 0) 0) eqn:E.
  - (* the map is dropped *)
    assert (Hdrop : Qgtb (nth k sums 0) 0 = false).
    { apply Qgtb_le. apply Qeq_bool_eq in E. rewrite E. lra. }
    unfold trim_inv, kept_below. rewrite filter_seq_succ, Hdrop, app_nil_r.
    repeat split; assumption.
  - (* the map is kept *)
    assert (Hkeep : Qgtb (nth k sums 0) 0 = true).
    { apply Qgtb_lt. apply Qeq_bool_neq in E. specialize (Hsums k).
      destruct (Qlt_le_dec 0 (nth k sums 0)); [assumption|].
      exfalso. apply E. lra. }
    assert (Hpr : (p < n_regions)%nat).
    { rewrite Hregions, Hp.
      pose proof (filter_seq_length_mono (fun n => Qgtb (nth n sums 0) 0)
                    (S k) n_maps Hk) as Hle.
      rewrite filter_seq_succ, Hkeep, length_app in Hle. simpl in Hle.
      unfold kept_below. lia. }
    set (T' := copy_inside mask maps k T p).
    assert (HT' : length T' = nvox).
    { unfold T', copy_inside. rewrite length_map2, length_combine. lia. }
    assert (Hentry : forall v j, (v < nvox)%nat ->
              entry T' v j =
              if nth v mask false && (j =? p)%nat
              then entry maps v k else entry T v j).
    { intros v j Hv. unfold entry, T', copy_inside.
      rewrite (nth_map2 _ _ _ _ (false, []) [])
        by (rewrite ?length_combine; lia).
      rewrite combine_nth by lia. simpl.
      destruct (nth v mask false); simpl; [|reflexivity].
      rewrite nth_list_insert.
      assert (Hrow : length (nth v T []) = n_regions).
      { rewrite List.Forall_forall in Hrows. apply Hrows, nth_In. lia. }
      rewrite Hrow. destruct (Nat.ltb_spec p n_regions); [|lia].
      rewrite andb_true_r. reflexivity. }
    unfold trim_inv, kept_below. rewrite filter_seq_succ, Hkeep, length_app.
    simpl length. fold T'.
    split; [lia|]. split; [exact HT'|].
    split.
    { unfold T', copy_inside. clear - Hrows Hmaps Hmask HT.
      rewrite List.Forall_forall in *. intros row Hrow.
      apply (In_nth _ _ []) in Hrow. destruct Hrow as (v & Hv & <-).
      rewrite length_map2, length_combine in Hv.
      rewrite (nth_map2 _ _ _ _ (false, []) [])
        by (rewrite ?length_combine; lia).
      destruct (fst _); [rewrite length_insert|]; apply Hrows, nth_In; lia. }
    split.
    { intros v j Hv Hj. rewrite (Hentry v j Hv).
      destruct (Nat.eqb_spec j p) as [->|Hne].
      - rewrite andb_true_r, app_nth2 by lia.
        rewrite <- Hp, Nat.sub_diag. simpl.
        destruct (nth v mask false); [reflexivity|].
        apply Hrest; [exact Hv|lia].
      - rewrite andb_false_r, app_nth1 by lia. apply Hkept; [exact Hv|lia]. }
    split.
    { intros v j Hv Hj. rewrite (Hentry v j Hv).
      destruct (Nat.eqb_spec j p); [lia|].
      rewrite andb_false_r. apply Hrest; [exact Hv|lia]. }
    split.
    { unfold mark_positive. rewrite length_assign_where; [exact HM|].
      rewrite length_map, length_column. lia. }
    intros v Hv. unfold mark_positive.
    rewrite nth_assign_where by (rewrite ?length_map, ?length_column; lia).
    rewrite (nth_map_lt _ _ _ 0) by (rewrite length_column; lia).
    rewrite nth_column by lia. fold (entry T' v p).
    replace (p + 1)%nat with (S p) by lia.
    rewrite seq_S, existsb_app. simpl. rewrite orb_false_r.
    rewrite (Hmark v Hv).
    assert (Hsame : existsb (fun j => Qgtb (entry T' v j) 0) (seq 0 p) =
                    existsb (fun j => Qgtb (entry T v j) 0) (seq 0 p)).
    { clear - Hentry Hv. assert (Hlt : forall j, In j (seq 0 p) -> (j < p)%nat)
        by (intros j Hj; apply in_seq in Hj; lia).
      induction (seq 0 p) as [|j js IH]; simpl; [reflexivity|].
      rewrite IH by (intros; apply Hlt; right; assumption).
      rewrite (Hentry v j Hv).
      destruct (Nat.eqb_spec j p) as [->|_];
        [specialize (Hlt p (or_introl eq_refl)); lia|].
      rewrite andb_false_r. reflexivity. }
    rewrite Hsame. clear Hsame.
    destruct (Qgtb (entry T' v p) 0);
      destruct (existsb (fun j => Qgtb (entry T v j) 0) (seq 0 p));
      reflexivity.
Qed.

Lemma trim_inv_fold k :
  (k <= n_maps)%nat ->
  trim_inv maps mask sums nvox n_regions k
    (fold_left (trim_step maps mask sums) (seq 0 k)
               (repeat (repeat 0 n_regions) nvox, repeat 0%Z nvox, 0%nat)).
Proof.
  induction k as [|k IH]; intros Hk.
  - apply trim_inv_init.
  - rewrite seq_S, fold_left_app. simpl. apply trim_inv_step; [lia|].
    apply IH. lia.
Qed.

End TrimLoop.

Lemma map_nth_seq {A} (l : list A) (d : A) :
  map (fun n => nth n l d) (seq 0 (length l)) = l.
Proof.
  apply (list_eq_nth _ _ d); [rewrite length_map, length_seq; reflexivity|].
  intros i Hi. rewrite length_map, length_seq in Hi.
  exact (nth_map_seq (fun n => nth n l d) (length l) i d Hi).
Qed.

Lemma map_sums_length maps mask :
  length (map_sums maps mask) = List.last (shape maps) 0%nat.
Proof. unfold map_sums. rewrite length_map, length_seq. reflexivity. Qed.

Lemma map_sums_nonneg maps mask n : 0 <= nth n (map_sums maps mask) 0.
Proof.
  destruct (Nat.lt_ge_cases n (List.last (shape maps) 0%nat)) as [H|H].
  - unfold map_sums. rewrite (nth_map_seq _ _ _ _ H). apply Qsum_abs_nonneg.
  - rewrite nth_overflow by (rewrite map_sums_length; exact H). lra.
Qed.

(** A map is kept exactly when it has a non-zero weight inside the mask. *)
Lemma map_sums_positive maps mask n :
  maps_fit maps mask -> (n < nth 3 (shape maps) 0)%nat ->
  Qgtb (nth n (map_sums maps (as_bool (items mask))) 0) 0 =
  nonzero_inside maps mask n.
Proof.
  intros ((H4 & Hlen & Hrows) & (H3 & Hlm) & Hs) Hn.
  rewrite Hs, n_voxels_firstn in Hlm.
  unfold map_sums. rewrite (last_nth3 _ H4), (nth_map_seq _ _ _ _ Hn).
  apply eq_true_iff_eq. rewrite Qgtb_lt, Qsum_abs_pos.
  unfold nonzero_inside. rewrite existsb_exists, List.Exists_exists.
  rewrite (select_filter_seq []) by (unfold as_bool; rewrite length_map; lia).
  unfold column. rewrite map_map. split.
  - intros (w & Hin & Hw). apply in_map_iff in Hin.
    destruct Hin as (v & <- & Hv). apply filter_In in Hv.
    destruct Hv as [Hv Hm]. exists v. rewrite Hlen in Hv.
    split; [exact Hv|]. unfold inside. rewrite Hm. simpl.
    apply negb_true_iff, not_true_iff_false. intros E.
    apply Qeq_bool_eq in E. apply Hw, E.
  - intros (v & Hv & Hc). apply andb_true_iff in Hc. destruct Hc as [Hm Hc].
    exists (entry (items maps) v n). split.
    + apply in_map_iff. exists v. split; [reflexivity|].
      apply filter_In. rewrite Hlen. split; [exact Hv|exact Hm].
    + intros E. apply Qeq_eq_bool in E. rewrite E in Hc. discriminate.
Qed.

(** What [_trim_maps] returns, in terms of its inputs. *)
Lemma trim_maps_spec maps mask :
  maps_fit maps mask ->
  let nvox := n_voxels (shape maps) in
  let n_maps := nth 3 (shape maps) 0%nat in
  let '(trimmed_maps, maps_mask, indices) := _trim_maps maps mask in
  indices = List.filter (nonzero_inside maps mask) (seq 0 n_maps) /\
  shape trimmed_maps = firstn 3 (shape maps) ++ [length indices] /\
  length (items trimmed_maps) = nvox /\
  Forall (fun row => length row = length indices) (items trimmed_maps) /\
  (forall v j, (v < nvox)%nat -> (j < length indices)%nat ->
     entry (items trimmed_maps) v j =
     if inside mask v then entry (items maps) v (nth j indices 0%nat) else 0) /\
  shape maps_mask = shape mask /\
  length (items maps_mask) = nvox /\
  (forall v, (v < nvox)%nat ->
     nth v (items maps_mask) 0%Z =
     if existsb (fun j => Qgtb (entry (items trimmed_maps) v j) 0)
                (seq 0 (length indices))
     then 1%Z else 0%Z).
Proof.
  intros Hfit nvox n_maps.
  pose proof Hfit as ((H4 & Hlen & Hrows) & (H3 & Hlm) & Hs).
  unfold _trim_maps.
  set (sums := map_sums maps (as_bool (items mask))).
  assert (Hsl : length sums = n_maps).
  { unfold sums. rewrite map_sums_length. apply last_nth3, H4. }
  assert (Hkept : List.filter (fun n => Qgtb (nth n sums 0) 0) (seq 0 n_maps) =
                  List.filter (nonzero_inside maps mask) (seq 0 n_maps)).
  { apply filter_ext_seq. intros n Hn. apply map_sums_positive; assumption. }
  assert (Hcount : length (List.filter (fun s => Qgtb s 0) sums) =
                   length (kept_below sums n_maps)).
  { unfold kept_below. rewrite <- Hsl. clear.
    rewrite <- (map_nth_seq sums 0) at 1.
    rewrite filter_map_comm, length_map. reflexivity. }
  set (n_regions := length (List.filter (fun s => Qgtb s 0) sums)) in *.
  rewrite (last_nth3 _ H4). fold n_maps.
  assert (H3' : length (firstn 3 (shape maps)) = 3%nat)
    by (rewrite length_firstn; lia).
  pose proof (trim_inv_fold (items maps) (as_bool (items mask)) sums
                nvox n_regions n_maps Hlen) as Hinv.
  simpl items. rewrite n_voxels_app, n_voxels_firstn by exact H3'.
  rewrite app_nth2, H3' by lia. simpl nth.
  rewrite Hs, n_voxels_firstn. fold nvox.
  destruct (fold_left _ _ _) as [[T M] p] eqn:Efold.
  rewrite Hsl, Hkept.
  assert (Hlb : length (as_bool (items mask)) = nvox).
  { unfold as_bool. rewrite length_map.
    rewrite Hs, n_voxels_firstn in Hlm. exact Hlm. }
  specialize (Hinv Hlb (map_sums_nonneg _ _) Hcount n_maps (Nat.le_refl _)).
  rewrite Efold in Hinv.
  destruct Hinv as (Hp & HT & HTrows & Hin & _ & HM & Hmark).
  unfold kept_below in *. rewrite Hkept in *. rewrite Hcount in *.
  simpl shape. simpl items.
  split; [reflexivity|]. split; [reflexivity|]. split; [exact HT|].
  split; [exact HTrows|]. rewrite <- Hp.
  split; [|split; [reflexivity|split; [exact HM|exact Hmark]]].
  intros v j Hv Hj. apply Hin; assumption.
Qed.

(** C4, as the code has it.  On a stack of maps and a mask of its spatial
    shape, [_trim_maps] returns as many maps as there are input maps with at
    least one non-zero weight (positive or negative) on a voxel inside the
    mask; the indices it returns are those of these maps, strictly
    increasing, a subsequence of [range(n_maps)], and as many as the maps
    returned. *)
Theorem trim_maps_kept :
  forall (maps : ndarray (stack Q)) (mask : ndarray (volume Z)),
    maps_fit maps mask ->
    let n_maps := nth 3 (shape maps) 0%nat in
    let '(trimmed_maps, _, indices) := _trim_maps maps mask in
    List.last (shape trimmed_maps) 0%nat =
      length (List.filter (nonzero_inside maps mask) (seq 0 n_maps)) /\
    wf_stack trimmed_maps /\
    indices = List.filter (nonzero_inside maps mask) (seq 0 n_maps) /\
    StronglySorted lt indices /\
    sublist indices (seq 0 n_maps) /\
    length indices = List.last (shape trimmed_maps) 0%nat.
Proof.
  intros maps mask Hfit n_maps.
  pose proof (trim_maps_spec maps mask Hfit) as Hspec. cbv zeta in Hspec.
  fold n_maps in Hspec.
  destruct (_trim_maps maps mask) as [[trimmed union] indices].
  destruct Hspec as (Hidx & Hsh & Hlen & Hrows & _).
  destruct Hfit as ((H4 & _) & _).
  assert (H3 : length (firstn 3 (shape maps)) = 3%nat)
    by (rewrite length_firstn; lia).
  assert (Hlast : List.last (shape trimmed) 0%nat = length indices).
  { rewrite Hsh. apply last_last. }
  split; [rewrite Hlast, Hidx; reflexivity|].
  split; [|split; [exact Hidx|]].
  - split; [rewrite Hsh, length_app, H3; reflexivity|].
    rewrite Hsh, n_voxels_app, n_voxels_firstn by exact H3.
    split; [exact Hlen|]. rewrite app_nth2, H3 by lia. exact Hrows.
  - rewrite Hidx at 1 2.
    split; [apply filter_sorted, seq_sorted|].
    split; [apply filter_sublist|]. symmetry. exact Hlast.
Qed.

Lemma trim_maps_kept_witness :
  let maps := NdArray [2; 2; 1; 3]%nat [[1; 0; 0]; [-1; 0; 2]; [5; 0; 6]; [0; 0; -7]] in
  let mask := NdArray [2; 2; 1]%nat [1; 1; 0; 1]%Z in
  let '(trimmed_maps, _, indices) := _trim_maps maps mask in
  List.last (shape trimmed_maps) 0%nat =
    length (List.filter (nonzero_inside maps mask) (seq 0 3)) /\
  wf_stack trimmed_maps /\
  indices = List.filter (nonzero_inside maps mask) (seq 0 3) /\
  StronglySorted lt indices /\
  sublist indices (seq 0 3) /\
  length indices = List.last (shape trimmed_maps) 0%nat.
Proof.
  intros maps mask.
  refine (trim_maps_kept maps mask _).
  split; [|split; [split; reflexivity|reflexivity]].
  split; [reflexivity|]. split; [reflexivity|]. repeat constructor.
Defined.

(** C4 as stated fails: a map whose only weight inside the mask is negative
    is kept, although it has no strictly positive weight there. *)
Lemma trim_maps_keeps_negative_map :
  let maps := NdArray [1; 1; 1; 1]%nat [[-1]] in
  let mask := NdArray [1; 1; 1]%nat [1%Z] in
  maps_fit maps mask /\
  List.last (shape (fst (fst (_trim_maps maps mask)))) 0%nat = 1%nat /\
  length (List.filter (positive_inside maps mask) (seq 0 1)) = 0%nat /\
  ~ (List.last (shape (fst (fst (_trim_maps maps mask)))) 0%nat =
     length (List.filter (positive_inside maps mask)
                         (seq 0 (nth 3 (shape maps) 0%nat)))).
Proof.
  intros maps mask.
  split; [|split; [reflexivity|split; [reflexivity|discriminate]]].
  split; [|split; [split; reflexivity|reflexivity]].
  split; [reflexivity|]. split; [reflexivity|]. repeat constructor.
Qed.

(** C5. In the mask returned by [_trim_maps] a voxel holds [1] when some map
    returned has a strictly positive weight on it, and [0] otherwise; so a
    voxel on which the maps returned hold only negative or zero weights is
    not set. *)
Theorem trim_maps_union_mask :
  forall (maps : ndarray (stack Q)) (mask : ndarray (volume Z)),
    maps_fit maps mask ->
    let '(trimmed_maps, maps_mask, _) := _trim_maps maps mask in
    let n_regions := List.last (shape trimmed_maps) 0%nat in
    length (items maps_mask) = n_voxels (shape maps) /\
    forall v, (v < n_voxels (shape maps))%nat ->
      (nth v (items maps_mask) 0%Z = 1%Z <->
       exists p, (p < n_regions)%nat /\ 0 < entry (items trimmed_maps) v p) /\
      (nth v (items maps_mask) 0%Z = 0%Z <->
       forall p, (p < n_regions)%nat -> entry (items trimmed_maps) v p <= 0).
Proof.
  intros maps mask Hfit.
  pose proof (trim_maps_spec maps mask Hfit) as Hspec. cbv zeta in Hspec.
  destruct (_trim_maps maps mask) as [[trimmed union] indices].
  destruct Hspec as (_ & Hsh & _ & _ & _ & _ & Hlen & Hmark).
  cbv zeta. rewrite Hsh, last_last.
  split; [exact Hlen|]. intros v Hv. rewrite (Hmark v Hv).
  destruct (existsb _ _) eqn:E.
  - apply existsb_exists in E. destruct E as (p & Hp & Hpos).
    apply in_seq in Hp. apply Qgtb_lt in Hpos.
    split; split; try discriminate; auto.
    + intros _. exists p. split; [lia|exact Hpos].
    + intros Hall. specialize (Hall p ltac:(lia)). lra.
  - split; split; try discriminate; auto.
    + intros (p & Hp & Hpos). exfalso.
      apply not_true_iff_false in E. apply E. apply existsb_exists.
      exists p. split; [apply in_seq; lia|apply Qgtb_lt; exact Hpos].
    + intros _ p Hp. apply Qgtb_le.
      apply not_true_iff_false. intros Hpos.
      apply not_true_iff_false in E. apply E. apply existsb_exists.
      exists p. split; [apply in_seq; lia|exact Hpos].
Qed.

Lemma trim_maps_union_mask_witness :
  let maps := NdArray [2; 2; 1; 3]%nat [[1; 0; 0]; [-1; 0; 2]; [5; 0; 6]; [0; 0; -7]] in
  let mask := NdArray [2; 2; 1]%nat [1; 1; 0; 1]%Z in
  let '(trimmed_maps, maps_mask, _) := _trim_maps maps mask in
  let n_regions := List.last (shape trimmed_maps) 0%nat in
  length (items maps_mask) = n_voxels (shape maps) /\
  forall v, (v < n_voxels (shape maps))%nat ->
    (nth v (items maps_mask) 0%Z = 1%Z <->
     exists p, (p < n_regions)%nat /\ 0 < entry (items trimmed_maps) v p) /\
    (nth v (items maps_mask) 0%Z = 0%Z <->
     forall p, (p < n_regions)%nat -> entry (items trimmed_maps) v p <= 0).
Proof.
  intros maps mask.
  refine (trim_maps_union_mask maps mask _).
  split; [|split; [split; reflexivity|reflexivity]].
  split; [reflexivity|]. split; [reflexivity|]. repeat constructor.
Defined.

(** ** [signals_from_maps] *)

(** The mask returned by [_trim_maps] marks the support. *)
Lemma trim_maps_support maps mask v :
  maps_fit maps mask -> (v < n_voxels (shape maps))%nat ->
  nth v (as_bool (items (snd (fst (_trim_maps maps mask))))) false =
  in_support maps mask v.
Proof.
  intros Hfit Hv.
  pose proof (trim_maps_spec maps mask Hfit) as Hspec. cbv zeta in Hspec.
  destruct (_trim_maps maps mask) as [[trimmed union] indices].
  destruct Hspec as (Hidx & _ & _ & _ & Hentry & _ & Hlen & Hmark).
  simpl. unfold as_bool. rewrite (nth_map_lt _ _ _ 0%Z) by lia.
  rewrite (Hmark v Hv). unfold in_support.
  set (n_maps := nth 3 (shape maps) 0%nat) in *.
  apply eq_true_iff_eq.
  transitivity (existsb (fun j => Qgtb (entry (items trimmed) v j) 0)
                        (seq 0 (length indices)) = true).
  { destruct (existsb _ _); simpl; split; auto; discriminate. }
  rewrite andb_true_iff, !existsb_exists. split.
  - intros (j & Hj & Hpos). apply in_seq in Hj.
    rewrite (Hentry v j Hv) in Hpos by lia.
    destruct (inside mask v); [|discriminate Hpos].
    split; [reflexivity|]. exists (nth j indices 0%nat). split; [|exact Hpos].
    assert (Hin : In (nth j indices 0%nat) indices) by (apply nth_In; lia).
    rewrite Hidx in Hin at 2. apply filter_In in Hin. apply Hin.
  - intros (Hm & n & Hn & Hpos).
    assert (Hin : In n indices).
    { rewrite Hidx. apply filter_In. split; [exact Hn|].
      unfold nonzero_inside. apply existsb_exists. exists v.
      split; [apply in_seq; lia|]. rewrite Hm. simpl.
      apply negb_true_iff, not_true_iff_false. intros E.
      apply Qeq_bool_eq in E. apply Qgtb_lt in Hpos. rewrite E in Hpos.
      discriminate. }
    apply (In_nth _ _ 0%nat) in Hin. destruct Hin as (j & Hj & Hnj).
    exists j. split; [apply in_seq; lia|].
    rewrite (Hentry v j Hv Hj), Hm, Hnj. exact Hpos.
Qed.

Lemma select_rows_at (cond : list bool) (f : nat -> bool) (a : ndarray (stack Q)) :
  length cond = length (items a) ->
  (forall v, (v < length (items a))%nat -> nth v cond false = f v) ->
  select_rows cond a = rows_at (List.filter f (seq 0 (length (items a)))) a.
Proof.
  intros Hl Hf. unfold select_rows, rows_at.
  rewrite (select_filter_seq []) by exact Hl.
  rewrite (filter_ext_seq _ f _ Hf), length_map. reflexivity.
Qed.

(** What [signals_from_maps] returns with a mask, on inputs that pass its
    checks. *)
Lemma signals_from_maps_run lstsq niimgs maps_img mask_img :
  maps_call_fit niimgs maps_img mask_img ->
  let maps := get_data maps_img in
  let mask := get_data mask_img in
  let support := support_voxels maps mask in
  signals_from_maps lstsq niimgs maps_img (Some mask_img) =
    Ok (transpose (lstsq (rows_at support (fst (fst (_trim_maps maps mask))))
                         (rows_at support (get_data niimgs)))).
Proof.
  intros (Hd & Hmaps & Hs & Ha & Hm) maps mask support.
  destruct (Hm mask_img eq_refl) as (Hwm & Hsm & Ham).
  assert (Hfit : maps_fit maps mask).
  { split; [exact Hmaps|]. split; [exact Hwm|].
    unfold mask, maps. unfold get_shape in *. congruence. }
  unfold signals_from_maps.
  rewrite (shape_eqb_eq _ _ Hs), Ha, (check_mask_fits _ _ _ _ _ Hm).
  simpl negb. cbv iota. simpl mbind. fold maps mask.
  pose proof (trim_maps_spec maps mask Hfit) as Hspec. cbv zeta in Hspec.
  pose proof (fun v => trim_maps_support maps mask v Hfit) as Hsup.
  destruct (_trim_maps maps mask) as [[trimmed union] indices].
  destruct Hspec as (_ & _ & Hlt & _ & _ & _ & Hlu & _).
  simpl in Hsup. simpl fst.
  destruct Hmaps as (_ & Hlmaps & _). destruct Hd as (_ & Hld & _).
  assert (Hnv : n_voxels (shape (get_data niimgs)) = n_voxels (shape maps)).
  { unfold get_shape in Hs. rewrite <- (n_voxels_firstn (shape (get_data niimgs))).
    rewrite <- Hs. apply n_voxels_firstn. }
  f_equal. f_equal. f_equal.
  - rewrite (select_rows_at _ (in_support maps mask))
      by (unfold as_bool; rewrite ?length_map; try lia;
          intros v Hv; apply Hsup; lia).
    unfold support, support_voxels. rewrite Hlt. reflexivity.
  - rewrite (select_rows_at _ (in_support maps mask))
      by (unfold as_bool; rewrite ?length_map; try lia;
          intros v Hv; apply Hsup; lia).
    unfold support, support_voxels. rewrite Hld, Hnv. reflexivity.
Qed.

Lemma support_voxels_In maps mask v :
  In v (support_voxels maps mask) <->
  (v < n_voxels (shape maps))%nat /\
  inside mask v = true /\
  exists n, (n < nth 3 (shape maps) 0)%nat /\ 0 < entry (items maps) v n.
Proof.
  unfold support_voxels, in_support.
  rewrite filter_In, in_seq, andb_true_iff, existsb_exists.
  split.
  - intros (Hv & Hm & n & Hn & Hpos). apply in_seq in Hn.
    split; [lia|]. split; [exact Hm|]. exists n.
    split; [lia|apply Qgtb_lt; exact Hpos].
  - intros (Hv & Hm & n & Hn & Hpos).
    split; [lia|]. split; [exact Hm|]. exists n.
    split; [apply in_seq; lia|apply Qgtb_lt; exact Hpos].
Qed.

Lemma map_ext_in_rows (voxels : list nat) (a b : list (list Q)) :
  (forall u, In u voxels -> nth u a [] = nth u b []) ->
  map (fun v => nth v a []) voxels = map (fun v => nth v b []) voxels.
Proof. intros H. apply map_ext_in. exact H. Qed.

(** C6. With a mask, on inputs that pass its checks, [signals_from_maps]
    hands to the least-squares solver the rows of the trimmed maps and of
    the images at the voxels of the support only: the voxels set in the mask
    returned by [_trim_maps], which are the voxels inside the given mask
    on which some map is strictly positive.  A voxel inside the mask on which
    every map is negative or zero is not among them; its values in the
    images do not change the result, and neither do its weights, as long
    as they stay negative or zero and the same maps are kept. *)
Theorem signals_from_maps_support :
  forall (lstsq : ndarray matrix -> ndarray matrix -> ndarray matrix)
         (niimgs maps_img : niimg (stack Q)) (mask_img : niimg (volume Z)),
    maps_call_fit niimgs maps_img mask_img ->
    let maps := get_data maps_img in
    let mask := get_data mask_img in
    let support := support_voxels maps mask in
    let run := signals_from_maps lstsq niimgs maps_img (Some mask_img) in
    run = Ok (transpose (lstsq (rows_at support (fst (fst (_trim_maps maps mask))))
                               (rows_at support (get_data niimgs)))) /\
    (forall v, In v support <->
       (v < n_voxels (shape maps))%nat /\
       nth v (as_bool (items (snd (fst (_trim_maps maps mask))))) false = true) /\
    (forall v, In v support <->
       (v < n_voxels (shape maps))%nat /\ inside mask v = true /\
       exists n, (n < nth 3 (shape maps) 0)%nat /\ 0 < entry (items maps) v n) /\
    (forall v, inside mask v = true ->
       (forall n, (n < nth 3 (shape maps) 0)%nat -> entry (items maps) v n <= 0) ->
       ~ In v support) /\
    (forall niimgs',
       maps_call_fit niimgs' maps_img mask_img ->
       List.last (get_shape niimgs') 0%nat = List.last (get_shape niimgs) 0%nat ->
       (forall u, In u support ->
          nth u (items (get_data niimgs')) [] = nth u (items (get_data niimgs)) []) ->
       signals_from_maps lstsq niimgs' maps_img (Some mask_img) = run) /\
    (forall maps_img',
       maps_call_fit niimgs maps_img' mask_img ->
       get_shape maps_img' = get_shape maps_img ->
       (forall n, (n < nth 3 (shape maps) 0)%nat ->
          nonzero_inside (get_data maps_img') mask n = nonzero_inside maps mask n) ->
       (forall u, In u support ->
          nth u (items (get_data maps_img')) [] = nth u (items maps) []) ->
       (forall u n, ~ In u support -> inside mask u = true ->
          entry (items (get_data maps_img')) u n <= 0) ->
       signals_from_maps lstsq niimgs maps_img' (Some mask_img) = run).
Proof.
  intros lstsq niimgs maps_img mask_img Hfit maps mask support run.
  assert (Hrun : run = Ok (transpose
            (lstsq (rows_at support (fst (fst (_trim_maps maps mask))))
                   (rows_at support (get_data niimgs))))).
  { apply signals_from_maps_run. exact Hfit. }
  split; [exact Hrun|].
  split.
  { assert (Hmf : maps_fit maps mask).
    { destruct Hfit as (_ & Hw & Hs & _ & Hm).
      destruct (Hm mask_img eq_refl) as (Hwm & Hsm & _).
      unfold get_shape in *.
      split; [assumption|split; [assumption|]]. unfold mask, maps. congruence. }
    intros v. unfold support, support_voxels. rewrite filter_In, in_seq.
    split.
    - intros [Hv Hin]. split; [lia|].
      rewrite (trim_maps_support maps mask v Hmf) by lia. exact Hin.
    - intros [Hv Hin]. split; [lia|].
      rewrite (trim_maps_support maps mask v Hmf Hv) in Hin. exact Hin. }
  split; [intros v; apply support_voxels_In|].
  split.
  { intros v Hm Hall Hin. apply support_voxels_In in Hin.
    destruct Hin as (_ & _ & n & Hn & Hpos). specialize (Hall n Hn). lra. }
  split.
  - intros niimgs' Hfit' Hlast Hrows.
    rewrite Hrun, (signals_from_maps_run lstsq niimgs' maps_img mask_img Hfit').
    fold maps mask support. unfold rows_at at 2 4.
    unfold get_shape in Hlast. rewrite Hlast.
    rewrite (map_ext_in_rows support _ _ Hrows). reflexivity.
  - intros maps_img' Hfit' Hshape Hkeep Hrows Hneg.
    rewrite Hrun, (signals_from_maps_run lstsq niimgs maps_img' mask_img Hfit').
    set (maps' := get_data maps_img').
    assert (Hsh : shape maps' = shape maps) by exact Hshape.
    assert (Hmf : maps_fit maps mask /\ maps_fit maps' mask).
    { destruct Hfit as (_ & Hw & Hs & _ & Hm), Hfit' as (_ & Hw' & Hs' & _ & _).
      destruct (Hm mask_img eq_refl) as (Hwm & Hsm & _).
      unfold get_shape in *.
      split; (split; [assumption|split; [assumption|]]); unfold mask, maps', maps;
        congruence. }
    destruct Hmf as [Hmf Hmf'].
    assert (Hsupp : support_voxels maps' mask = support).
    { unfold support, support_voxels. rewrite Hsh. apply filter_ext_seq.
      intros v Hv. destruct (in_support maps mask v) eqn:E.
      - assert (Hin : In v support).
        { apply filter_In. split; [apply in_seq; lia|exact E]. }
        unfold in_support in *. rewrite Hsh. unfold entry in *.
        unfold maps'. rewrite (Hrows v Hin). exact E.
      - assert (Hnin : ~ In v support).
        { intros Hin. apply filter_In in Hin. destruct Hin as [_ Hin].
          congruence. }
        unfold in_support. destruct (inside mask v) eqn:Em; [|reflexivity].
        simpl. apply not_true_iff_false. intros Hex.
        apply existsb_exists in Hex. destruct Hex as (n & _ & Hpos).
        apply Qgtb_lt in Hpos. specialize (Hneg v n Hnin Em).
        fold maps' in Hneg. lra. }
    fold mask. rewrite Hsupp.
    pose proof (trim_maps_spec maps mask Hmf) as Hspec.
    pose proof (trim_maps_spec maps' mask Hmf') as Hspec'.
    cbv zeta in Hspec, Hspec'. rewrite Hsh in Hspec'.
    destruct (_trim_maps maps mask) as [[trimmed union] indices].
    destruct (_trim_maps maps' mask) as [[trimmed' union'] indices'].
    destruct Hspec as (Hidx & Hts & Hlt & Htr & Hent & _).
    destruct Hspec' as (Hidx' & Hts' & Hlt' & Htr' & Hent' & _).
    assert (Hii : indices' = indices).
    { rewrite Hidx, Hidx'. apply filter_ext_seq. exact Hkeep. }
    rewrite Hii in *. clear Hii indices'. simpl fst.
    unfold rows_at. rewrite Hts, Hts'.
    assert (Heq : map (fun v => nth v (items trimmed') []) support =
                  map (fun v => nth v (items trimmed) []) support);
      [|rewrite Heq; reflexivity].
    apply map_ext_in. intros u Hu.
    assert (Hun : (u < n_voxels (shape maps))%nat).
    { apply support_voxels_In in Hu. apply Hu. }
    rewrite List.Forall_forall in Htr, Htr'.
    apply (list_eq_nth _ _ 0).
    + rewrite (Htr (nth u (items trimmed) [])) by (apply nth_In; lia).
      rewrite (Htr' (nth u (items trimmed') [])) by (apply nth_In; lia).
      reflexivity.
    + intros j Hj.
      rewrite (Htr' (nth u (items trimmed') [])) in Hj by (apply nth_In; lia).
      change (entry (items trimmed') u j = entry (items trimmed) u j).
      rewrite (Hent u j Hun Hj), (Hent' u j Hun Hj).
      unfold entry, maps'. rewrite (Hrows u Hu). reflexivity.
Qed.

Lemma signals_from_maps_support_witness :
  let aff := repeat 1 16 in
  let lstsq := fun a b : ndarray matrix => NdArray [2; 1]%nat [[1]; [2]] in
  let niimgs := Niimg (NdArray [2; 2; 1; 1]%nat [[1]; [3]; [5]; [7]]) aff in
  let maps_img :=
    Niimg (NdArray [2; 2; 1; 3]%nat [[1; 0; 0]; [-1; 0; 2]; [5; 0; 6]; [0; 0; -7]]) aff in
  let mask_img := Niimg (NdArray [2; 2; 1]%nat [1; 1; 0; 1]%Z) aff in
  signals_from_maps lstsq niimgs maps_img (Some mask_img) =
    Ok (transpose (lstsq (rows_at [0; 1]%nat (fst (fst (_trim_maps (get_data maps_img)
                                                         (get_data mask_img)))))
                         (rows_at [0; 1]%nat (get_data niimgs)))) /\
  ~ In 3%nat (support_voxels (get_data maps_img) (get_data mask_img)).
Proof.
  intros aff lstsq niimgs maps_img mask_img.
  assert (Hfit : maps_call_fit niimgs maps_img mask_img).
  { split; [|split; [|split; [|split]]].
    - split; [reflexivity|]. split; [reflexivity|]. repeat constructor.
    - split; [reflexivity|]. split; [reflexivity|]. repeat constructor.
    - reflexivity.
    - reflexivity.
    - intros m Hm. injection Hm as <-.
      split; [split; reflexivity|]. split; reflexivity. }
  destruct (signals_from_maps_support lstsq niimgs maps_img mask_img Hfit)
    as (Hrun & _ & _ & Hout & _).
  split; [exact Hrun|].
  apply Hout; [reflexivity|].
  intros n Hn. change (n < 3)%nat in Hn.
  destruct n as [|[|[|n]]]; try lia; unfold entry; simpl; discriminate.
Defined.

(** ** The store: which arrays an operation writes to *)

Section Frame.

Import Heap.

Variable h0 : gmap nat array.

Lemma run_bind {A B} (m : M A) (k : A -> M B) (h : gmap nat array) :
  (m ≫= k) h =
  match m h with
  | (Ok a, h') => k a h'
  | (Raise e, h') => (Raise e, h')
  end.
Proof. reflexivity. Qed.

Lemma frame_ret {A} (a : A) (P : A -> Prop) : P a -> frame h0 (mret a) P.
Proof. intros HP h Hh. split; [exact Hh|]. intros a' [= <-]. exact HP. Qed.

Lemma frame_raise {A} (e : exn) (P : A -> Prop) : frame h0 (raise e) P.
Proof. intros h Hh. split; [exact Hh|]. intros a' [=]. Qed.

Lemma frame_bind {A B} (m : M A) (k : A -> M B) (P : A -> Prop) (Q : B -> Prop) :
  frame h0 m P -> (forall a, P a -> frame h0 (k a) Q) -> frame h0 (m ≫= k) Q.
Proof.
  intros Hm Hk h Hh. rewrite run_bind.
  destruct (Hm h Hh) as [Hsub Hpost].
  destruct (m h) as [[a|e] h']; simpl in *.
  - apply (Hk a (Hpost a eq_refl) h' Hsub).
  - split; [exact Hsub|]. intros b [=].
Qed.

Lemma frame_weaken {A} (m : M A) (P Q : A -> Prop) :
  frame h0 m P -> (forall a, P a -> Q a) -> frame h0 m Q.
Proof.
  intros Hm HPQ h Hh. destruct (Hm h Hh) as [Hsub Hpost].
  split; [exact Hsub|]. intros a Ha. apply HPQ, Hpost, Ha.
Qed.

Lemma frame_read (l : nat) : frame h0 (read l) (fun _ => True).
Proof.
  intros h Hh. unfold read. destruct (h !! l); simpl; auto.
Qed.

Lemma frame_read_int (l : nat) : frame h0 (read_int l) (fun _ => True).
Proof.
  unfold read_int. eapply frame_bind; [apply frame_read|].
  intros [a|a|a] _; try apply frame_raise. apply frame_ret. exact I.
Qed.

Lemma frame_read_real (l : nat) : frame h0 (read_real l) (fun _ => True).
Proof.
  unfold read_real. eapply frame_bind; [apply frame_read|].
  intros [a|a|a] _; try apply frame_raise. apply frame_ret. exact I.
Qed.

(** A new object is none of those of the initial store. *)
Lemma frame_alloc (a : array) : frame h0 (alloc a) (fun l => h0 !! l = None).
Proof.
  intros h Hh. unfold alloc. simpl.
  assert (Hfresh : h !! fresh (dom h) = None).
  { apply not_elem_of_dom, is_fresh. }
  assert (Hnew : h0 !! fresh (dom h) = None).
  { eapply lookup_weaken_None; eauto. }
  split; [apply insert_subseteq_r; assumption|].
  intros l [= <-]. exact Hnew.
Qed.

Lemma frame_copy (l : nat) : frame h0 (copy l) (fun l' => h0 !! l' = None).
Proof.
  unfold copy. eapply frame_bind; [apply frame_read|].
  intros a _. apply frame_alloc.
Qed.

(** Writing to an object that is not of the initial store leaves the
    initial store as it is. *)
Lemma frame_write (l : nat) (a : array) :
  h0 !! l = None -> frame h0 (write l a) (fun _ => True).
Proof.
  intros Hl h Hh. unfold write. simpl.
  split; [apply insert_subseteq_r; assumption|auto].
Qed.

Lemma frame_for_each {A S} (xs : list A) (body : A -> S -> M S) (Inv : S -> Prop) :
  (forall x s, Inv s -> frame h0 (body x s) Inv) ->
  forall s, Inv s -> frame h0 (for_each xs body s) Inv.
Proof.
  intros Hbody. induction xs as [|x xs IH]; intros s Hs; simpl.
  - apply frame_ret. exact Hs.
  - eapply frame_bind; [apply Hbody; exact Hs|]. intros s' Hs'. apply IH, Hs'.
Qed.

Lemma frame_setitem_where dt l cond x :
  h0 !! l = None -> frame h0 (setitem_where dt l cond x) (fun _ => True).
Proof.
  intros Hl. unfold setitem_where.
  eapply frame_bind; [apply frame_read_int|]. intros a _.
  apply frame_write, Hl.
Qed.

Lemma frame_setitem_row l n row :
  h0 !! l = None -> frame h0 (setitem_row l n row) (fun _ => True).
Proof.
  intros Hl. unfold setitem_row.
  eapply frame_bind; [apply frame_read_real|]. intros a _.
  apply frame_write, Hl.
Qed.

Lemma frame_setitem_label l labels_data label signals n :
  h0 !! l = None ->
  frame h0 (setitem_label l labels_data label signals n) (fun _ => True).
Proof.
  intros Hl. unfold setitem_label. destruct (_ <? _)%nat; [|apply frame_raise].
  eapply frame_bind; [apply frame_read_real|]. intros a _.
  apply frame_write, Hl.
Qed.

Lemma frame_check_mask mask_img sh aff msg msg' :
  frame h0 (Heap.check_mask mask_img sh aff msg msg') (fun _ => True).
Proof.
  unfold Heap.check_mask. destruct mask_img as [m|]; [|apply frame_ret; exact I].
  eapply frame_bind; [apply frame_read_int|]. intros a _.
  destruct (negb _); [apply frame_raise|].
  destruct (affine_mismatch _ _); [apply frame_raise|apply frame_ret; exact I].
Qed.

(** The only write of the label block goes to the copy. *)
Lemma frame_masked_labels dt labels_img mask_img bg :
  frame h0 (Heap.masked_labels dt labels_img mask_img bg) (fun _ => True).
Proof.
  unfold Heap.masked_labels. destruct mask_img as [m|]; [|apply frame_ret; exact I].
  eapply frame_bind; [apply frame_read_int|]. intros mask_data _.
  eapply frame_bind; [apply frame_copy|]. intros l Hl.
  eapply frame_bind; [apply frame_setitem_where, Hl|]. intros _ _.
  apply frame_ret. exact I.
Qed.

Lemma frame_signals_from_labels dt niimgs labels_img mask_img bg :
  frame h0 (Heap.signals_from_labels dt niimgs labels_img mask_img bg)
        (fun _ => True).
Proof.
  unfold Heap.signals_from_labels.
  eapply frame_bind; [apply frame_read_int|]. intros labels_arr _.
  eapply frame_bind; [apply frame_read_real|]. intros data _.
  destruct (negb _); [apply frame_raise|].
  destruct (affine_mismatch _ _); [apply frame_raise|].
  eapply frame_bind; [apply frame_check_mask|]. intros _ _.
  eapply frame_bind; [apply frame_masked_labels|]. intros labels_data _.
  eapply frame_bind; [apply frame_read_int|]. intros labels_arr' _.
  eapply frame_bind; [apply frame_alloc|]. intros signals Hs.
  eapply frame_bind.
  { apply (frame_for_each _ _ (fun _ => True)); [|exact I].
    intros n s _. apply frame_setitem_row, Hs. }
  intros _ _. apply frame_ret. exact I.
Qed.

Lemma frame_img_from_labels dt signals labels_img mask_img bg :
  frame h0 (Heap.img_from_labels dt signals labels_img mask_img bg)
        (fun _ => True).
Proof.
  unfold Heap.img_from_labels.
  eapply frame_bind; [apply frame_read_int|]. intros labels_arr _.
  eapply frame_bind; [apply frame_check_mask|]. intros _ _.
  eapply frame_bind; [apply frame_alloc|]. intros data Hd.
  eapply frame_bind; [apply frame_masked_labels|]. intros labels_data _.
  eapply frame_bind; [apply frame_read_int|]. intros labels_arr' _.
  eapply frame_bind.
  { apply (frame_for_each _ _ (fun _ => True)); [|exact I].
    intros label n _.
    eapply frame_bind; [apply frame_setitem_label, Hd|]. intros _ _.
    apply frame_ret. exact I. }
  intros _ _. apply frame_ret. exact I.
Qed.

Lemma frame_trim_body maps trimmed_maps maps_mask mask sums n p :
  h0 !! trimmed_maps = None -> h0 !! maps_mask = None ->
  frame h0 (trim_body maps trimmed_maps maps_mask mask sums n p) (fun _ => True).
Proof.
  intros Ht Hu. unfold trim_body.
  destruct (Qeq_bool _ _); [apply frame_ret; exact I|].
  eapply frame_bind; [apply frame_read_real|]. intros m _.
  eapply frame_bind; [apply frame_read_real|]. intros t _.
  eapply frame_bind; [apply frame_write, Ht|]. intros _ _.
  eapply frame_bind; [apply frame_read_real|]. intros t' _.
  eapply frame_bind; [apply frame_read_int|]. intros u _.
  eapply frame_bind; [apply frame_write, Hu|]. intros _ _.
  apply frame_ret. exact I.
Qed.

Lemma frame_trim_maps maps mask :
  frame h0 (Heap._trim_maps maps mask) (fun _ => True).
Proof.
  unfold Heap._trim_maps.
  eapply frame_bind; [apply frame_copy|]. intros maps' _.
  eapply frame_bind; [apply frame_read_real|]. intros m _.
  eapply frame_bind; [apply frame_read_int|]. intros mask_arr _.
  eapply frame_bind; [apply frame_alloc|]. intros trimmed_maps Ht.
  eapply frame_bind; [apply frame_alloc|]. intros maps_mask Hu.
  eapply frame_bind.
  { apply (frame_for_each _ _ (fun _ => True)); [|exact I].
    intros n p _. apply frame_trim_body; assumption. }
  intros _ _. apply frame_ret. exact I.
Qed.

Lemma frame_apply_regions lstsq voxel_signals regions normalize_regions :
  frame h0 (Heap.apply_regions lstsq voxel_signals regions normalize_regions)
        (fun _ => True).
Proof.
  unfold Heap.apply_regions.
  eapply frame_bind; [apply frame_read_real|]. intros vs _.
  eapply frame_bind; [apply frame_read_real|]. intros rs _.
  eapply frame_bind; [apply frame_alloc|]. intros region_signals Hr.
  eapply (frame_bind _ _ (fun _ => True));
    [|intros _ _; apply frame_ret; exact I].
  destruct normalize_regions; [|apply frame_ret; exact I].
  eapply frame_bind; [apply frame_read_real|]. intros a _.
  apply frame_write, Hr.
Qed.

Lemma frame_signals_from_maps lstsq niimgs maps_img mask_img :
  frame h0 (Heap.signals_from_maps lstsq niimgs maps_img mask_img) (fun _ => True).
Proof.
  unfold Heap.signals_from_maps.
  eapply frame_bind; [apply frame_read_real|]. intros maps_data _.
  eapply frame_bind; [apply frame_read_real|]. intros data _.
  destruct (negb _); [apply frame_raise|].
  destruct (affine_mismatch _ _); [apply frame_raise|].
  eapply frame_bind; [apply frame_check_mask|]. intros _ _.
  eapply (frame_bind _ _ (fun _ => True)).
  - destruct mask_img as [m|]; [|apply frame_ret; exact I].
    eapply frame_bind; [apply frame_trim_maps|]. intros [[tl ul] idx] _.
    eapply frame_bind; [apply frame_read_real|]. intros t _.
    eapply frame_bind; [apply frame_read_int|]. intros u _.
    apply frame_ret. exact I.
  - intros [md mm] _. eapply frame_weaken; [apply frame_alloc|]. auto.
Qed.

Lemma frame_setitem_above output threshold data :
  h0 !! output = None ->
  frame h0 (setitem_above output threshold data) (fun _ => True).
Proof.
  intros Ho. unfold setitem_above.
  eapply frame_bind; [apply frame_read_int|]. intros out _.
  apply frame_write, Ho.
Qed.

Lemma frame_regions_to_mask regions_img threshold background :
  frame h0 (Heap.regions_to_mask regions_img threshold background) (fun _ => True).
Proof.
  unfold Heap.regions_to_mask.
  destruct regions_img as [imgs|img|]; [| |apply frame_raise].
  - destruct imgs as [|first rest]; [apply frame_raise|].
    eapply frame_bind; [apply frame_read|]. intros a _.
    destruct (negb _); [apply frame_raise|].
    eapply frame_bind; [apply frame_alloc|]. intros output Ho.
    eapply (frame_bind _ _ (fun _ => True));
      [|intros _ _; apply frame_ret; exact I].
    apply (frame_for_each _ _ (fun _ => True)); [|exact I].
    intros r s _.
    eapply frame_bind; [apply frame_read|]. intros a' _.
    destruct (negb _); [apply frame_raise|].
    destruct a' as [d|d|d]; try apply frame_raise.
    apply frame_setitem_above, Ho.
  - eapply frame_bind; [apply frame_read|]. intros a _.
    destruct (length (array_shape a) =? 4)%nat.
    + destruct a as [d|d|d]; try apply frame_raise.
      eapply frame_bind; [apply frame_alloc|]. intros output Ho.
      eapply (frame_bind _ _ (fun _ => True));
        [|intros _ _; apply frame_ret; exact I].
      apply (frame_for_each _ _ (fun _ => True)); [|exact I].
      intros n s _. apply frame_setitem_above, Ho.
    + destruct (length (array_shape a) =? 3)%nat; [|apply frame_raise].
      destruct a as [d|d|d]; try apply frame_raise.
      eapply frame_bind; [apply frame_alloc|]. intros output _.
      apply frame_ret. exact I.
Qed.

End Frame.

(** C10. Whatever the store and the arguments, and whether they return or
    raise, the operations leave every array object of the caller with the
    contents it had.  [signals_from_labels] and [img_from_labels] relabel
    the voxels outside the mask on a copy of the label array, [_trim_maps]
    works on a copy of the maps, and the other writes of these operations,
    of [signals_from_maps], [apply_regions] and [regions_to_mask] go to
    arrays created by the call. *)
Theorem caller_arrays_unchanged :
  forall (h : gmap nat Heap.array),
    (forall dt niimgs labels_img mask_img background_label,
       h ⊆ (Heap.signals_from_labels dt niimgs labels_img mask_img
              background_label h).2) /\
    (forall dt signals labels_img mask_img background_label,
       h ⊆ (Heap.img_from_labels dt signals labels_img mask_img
              background_label h).2) /\
    (forall maps mask, h ⊆ (Heap._trim_maps maps mask h).2) /\
    (forall lstsq niimgs maps_img mask_img,
       h ⊆ (Heap.signals_from_maps lstsq niimgs maps_img mask_img h).2) /\
    (forall lstsq voxel_signals regions normalize_regions,
       h ⊆ (Heap.apply_regions lstsq voxel_signals regions normalize_regions h).2) /\
    (forall regions_img threshold background,
       h ⊆ (Heap.regions_to_mask regions_img threshold background h).2).
Proof.
  intros h. repeat split; intros.
  - apply (frame_signals_from_labels h); reflexivity.
  - apply (frame_img_from_labels h); reflexivity.
  - apply (frame_trim_maps h); reflexivity.
  - apply (frame_signals_from_maps h); reflexivity.
  - apply (frame_apply_regions h); reflexivity.
  - apply (frame_regions_to_mask h); reflexivity.
Qed.

(** ** The store: the operations compute what they compute on values *)

Section Refinement.

Lemma read_run (h : gmap nat Heap.array) l a :
  h !! l = Some a -> Heap.read l h = (Ok a, h).
Proof. intros H. unfold Heap.read. rewrite H. reflexivity. Qed.

Lemma read_int_run (h : gmap nat Heap.array) l a :
  h !! l = Some (Heap.IntArray a) -> Heap.read_int l h = (Ok a, h).
Proof.
  intros H. unfold Heap.read_int. rewrite run_bind, (read_run _ _ _ H).
  reflexivity.
Qed.

Lemma read_real_run (h : gmap nat Heap.array) l a :
  h !! l = Some (Heap.RealArray a) -> Heap.read_real l h = (Ok a, h).
Proof.
  intros H. unfold Heap.read_real. rewrite run_bind, (read_run _ _ _ H).
  reflexivity.
Qed.

Lemma copy_run (h : gmap nat Heap.array) l a :
  h !! l = Some a -> Heap.copy l h = (Ok (fresh (dom h)), <[fresh (dom h) := a]> h).
Proof.
  intros H. unfold Heap.copy. rewrite run_bind, (read_run _ _ _ H).
  reflexivity.
Qed.

Lemma fresh_lookup (h : gmap nat Heap.array) : h !! fresh (dom h) = None.
Proof. apply not_elem_of_dom, is_fresh. Qed.

Lemma fresh_ne (h : gmap nat Heap.array) l a : h !! l = Some a -> fresh (dom h) <> l.
Proof. intros H E. rewrite <- E, fresh_lookup in H. discriminate. Qed.

Lemma check_mask_run (h : gmap nat Heap.array) mask_r mask_img sh aff msg msg' :
  holds_mask h mask_r mask_img ->
  Heap.check_mask mask_r sh aff msg msg' h =
  (match check_mask mask_img sh aff msg msg' with
   | Ok _ => Ok tt
   | Raise e => Raise e
   end, h).
Proof.
  destruct mask_r as [r|], mask_img as [v|]; simpl; try tauto.
  intros [Hd Ha]. rewrite run_bind, (read_int_run _ _ _ Hd), Ha.
  unfold get_shape. destruct (negb _); [reflexivity|].
  destruct (affine_mismatch _ _); reflexivity.
Qed.

(** The label block: the array returned holds the labels under the mask,
    and the arrays of the store are as they were. *)
Lemma masked_labels_run (h : gmap nat Heap.array) dt labels_r labels_img
    mask_r mask_img bg :
  holds_labels h labels_r labels_img -> holds_mask h mask_r mask_img ->
  exists l h',
    Heap.masked_labels dt labels_r mask_r bg h = (Ok l, h') /\
    h' !! l = Some (Heap.IntArray (masked_labels dt labels_img mask_img bg)) /\
    h ⊆ h'.
Proof.
  intros [Hl _] Hm. unfold Heap.masked_labels.
  destruct mask_r as [r|], mask_img as [v|]; simpl in Hm; try tauto.
  - destruct Hm as [Hm _].
    rewrite run_bind, (read_int_run _ _ _ Hm).
    rewrite run_bind, (copy_run _ _ _ Hl).
    set (c := fresh (dom h)).
    rewrite run_bind. unfold Heap.setitem_where.
    rewrite run_bind, (read_int_run _ c (get_data labels_img))
      by apply lookup_insert_eq.
    unfold Heap.write. simpl.
    eexists _, _. split; [reflexivity|]. split.
    + rewrite lookup_insert_eq. reflexivity.
    + rewrite insert_insert_eq. apply insert_subseteq, fresh_lookup.
  - exists (Heap.get_data labels_r), h. split; [reflexivity|].
    split; [exact Hl|reflexivity].
Qed.

Lemma for_each_app {A S} (xs ys : list A) (body : A -> S -> Heap.M S) (s : S)
    (h : gmap nat Heap.array) :
  Heap.for_each (xs ++ ys) body s h =
  (s' ← Heap.for_each xs body s; Heap.for_each ys body s') h.
Proof.
  revert s h; induction xs as [|x xs IH]; intros s h; simpl.
  - reflexivity.
  - rewrite !run_bind. destruct (body x s h) as [[s'|e] h']; [apply IH|reflexivity].
Qed.

(** The loop that fills the rows of the signals. *)
Lemma fill_rows_run (f : nat -> list Q) (l : nat) (sh : list nat) (z : list Q) :
  forall (n a : nat) (pre : list (list Q)) (h : gmap nat Heap.array),
    length pre = a ->
    h !! l = Some (Heap.RealArray (NdArray sh (pre ++ repeat z n))) ->
    exists h',
      Heap.for_each (seq a n) (fun k (_ : unit) => Heap.setitem_row l k (f k)) tt h =
        (Ok tt, h') /\
      h' !! l = Some (Heap.RealArray (NdArray sh (pre ++ map f (seq a n)))) /\
      forall l', l' <> l -> h' !! l' = h !! l'.
Proof.
  induction n as [|n IH]; intros a pre h Hpre Hl; simpl.
  - exists h. split; [reflexivity|]. split; [exact Hl|reflexivity].
  - rewrite run_bind. unfold Heap.setitem_row at 1.
    rewrite run_bind, (read_real_run _ _ _ Hl). unfold Heap.write. simpl.
    assert (Hins : <[a := f a]> (pre ++ z :: repeat z n) =
                   (pre ++ [f a]) ++ repeat z n).
    { rewrite <- Hpre, insert_app_r_alt, Nat.sub_diag by lia. simpl.
      rewrite <- app_assoc. reflexivity. }
    rewrite Hins.
    destruct (IH (S a) (pre ++ [f a])
                (<[l := Heap.RealArray (NdArray sh ((pre ++ [f a]) ++ repeat z n))]> h))
      as (h' & Hrun & Hl' & Hother).
    { rewrite length_app. simpl. lia. }
    { apply lookup_insert_eq. }
    exists h'. split; [exact Hrun|]. split.
    + rewrite Hl', <- app_assoc. reflexivity.
    + intros l' Hne. rewrite (Hother l' Hne). apply lookup_insert_ne. congruence.
Qed.

(** [signals_from_labels] on the store raises what it raises on values,
    or returns the same labels and a new Heap.array that holds the same
    signals. *)
Lemma signals_from_labels_refines (h : gmap nat Heap.array) dt
    niimgs_r niimgs labels_r labels_img mask_r mask_img bg :
  holds_stack h niimgs_r niimgs -> holds_labels h labels_r labels_img ->
  holds_mask h mask_r mask_img ->
  let run := Heap.signals_from_labels dt niimgs_r labels_r mask_r bg h in
  match signals_from_labels dt niimgs labels_img mask_img bg with
  | Raise e => run.1 = Raise e
  | Ok (signals, labels) =>
      exists l, run.1 = Ok (l, labels) /\ run.2 !! l = Some (Heap.RealArray signals)
  end.
Proof.
  intros [Hn Han] Hlab Hm run. pose proof Hlab as [Hl Hal].
  unfold run. clear run.
  destruct (Heap.signals_from_labels dt niimgs_r labels_r mask_r bg h)
    as [res hf] eqn:Erun.
  cbn [fst snd].
  unfold Heap.signals_from_labels in Erun. unfold signals_from_labels.
  rewrite run_bind, (read_int_run _ _ _ Hl) in Erun.
  rewrite run_bind, (read_real_run _ _ _ Hn) in Erun.
  rewrite Han, Hal in Erun. unfold get_shape.
  destruct (negb _); [injection Erun as <- <-; reflexivity|].
  destruct (affine_mismatch _ _); [injection Erun as <- <-; reflexivity|].
  rewrite run_bind, (check_mask_run h mask_r mask_img _ _ _ _ Hm) in Erun.
  destruct (check_mask mask_img _ _ _ _) as [[]|e];
    [|injection Erun as <- <-; reflexivity].
  simpl mbind.
  destruct (masked_labels_run h dt labels_r labels_img mask_r mask_img bg Hlab Hm)
    as (l & h1 & Hrun & Hl1 & Hsub).
  rewrite run_bind, Hrun in Erun.
  rewrite run_bind, (read_int_run _ _ _ Hl1) in Erun.
  set (ld := masked_labels dt labels_img mask_img bg) in *.
  set (labels := region_labels ld bg) in *.
  set (n_scans := List.last (shape (get_data niimgs)) 0%nat) in *.
  rewrite run_bind in Erun. unfold Heap.alloc at 1 in Erun.
  cbv beta iota zeta in Erun.
  set (s := fresh (dom h1)) in *.
  destruct (fill_rows_run
              (fun n => ndimage_mean (column 0 (items (get_data niimgs)) n)
                          (items ld) labels)
              s [n_scans; length labels] (repeat 0 (length labels))
              n_scans 0 []
              (<[s := Heap.RealArray (NdArray [n_scans; length labels]
                                   (repeat (repeat 0 (length labels)) n_scans))]> h1)
              eq_refl (lookup_insert_eq _ _ _))
    as (h2 & Hloop & Hs & _).
  rewrite run_bind, Hloop in Erun. injection Erun as <- <-.
  exists s. split; [reflexivity|exact Hs].
Qed.

Lemma setitem_label_run (h : gmap nat Heap.array) l sh data labels_data label
    signals n :
  h !! l = Some (Heap.RealArray (NdArray sh data)) ->
  Heap.setitem_label l labels_data label signals n h =
  if (n <? nth 1 (shape signals) 0)%nat
  then (Ok tt,
        <[l := Heap.RealArray
                 (NdArray sh (assign_where data (map (Z.eqb label) labels_data)
                                           (column 0 (items signals) n)))]> h)
  else (Raise (IndexError "index out of bounds"), h).
Proof.
  intros Hl. unfold Heap.setitem_label.
  destruct (_ <? _)%nat; [|reflexivity].
  rewrite run_bind, (read_real_run _ _ _ Hl). reflexivity.
Qed.

(** The loop of [img_from_labels]. *)
Lemma fill_labels_run signals labels_data (l : nat) (sh : list nat) :
  forall labels n data (h : gmap nat Heap.array),
    h !! l = Some (Heap.RealArray (NdArray sh data)) ->
    let run :=
      Heap.for_each labels
        (fun label n =>
           _ ← Heap.setitem_label l labels_data label signals n; Heap.ret (S n))
        n h in
    match fill_labels signals labels_data labels n data with
    | Ok out =>
        (exists n', run.1 = Ok n') /\
        run.2 !! l = Some (Heap.RealArray (NdArray sh out))
    | Raise e => run.1 = Raise e
    end.
Proof.
  induction labels as [|label rest IH]; intros n data h Hl; cbv zeta.
  - simpl. split; [eexists; reflexivity|exact Hl].
  - simpl Heap.for_each. simpl fill_labels.
    rewrite !run_bind, (setitem_label_run _ _ _ _ _ _ _ _ Hl).
    destruct (_ <? _)%nat; [|reflexivity].
    apply (IH (S n)). apply lookup_insert_eq.
Qed.

(** [img_from_labels] on the store raises what it raises on values, or
    returns an image whose array, a new one, holds the same values. *)
Lemma img_from_labels_refines (h : gmap nat Heap.array) dt
    signals labels_r labels_img mask_r mask_img bg :
  holds_labels h labels_r labels_img -> holds_mask h mask_r mask_img ->
  let run := Heap.img_from_labels dt signals labels_r mask_r bg h in
  match img_from_labels dt signals labels_img mask_img bg with
  | Raise e => run.1 = Raise e
  | Ok img => exists r, run.1 = Ok r /\ holds_stack run.2 r img
  end.
Proof.
  intros Hlab Hm run. pose proof Hlab as [Hl Hal].
  unfold run. clear run.
  destruct (Heap.img_from_labels dt signals labels_r mask_r bg h)
    as [res hf] eqn:Erun.
  cbn [fst snd].
  unfold Heap.img_from_labels in Erun. unfold img_from_labels.
  rewrite run_bind, (read_int_run _ _ _ Hl) in Erun.
  rewrite Hal in Erun. unfold get_shape.
  rewrite run_bind, (check_mask_run h mask_r mask_img _ _ _ _ Hm) in Erun.
  destruct (check_mask mask_img _ _ _ _) as [[]|e];
    [|injection Erun as <- <-; reflexivity].
  simpl mbind.
  rewrite run_bind in Erun. unfold Heap.alloc at 1 in Erun.
  cbv beta iota zeta in Erun.
  set (d := fresh (dom h)) in *.
  set (zeros := zeros4 0 _) in *.
  set (h1 := <[d := Heap.RealArray zeros]> h) in *.
  assert (Hd : forall l a, h !! l = Some a -> h1 !! l = Some a).
  { intros l a Hla. unfold h1. rewrite lookup_insert_ne; [exact Hla|].
    apply (fresh_ne h l a Hla). }
  assert (Hlab1 : holds_labels h1 labels_r labels_img).
  { split; [apply Hd; exact Hl|exact Hal]. }
  assert (Hm1 : holds_mask h1 mask_r mask_img).
  { destruct mask_r as [r|], mask_img as [v|]; simpl in *; try tauto.
    destruct Hm as [Hm Ha]. split; [apply Hd; exact Hm|exact Ha]. }
  destruct (masked_labels_run h1 dt labels_r labels_img mask_r mask_img bg Hlab1 Hm1)
    as (l & h2 & Hrun & Hl2 & Hsub).
  rewrite run_bind, Hrun in Erun.
  rewrite run_bind, (read_int_run _ _ _ Hl2) in Erun.
  assert (Hd2 : h2 !! d = Some (Heap.RealArray (NdArray (shape zeros) (items zeros)))).
  { eapply lookup_weaken; [|exact Hsub]. unfold h1. rewrite lookup_insert_eq.
    destruct zeros; reflexivity. }
  rewrite run_bind in Erun.
  pose proof (fill_labels_run signals
                (items (masked_labels dt labels_img mask_img bg)) d (shape zeros)
                (region_labels (masked_labels dt labels_img mask_img bg) bg) 0
                (items zeros) h2 Hd2) as Hloop.
  cbv zeta in Hloop.
  destruct (fill_labels _ _ _ _ _) as [out|e].
  - destruct Hloop as [[n' Hok] Hout].
    destruct (Heap.for_each _ _ _ h2) as [[n|e] h3]; [|discriminate].
    injection Erun as <- <-. simpl.
    eexists. split; [reflexivity|]. split; [exact Hout|reflexivity].
  - destruct (Heap.for_each _ _ _ h2) as [[n|e'] h3]; simpl in Hloop;
      [discriminate|].
    injection Hloop as ->. injection Erun as <- <-. reflexivity.
Qed.

(** One pass of the loop of [_trim_maps]. *)
Lemma trim_body_run (maps_l trimmed_l union_l : nat) (m : ndarray (stack Q))
    (mask : list bool) (sums : list Q) (sh shu : list nat) n T U p
    (h : gmap nat Heap.array) :
  maps_l <> trimmed_l -> maps_l <> union_l -> trimmed_l <> union_l ->
  h !! maps_l = Some (Heap.RealArray m) ->
  h !! trimmed_l = Some (Heap.RealArray (NdArray sh T)) ->
  h !! union_l = Some (Heap.IntArray (NdArray shu U)) ->
  let '(T', U', p') := trim_step (items m) mask sums (T, U, p) n in
  exists h',
    Heap.trim_body maps_l trimmed_l union_l mask sums n p h = (Ok p', h') /\
    h' !! maps_l = Some (Heap.RealArray m) /\
    h' !! trimmed_l = Some (Heap.RealArray (NdArray sh T')) /\
    h' !! union_l = Some (Heap.IntArray (NdArray shu U')).
Proof.
  intros Hmt Hmu Htu Hm Ht Hu. unfold trim_step, Heap.trim_body.
  destruct (Qeq_bool (nth n sums 0) 0).
  - exists h. auto.
  - rewrite run_bind, (read_real_run _ _ _ Hm).
    rewrite run_bind, (read_real_run _ _ _ Ht).
    rewrite run_bind. unfold Heap.write at 1. cbv beta iota.
    simpl shape. simpl items.
    set (T' := copy_inside mask (items m) n T p).
    set (h1 := <[trimmed_l := Heap.RealArray (NdArray sh T')]> h).
    assert (Ht1 : h1 !! trimmed_l = Some (Heap.RealArray (NdArray sh T')))
      by apply lookup_insert_eq.
    assert (Hu1 : h1 !! union_l = Some (Heap.IntArray (NdArray shu U))).
    { unfold h1. rewrite lookup_insert_ne; [exact Hu|exact Htu]. }
    rewrite run_bind, (read_real_run _ _ _ Ht1).
    rewrite run_bind, (read_int_run _ _ _ Hu1).
    rewrite run_bind. unfold Heap.write at 1. cbv beta iota.
    simpl shape. simpl items.
    eexists. split; [reflexivity|]. split; [|split].
    + rewrite lookup_insert_ne by congruence. unfold h1.
      rewrite lookup_insert_ne by congruence. exact Hm.
    + rewrite lookup_insert_ne by congruence. exact Ht1.
    + apply lookup_insert_eq.
Qed.

(** The loop of [_trim_maps]. *)
Lemma trim_loop_run (maps_l trimmed_l union_l : nat) (m : ndarray (stack Q))
    (mask : list bool) (sums : list Q) (sh shu : list nat) :
  maps_l <> trimmed_l -> maps_l <> union_l -> trimmed_l <> union_l ->
  forall ns T U p (h : gmap nat Heap.array),
    h !! maps_l = Some (Heap.RealArray m) ->
    h !! trimmed_l = Some (Heap.RealArray (NdArray sh T)) ->
    h !! union_l = Some (Heap.IntArray (NdArray shu U)) ->
    exists p' h',
      Heap.for_each ns (Heap.trim_body maps_l trimmed_l union_l mask sums) p h =
        (Ok p', h') /\
      let '(T', U', p'') := fold_left (trim_step (items m) mask sums) ns (T, U, p) in
      p' = p'' /\
      h' !! trimmed_l = Some (Heap.RealArray (NdArray sh T')) /\
      h' !! union_l = Some (Heap.IntArray (NdArray shu U')).
Proof.
  intros Hmt Hmu Htu. induction ns as [|n ns IH]; intros T U p h Hm Ht Hu.
  - exists p, h. split; [reflexivity|]. simpl. auto.
  - cbn [Heap.for_each fold_left]. rewrite run_bind.
    pose proof (trim_body_run maps_l trimmed_l union_l m mask sums sh shu n T U p h
                  Hmt Hmu Htu Hm Ht Hu) as Hbody.
    destruct (trim_step (items m) mask sums (T, U, p) n) as [[T' U'] p'].
    destruct Hbody as (h1 & Hrun & Hm1 & Ht1 & Hu1).
    rewrite Hrun. apply IH; assumption.
Qed.

(** [_trim_maps] on the store returns the same indices and two new arrays
    that hold the same maps and the same mask. *)
Lemma trim_maps_refines (h : gmap nat Heap.array) maps_l mask_l maps mask :
  h !! maps_l = Some (Heap.RealArray maps) ->
  h !! mask_l = Some (Heap.IntArray mask) ->
  let run := Heap._trim_maps maps_l mask_l h in
  let '(trimmed_maps, maps_mask, indices) := _trim_maps maps mask in
  exists trimmed_l union_l,
    run.1 = Ok (trimmed_l, union_l, indices) /\
    run.2 !! trimmed_l = Some (Heap.RealArray trimmed_maps) /\
    run.2 !! union_l = Some (Heap.IntArray maps_mask).
Proof.
  intros Hmaps Hmask run. unfold run. clear run.
  destruct (Heap._trim_maps maps_l mask_l h) as [res hf] eqn:Erun.
  cbn [fst snd].
  unfold Heap._trim_maps in Erun. unfold _trim_maps.
  rewrite run_bind, (copy_run _ _ _ Hmaps) in Erun.
  set (c := fresh (dom h)) in *.
  set (h1 := <[c := Heap.RealArray maps]> h) in *.
  assert (Hc : h1 !! c = Some (Heap.RealArray maps)) by apply lookup_insert_eq.
  assert (Hmask1 : h1 !! mask_l = Some (Heap.IntArray mask)).
  { unfold h1. rewrite lookup_insert_ne; [exact Hmask|].
    apply (fresh_ne h mask_l _ Hmask). }
  rewrite run_bind, (read_real_run _ _ _ Hc) in Erun.
  rewrite run_bind, (read_int_run _ _ _ Hmask1) in Erun.
  set (sums := map_sums maps (as_bool (items mask))) in *.
  set (n_regions := length (List.filter (fun s => Qgtb s 0) sums)) in *.
  rewrite run_bind in Erun. unfold Heap.alloc at 1 in Erun.
  cbv beta iota zeta in Erun.
  set (tl := fresh (dom h1)) in *.
  set (zt := zeros4 0 (firstn 3 (shape maps) ++ [n_regions])) in *.
  set (h2 := <[tl := Heap.RealArray zt]> h1) in *.
  rewrite run_bind in Erun. unfold Heap.alloc at 1 in Erun.
  cbv beta iota zeta in Erun.
  set (ul := fresh (dom h2)) in *.
  set (zu := zeros3 0%Z (shape mask)) in *.
  set (h3 := <[ul := Heap.IntArray zu]> h2) in *.
  assert (Htl : tl <> c) by (apply (fresh_ne h1 c _ Hc)).
  assert (Ht2 : h2 !! tl = Some (Heap.RealArray zt)) by apply lookup_insert_eq.
  assert (Hc2 : h2 !! c = Some (Heap.RealArray maps)).
  { unfold h2. rewrite lookup_insert_ne; [exact Hc|exact Htl]. }
  assert (Hul : ul <> tl) by (apply (fresh_ne h2 tl _ Ht2)).
  assert (Huc : ul <> c) by (apply (fresh_ne h2 c _ Hc2)).
  destruct (trim_loop_run c tl ul maps (as_bool (items mask)) sums
              (shape zt) (shape zu) ltac:(congruence) ltac:(congruence)
              ltac:(congruence)
              (seq 0 (List.last (shape maps) 0%nat)) (items zt) (items zu) 0%nat h3)
    as (p' & h4 & Hloop & Hfold).
  { unfold h3. rewrite lookup_insert_ne by congruence. exact Hc2. }
  { unfold h3. rewrite lookup_insert_ne by congruence.
    rewrite Ht2. destruct zt; reflexivity. }
  { unfold h3. rewrite lookup_insert_eq. destruct zu; reflexivity. }
  rewrite run_bind, Hloop in Erun. injection Erun as <- <-.
  destruct (fold_left _ _ _) as [[T U] p''].
  destruct Hfold as (_ & HT & HU).
  exists tl, ul. split; [reflexivity|]. split; assumption.
Qed.

(** [apply_regions] on the store returns a new array that holds what it
    returns on values. *)
Lemma apply_regions_refines lstsq (h : gmap nat Heap.array) vs_l rs_l vs rs normalize :
  h !! vs_l = Some (Heap.RealArray vs) ->
  h !! rs_l = Some (Heap.RealArray rs) ->
  let run := Heap.apply_regions lstsq vs_l rs_l normalize h in
  exists l,
    run.1 = Ok l /\
    run.2 !! l = Some (Heap.RealArray (apply_regions lstsq vs rs normalize)).
Proof.
  intros Hvs Hrs run. unfold run. clear run.
  destruct (Heap.apply_regions lstsq vs_l rs_l normalize h) as [res hf] eqn:Erun.
  cbn [fst snd]. unfold Heap.apply_regions in Erun. unfold apply_regions.
  rewrite run_bind, (read_real_run _ _ _ Hvs) in Erun.
  rewrite run_bind, (read_real_run _ _ _ Hrs) in Erun.
  rewrite run_bind in Erun. unfold Heap.alloc at 1 in Erun.
  cbv beta iota zeta in Erun.
  set (x := transpose (lstsq (transpose rs) (transpose vs))) in *.
  set (l := fresh (dom h)) in *.
  assert (Hl : <[l := Heap.RealArray x]> h !! l = Some (Heap.RealArray x))
    by apply lookup_insert_eq.
  rewrite run_bind in Erun. destruct normalize.
  - rewrite run_bind, (read_real_run _ _ _ Hl) in Erun.
    unfold Heap.write in Erun. injection Erun as <- <-.
    exists l. split; [reflexivity|]. apply lookup_insert_eq.
  - injection Erun as <- <-. exists l. split; [reflexivity|exact Hl].
Qed.

(** [signals_from_maps] on the store raises what it raises on values, or
    returns a new array that holds the same signals. *)
Lemma signals_from_maps_refines lstsq (h : gmap nat Heap.array)
    niimgs_r niimgs maps_r maps_img mask_r mask_img :
  holds_stack h niimgs_r niimgs -> holds_stack h maps_r maps_img ->
  holds_mask h mask_r mask_img ->
  let run := Heap.signals_from_maps lstsq niimgs_r maps_r mask_r h in
  match signals_from_maps lstsq niimgs maps_img mask_img with
  | Raise e => run.1 = Raise e
  | Ok signals =>
      exists l, run.1 = Ok l /\ run.2 !! l = Some (Heap.RealArray signals)
  end.
Proof.
  intros [Hn Han] [Hmaps Ham] Hm run. unfold run. clear run.
  destruct (Heap.signals_from_maps lstsq niimgs_r maps_r mask_r h)
    as [res hf] eqn:Erun.
  cbn [fst snd]. unfold Heap.signals_from_maps in Erun. unfold signals_from_maps.
  rewrite run_bind, (read_real_run _ _ _ Hmaps) in Erun.
  rewrite run_bind, (read_real_run _ _ _ Hn) in Erun.
  rewrite Han, Ham in Erun. unfold get_shape.
  destruct (negb _); [injection Erun as <- <-; reflexivity|].
  destruct (affine_mismatch _ _); [injection Erun as <- <-; reflexivity|].
  rewrite run_bind, (check_mask_run h mask_r mask_img _ _ _ _ Hm) in Erun.
  destruct (check_mask mask_img _ _ _ _) as [[]|e];
    [|injection Erun as <- <-; reflexivity].
  simpl mbind. rewrite run_bind in Erun.
  destruct mask_r as [r|], mask_img as [v|]; simpl in Hm; try tauto.
  - destruct Hm as [Hmask _].
    pose proof (trim_maps_refines h (Heap.get_data maps_r) (Heap.get_data r)
                  (get_data maps_img) (get_data v) Hmaps Hmask) as Htrim.
    cbv zeta in Htrim.
    rewrite run_bind in Erun.
    destruct (_trim_maps (get_data maps_img) (get_data v))
      as [[trimmed union] indices].
    destruct Htrim as (tl & ul & Hres & Htl & Hul).
    destruct (Heap._trim_maps _ _ h) as [res1 h1]. simpl in Hres, Htl, Hul.
    subst res1.
    rewrite run_bind, (read_real_run _ _ _ Htl) in Erun.
    rewrite run_bind, (read_int_run _ _ _ Hul) in Erun.
    unfold Heap.ret, Heap.alloc in Erun. injection Erun as <- <-.
    eexists. split; [reflexivity|]. apply lookup_insert_eq.
  - unfold Heap.ret, Heap.alloc in Erun. injection Erun as <- <-.
    eexists. split; [reflexivity|]. apply lookup_insert_eq.
Qed.

Lemma setitem_above_run (h : gmap nat Heap.array) o out thr data :
  h !! o = Some (Heap.IntArray out) ->
  Heap.setitem_above o thr data h =
  (Ok tt, <[o := Heap.IntArray (NdArray (shape out)
                                  (mark_above thr (items out) data))]> h).
Proof.
  intros Ho. unfold Heap.setitem_above.
  rewrite run_bind, (read_int_run _ _ _ Ho). reflexivity.
Qed.

(** The loop of [regions_to_mask] over the images of a list. *)
Lemma merge_list_run thr (o : nat) (sh : list nat) (h0 : gmap nat Heap.array)
    (rs : list Heap.niimg) (vs : list (niimg (volume Q))) :
  h0 !! o = None ->
  Forall2 (fun r v => h0 !! Heap.get_data r = Some (Heap.WeightArray (get_data v)))
          rs vs ->
  forall out (h : gmap nat Heap.array),
    (forall l, l <> o -> h !! l = h0 !! l) ->
    h !! o = Some (Heap.IntArray (NdArray sh out)) ->
    let run :=
      Heap.for_each rs
        (fun r (_ : unit) =>
           a ← Heap.read (Heap.get_data r);
           if negb (shape_eqb (Heap.array_shape a) sh)
           then Heap.raise (ValueError "Inconsistent shape in input list")
           else
             match a with
             | Heap.WeightArray d => Heap.setitem_above o thr (items d)
             | _ => Heap.raise (TypeError "an array of weights is expected")
             end)
        tt h in
    match merge_list thr vs (NdArray sh out) with
    | Ok output =>
        (exists u, run.1 = Ok u) /\ run.2 !! o = Some (Heap.IntArray output)
    | Raise e => run.1 = Raise e
    end.
Proof.
  intros Ho Hall. induction Hall as [|r v rs vs Hrv Hall IH];
    intros out h Hsame Hout; cbv zeta.
  - simpl. split; [eexists; reflexivity|exact Hout].
  - cbn [Heap.for_each merge_list]. rewrite !run_bind.
    assert (Hr : h !! Heap.get_data r = Some (Heap.WeightArray (get_data v))).
    { rewrite Hsame; [exact Hrv|]. intros E. rewrite E, Ho in Hrv. discriminate. }
    rewrite (read_run _ _ _ Hr). cbn [Heap.array_shape shape].
    unfold get_shape.
    destruct (negb _); [reflexivity|].
    rewrite (setitem_above_run _ _ _ _ _ Hout). cbn [shape items].
    apply IH.
    + intros l Hl. rewrite lookup_insert_ne by congruence. apply Hsame, Hl.
    + apply lookup_insert_eq.
Qed.

(** The loop of [regions_to_mask] over the last axis of a 4D array. *)
Lemma merge_stack_run thr (o : nat) (sh : list nat) (d : stack Q) :
  forall ns out (h : gmap nat Heap.array),
    h !! o = Some (Heap.IntArray (NdArray sh out)) ->
    exists h',
      Heap.for_each ns
        (fun n (_ : unit) => Heap.setitem_above o thr (column 0 d n)) tt h =
        (Ok tt, h') /\
      h' !! o =
      Some (Heap.IntArray
              (NdArray sh (fold_left (fun out n => mark_above thr out (column 0 d n))
                                     ns out))).
Proof.
  induction ns as [|n ns IH]; intros out h Hout.
  - exists h. split; [reflexivity|exact Hout].
  - cbn [Heap.for_each fold_left]. rewrite run_bind.
    rewrite (setitem_above_run _ _ _ _ _ Hout). cbn [shape items].
    apply IH. apply lookup_insert_eq.
Qed.

(** [regions_to_mask] on the store raises what it raises on values, or
    returns an image whose array, a new one, holds the same mask. *)
Lemma regions_to_mask_refines (h : gmap nat Heap.array) regions_r regions_img thr bg :
  holds_regions h regions_r regions_img ->
  let run := Heap.regions_to_mask regions_r thr bg h in
  match regions_to_mask regions_img thr bg with
  | Raise e => run.1 = Raise e
  | Ok img =>
      exists r, run.1 = Ok r /\
                run.2 !! Heap.get_data r = Some (Heap.IntArray (get_data img)) /\
                Heap.get_affine r = get_affine img
  end.
Proof.
  intros Hh run. unfold run. clear run.
  destruct (Heap.regions_to_mask regions_r thr bg h) as [res hf] eqn:Erun.
  cbn [fst snd]. unfold Heap.regions_to_mask in Erun. unfold regions_to_mask.
  destruct regions_r as [rs|r|], regions_img as [vs|v|]; simpl in Hh; try tauto.
  - destruct Hh as [Hall Haff].
    destruct Hall as [|r v rs vs Hrv Hall].
    { injection Erun as <- <-. reflexivity. }
    rewrite run_bind, (read_run _ _ _ Hrv) in Erun.
    cbn [Heap.array_shape] in Erun.
    simpl hd in Haff. unfold get_shape.
    destruct (negb (length (shape (get_data v)) =? 3)%nat);
      [injection Erun as <- <-; reflexivity|].
    rewrite run_bind in Erun. unfold Heap.alloc at 1 in Erun.
    cbv beta iota zeta in Erun.
    set (o := fresh (dom h)) in *.
    set (sh := shape (get_data v)) in *.
    rewrite run_bind in Erun.
    pose proof (merge_list_run thr o sh h (r :: rs) (v :: vs) (fresh_lookup h)
                  (List.Forall2_cons r v Hrv Hall)
                  (items (zeros3 0%Z sh))
                  (<[o := Heap.IntArray (zeros3 0%Z sh)]> h)
                  (fun l Hl => lookup_insert_ne _ _ _ _ (not_eq_sym Hl))
                  (lookup_insert_eq _ _ _)) as Hloop.
    cbv zeta in Hloop. change (NdArray sh (items (zeros3 0%Z sh))) with (zeros3 0%Z sh) in Hloop.
    destruct (merge_list thr (v :: vs) (zeros3 0%Z sh)) as [output|e].
    + destruct Hloop as [[u Hu] Hout].
      destruct (Heap.for_each _ _ _ _) as [[u'|e] h1]; [|discriminate].
      injection Erun as <- <-. simpl.
      eexists. split; [reflexivity|]. split; [exact Hout|exact Haff].
    + destruct (Heap.for_each _ _ _ _) as [[u'|e'] h1]; simpl in Hloop;
        [discriminate|].
      injection Hloop as ->. injection Erun as <- <-. reflexivity.
  - destruct Hh as [Hd Haff].
    destruct v as [[sh dat] aff]. unfold get_shape in *. simpl in *.
    rewrite run_bind, (read_run _ _ _ Hd) in Erun.
    destruct dat as [d|d]; cbn [Heap.array_shape shape] in Erun.
    + destruct (length sh =? 4)%nat.
      * rewrite run_bind in Erun. unfold Heap.alloc at 1 in Erun.
        cbv beta iota zeta in Erun. cbn [items] in Erun.
        destruct (merge_stack_run thr (fresh (dom h)) (firstn 3 sh) d
                    (seq 0 (nth 3 sh 0%nat)) (items (zeros3 0%Z (firstn 3 sh)))
                    (<[fresh (dom h) := Heap.IntArray (zeros3 0%Z (firstn 3 sh))]> h)
                    (lookup_insert_eq _ _ _)) as (h1 & Hloop & Hout).
        rewrite run_bind, Hloop in Erun. injection Erun as <- <-.
        eexists. split; [reflexivity|]. split; [exact Hout|exact Haff].
      * destruct (length sh =? 3)%nat; injection Erun as <- <-; reflexivity.
    + destruct (length sh =? 4)%nat; [injection Erun as <- <-; reflexivity|].
      destruct (length sh =? 3)%nat; [|injection Erun as <- <-; reflexivity].
      rewrite run_bind in Erun. unfold Heap.alloc, Heap.ret in Erun.
      injection Erun as <- <-.
      eexists. split; [reflexivity|]. split; [apply lookup_insert_eq|exact Haff].
  - injection Erun as <- <-. reflexivity.
Qed.

End Refinement.

(** ** Sums over indices *)

Lemma bigsum_ext (n : nat) (f g : nat -> Q) :
  (forall k, (k < n)%nat -> f k == g k) -> bigsum n f == bigsum n g.
Proof.
  unfold bigsum. induction n as [|n IH]; intros H; [reflexivity|].
  rewrite !seq_S, !map_app. simpl.
  unfold Qsum in *. rewrite !fold_right_app. simpl.
  assert (Hacc : forall (l : list Q) (a b : Q), a == b ->
            fold_right Qplus a l == fold_right Qplus b l).
  { induction l as [|x l IHl]; intros a b Hab; simpl; [exact Hab|].
    rewrite (IHl a b Hab). reflexivity. }
  rewrite (Hacc _ (f n + 0) (g n + 0)) by (rewrite (H n); [reflexivity|lia]).
  clear Hacc.
  assert (Hsplit : forall (l : list Q) (a : Q),
            fold_right Qplus a l == fold_right Qplus 0 l + a).
  { induction l as [|x l IHl]; intros a; simpl; [ring|].
    rewrite (IHl a). ring. }
  rewrite (Hsplit (map f (seq 0 n))), (Hsplit (map g (seq 0 n))).
  rewrite IH by (intros; apply H; lia). reflexivity.
Qed.

Lemma bigsum_S (n : nat) (f : nat -> Q) : bigsum (S n) f == bigsum n f + f n.
Proof.
  unfold bigsum, Qsum. rewrite seq_S, map_app, fold_right_app. simpl.
  generalize (map f (seq 0 n)). intros l.
  induction l as [|x l IH]; simpl; [ring|]. rewrite IH. ring.
Qed.

Lemma bigsum_plus (n : nat) (f g : nat -> Q) :
  bigsum n (fun k => f k + g k) == bigsum n f + bigsum n g.
Proof.
  induction n as [|n IH]; [unfold bigsum; simpl; ring|].
  rewrite !bigsum_S, IH. ring.
Qed.

Lemma bigsum_scale (n : nat) (c : Q) (f : nat -> Q) :
  bigsum n (fun k => c * f k) == c * bigsum n f.
Proof.
  induction n as [|n IH]; [unfold bigsum; simpl; ring|].
  rewrite !bigsum_S, IH. ring.
Qed.

Lemma bigsum_zero (n : nat) (f : nat -> Q) :
  (forall k, (k < n)%nat -> f k == 0) -> bigsum n f == 0.
Proof.
  induction n as [|n IH]; intros H; [reflexivity|].
  rewrite bigsum_S.
  assert (H1 : bigsum n f == 0) by (apply IH; intros; apply H; lia).
  assert (H2 : f n == 0) by (apply H; lia).
  rewrite H1, H2. ring.
Qed.

(** A sum with one non-zero term. *)
Lemma bigsum_single (n r : nat) (f : nat -> Q) :
  (r < n)%nat -> (forall k, (k < n)%nat -> k <> r -> f k == 0) ->
  bigsum n f == f r.
Proof.
  induction n as [|n IH]; intros Hr H; [lia|].
  rewrite bigsum_S. destruct (Nat.eq_dec r n) as [->|Hne].
  - assert (H1 : bigsum n f == 0) by (apply bigsum_zero; intros; apply H; lia).
    rewrite H1. ring.
  - assert (H1 : bigsum n f == f r) by (apply IH; [lia|intros; apply H; lia]).
    assert (H2 : f n == 0) by (apply H; lia).
    rewrite H1, H2. ring.
Qed.

Lemma bigsum_nonneg (n : nat) (f : nat -> Q) :
  (forall k, (k < n)%nat -> 0 <= f k) -> 0 <= bigsum n f.
Proof.
  induction n as [|n IH]; intros H; [unfold bigsum; simpl; lra|].
  rewrite bigsum_S. specialize (H n ltac:(lia)) as Hn.
  specialize (IH ltac:(intros; apply H; lia)). lra.
Qed.

(** A sum of squares is zero only when each term is. *)
Lemma bigsum_squares_zero (n : nat) (f : nat -> Q) :
  bigsum n (fun k => f k * f k) == 0 -> forall k, (k < n)%nat -> f k == 0.
Proof.
  induction n as [|n IH]; intros H k Hk; [lia|].
  rewrite bigsum_S in H.
  assert (H1 : 0 <= bigsum n (fun k => f k * f k)).
  { apply bigsum_nonneg. intros. nra. }
  assert (H2 : 0 <= f n * f n) by nra.
  destruct (Nat.eq_dec k n) as [->|Hne].
  - assert (f n * f n == 0) by lra. nra.
  - apply IH; [lra|lia].
Qed.

Lemma Qsum_bigsum (l : list Q) : Qsum l = bigsum (length l) (fun k => nth k l 0).
Proof. unfold bigsum. rewrite map_nth_seq. reflexivity. Qed.

Lemma dot_bigsum (u w : list Q) (n : nat) :
  length u = n -> length w = n ->
  dot u w = bigsum n (fun k => nth k u 0 * nth k w 0).
Proof.
  intros Hu Hw. unfold dot, bigsum. f_equal.
  apply (list_eq_nth _ _ 0).
  - rewrite length_map2, length_map, length_seq. lia.
  - intros k Hk. rewrite length_map2 in Hk.
    rewrite (nth_map2 _ _ _ _ 0 0) by lia.
    assert (Hkn : (k < n)%nat) by lia.
    rewrite (nth_map_seq _ _ _ _ Hkn). reflexivity.
Qed.

(** ** 2D arrays *)

Lemma wf_matrix_shape {A} (a : ndarray (list (list A))) :
  wf_matrix a -> shape a = [nth 0 (shape a) 0%nat; nth 1 (shape a) 0%nat].
Proof.
  intros [H _]. destruct (shape a) as [|r [|c [|x s]]]; simpl in *;
    try discriminate; reflexivity.
Qed.

Lemma transpose_shape (a : ndarray matrix) :
  wf_matrix a ->
  nth 0 (shape (transpose a)) 0%nat = nth 1 (shape a) 0%nat /\
  nth 1 (shape (transpose a)) 0%nat = nth 0 (shape a) 0%nat.
Proof.
  intros H. unfold transpose. simpl. rewrite (wf_matrix_shape a H). auto.
Qed.

Lemma transpose_row (a : ndarray matrix) (i : nat) :
  (i < nth 1 (shape a) 0)%nat ->
  nth i (items (transpose a)) [] = column 0 (items a) i.
Proof.
  intros Hi. unfold transpose. simpl. apply nth_map_seq. exact Hi.
Qed.

Lemma entry_column (a : matrix) (i j : nat) :
  (j < length a)%nat -> nth j (column 0 a i) 0 = entry a j i.
Proof. intros Hj. unfold entry. apply nth_column. exact Hj. Qed.

Lemma transpose_entry (a : ndarray matrix) (i j : nat) :
  wf_matrix a -> (i < nth 1 (shape a) 0)%nat -> (j < nth 0 (shape a) 0)%nat ->
  entry (items (transpose a)) i j = entry (items a) j i.
Proof.
  intros (_ & Hl & _) Hi Hj. unfold entry at 1.
  rewrite (transpose_row a i Hi). apply entry_column. lia.
Qed.

(** ** Least squares: the normal equations *)

Lemma perturb_wf (x : ndarray matrix) r t eps :
  wf_matrix x -> wf_matrix (perturb x r t eps).
Proof.
  intros (H2 & Hl & Hrows). unfold perturb. split; [exact H2|]. simpl.
  split; [rewrite length_map, length_seq; reflexivity|].
  rewrite List.Forall_forall. intros row Hrow. apply in_map_iff in Hrow.
  destruct Hrow as (k & <- & _). rewrite length_map, length_seq. reflexivity.
Qed.

Lemma perturb_entry (x : ndarray matrix) r t eps k j :
  (k < nth 0 (shape x) 0)%nat -> (j < nth 1 (shape x) 0)%nat ->
  entry (items (perturb x r t eps)) k j =
  if (k =? r)%nat && (j =? t)%nat
  then entry (items x) k j + eps else entry (items x) k j.
Proof.
  intros Hk Hj. unfold perturb, entry at 1. simpl.
  rewrite (nth_map_seq _ _ _ _ Hk), (nth_map_seq _ _ _ _ Hj). reflexivity.
Qed.

Section NormalEquations.

Variables a b x : ndarray matrix.
Variables n_rows n_cols n_rhs : nat.
Hypothesis Ha : wf_matrix a.
Hypothesis Hb : wf_matrix b.
Hypothesis Hx : wf_matrix x.
Hypothesis Hsa : shape a = [n_rows; n_cols].
Hypothesis Hsb : shape b = [n_rows; n_rhs].
Hypothesis Hsx : shape x = [n_cols; n_rhs].

(** The residual of the equation of row [i], right-hand side [j]. *)
Let d (x : ndarray matrix) (i j : nat) : Q :=
  dot (nth i (items a) []) (column 0 (items x) j) - entry (items b) i j.

Lemma residual_bigsum (y : ndarray matrix) :
  residual a b y = bigsum n_rows (fun i => bigsum n_rhs (fun j => d y i j * d y i j)).
Proof. unfold residual, bigsum, d. rewrite Hsa, Hsb. reflexivity. Qed.

Lemma row_length i : (i < n_rows)%nat -> length (nth i (items a) []) = n_cols.
Proof.
  intros Hi. destruct Ha as (_ & Hl & Hrows). rewrite Hsa in *. simpl in *.
  rewrite List.Forall_forall in Hrows. apply Hrows, nth_In. lia.
Qed.

Lemma dot_column (y : ndarray matrix) i j :
  wf_matrix y -> shape y = [n_cols; n_rhs] -> (i < n_rows)%nat ->
  dot (nth i (items a) []) (column 0 (items y) j) =
  bigsum n_cols (fun k => entry (items a) i k * entry (items y) k j).
Proof.
  intros (_ & Hl & _) Hs Hi. rewrite Hs in Hl. simpl in Hl.
  rewrite (dot_bigsum _ _ n_cols) by (rewrite ?length_column; auto using row_length).
  unfold bigsum. f_equal. apply map_ext_in. intros k Hk. apply in_seq in Hk.
  rewrite entry_column by lia. reflexivity.
Qed.

Lemma d_perturb r t eps i j :
  (r < n_cols)%nat -> (i < n_rows)%nat -> (j < n_rhs)%nat ->
  d (perturb x r t eps) i j ==
  d x i j + (if (j =? t)%nat then entry (items a) i r * eps else 0).
Proof.
  intros Hr Hi Hj. unfold d.
  rewrite (dot_column (perturb x r t eps)), (dot_column x);
    auto using perturb_wf.
  assert (Hsum : bigsum n_cols
            (fun k => entry (items a) i k * entry (items (perturb x r t eps)) k j) ==
          bigsum n_cols (fun k => entry (items a) i k * entry (items x) k j) +
          bigsum n_cols (fun k => if (k =? r)%nat && (j =? t)%nat
                                  then entry (items a) i k * eps else 0)).
  { rewrite <- bigsum_plus. apply bigsum_ext. intros k Hk.
    rewrite perturb_entry by (rewrite Hsx; simpl; lia).
    destruct ((k =? r)%nat && (j =? t)%nat); ring. }
  rewrite Hsum.
  assert (Hone : bigsum n_cols
            (fun k => if (k =? r)%nat && (j =? t)%nat
                      then entry (items a) i k * eps else 0) ==
          (if (j =? t)%nat then entry (items a) i r * eps else 0)).
  { etransitivity.
    - apply (bigsum_single n_cols r); [exact Hr|]. intros k Hk Hne.
      destruct (Nat.eqb_spec k r); [contradiction|reflexivity].
    - simpl. rewrite Nat.eqb_refl. reflexivity. }
  rewrite Hone. ring.
Qed.

(** The change of the residual when one entry of [x] moves by [eps]. *)
Lemma residual_perturb r t eps :
  (r < n_cols)%nat -> (t < n_rhs)%nat ->
  residual a b (perturb x r t eps) ==
  residual a b x
  + 2 * eps * bigsum n_rows (fun i => entry (items a) i r * d x i t)
  + eps * eps * bigsum n_rows (fun i => entry (items a) i r * entry (items a) i r).
Proof.
  intros Hr Ht. rewrite !residual_bigsum.
  rewrite <- !bigsum_scale, <- !bigsum_plus.
  apply bigsum_ext. intros i Hi.
  transitivity (bigsum n_rhs (fun j =>
                  d x i j * d x i j +
                  (if (j =? t)%nat
                   then 2 * eps * (entry (items a) i r * d x i t)
                        + eps * eps * (entry (items a) i r * entry (items a) i r)
                   else 0))).
  - apply bigsum_ext. intros j Hj.
    rewrite (d_perturb r t eps i j Hr Hi Hj).
    destruct (Nat.eqb_spec j t) as [->|_]; ring.
  - rewrite bigsum_plus.
    assert (Hone : bigsum n_rhs (fun j =>
              if (j =? t)%nat
              then 2 * eps * (entry (items a) i r * d x i t)
                   + eps * eps * (entry (items a) i r * entry (items a) i r)
              else 0) ==
            2 * eps * (entry (items a) i r * d x i t)
            + eps * eps * (entry (items a) i r * entry (items a) i r)).
    { etransitivity.
      - apply (bigsum_single n_rhs t); [exact Ht|]. intros j Hj Hne.
        destruct (Nat.eqb_spec j t); [contradiction|reflexivity].
      - simpl. rewrite Nat.eqb_refl. reflexivity. }
    rewrite Hone. ring.
Qed.

(** A minimiser of the residual satisfies the normal equations: the
    residual vector of each right-hand side is orthogonal to each column
    of [a]. *)
Lemma normal_equations r t :
  least_squares a b x -> (r < n_cols)%nat -> (t < n_rhs)%nat ->
  bigsum n_rows (fun i => entry (items a) i r * d x i t) == 0.
Proof.
  intros (_ & _ & Hmin) Hr Ht.
  set (G := bigsum n_rows (fun i => entry (items a) i r * d x i t)).
  set (S := bigsum n_rows (fun i => entry (items a) i r * entry (items a) i r)).
  assert (HS : 0 <= S).
  { apply bigsum_nonneg. intros i _. nra. }
  set (eps := - G / (S + 1)).
  assert (He : eps * (S + 1) == - G) by (unfold eps; field; lra).
  pose proof (Hmin (perturb x r t eps) (perturb_wf x r t eps Hx) eq_refl) as Hle.
  rewrite (residual_perturb r t eps Hr Ht) in Hle. fold G S in Hle.
  assert (H0 : 0 <= 2 * eps * G + eps * eps * S) by lra.
  assert (H1 : 2 * eps * G + eps * eps * S == - (eps * eps) * (S + 2)).
  { assert (HG : G == - (eps * (S + 1))) by (rewrite He; ring).
    rewrite HG. ring. }
  rewrite H1 in H0.
  assert (H2 : eps * eps == 0) by nra.
  assert (H3 : eps == 0) by nra.
  rewrite H3 in He. lra.
Qed.

End NormalEquations.

(** ** [apply_regions] *)

Lemma transpose_wf (a : ndarray matrix) : wf_matrix a -> wf_matrix (transpose a).
Proof.
  intros Ha. pose proof (wf_matrix_shape a Ha) as Hs.
  destruct Ha as (H2 & Hl & Hrows). unfold transpose.
  split; [simpl; rewrite length_rev; exact H2|]. simpl.
  rewrite length_map, length_seq.
  assert (Hrev : rev (shape a) = [nth 1 (shape a) 0%nat; nth 0 (shape a) 0%nat])
    by (rewrite Hs at 1; reflexivity).
  rewrite Hrev. simpl.
  split; [reflexivity|]. rewrite List.Forall_forall. intros row Hrow.
  apply in_map_iff in Hrow. destruct Hrow as (k & <- & _).
  rewrite length_column. exact Hl.
Qed.

Lemma transpose_shape_eq (a : ndarray matrix) :
  wf_matrix a ->
  shape (transpose a) = [nth 1 (shape a) 0%nat; nth 0 (shape a) 0%nat].
Proof.
  intros Ha. unfold transpose. simpl. rewrite (wf_matrix_shape a Ha).
  reflexivity.
Qed.

Lemma residual_nonneg (a b x : ndarray matrix) : 0 <= residual a b x.
Proof.
  unfold residual. apply (bigsum_nonneg _ (fun i => Qsum _)). intros i _.
  apply (bigsum_nonneg _ (fun j => _ * _)). intros j _. cbv beta zeta.
  match goal with |- 0 <= ?q * ?q => generalize q end. intros q. nra.
Qed.

(** What normalising does to an entry: a division by the factor of its
    region. *)
Lemma apply_regions_entry lstsq voxel_signals regions t r :
  wf_matrix regions ->
  let x := lstsq (transpose regions) (transpose voxel_signals) in
  wf_matrix x ->
  shape x = [nth 0 (shape regions) 0%nat; nth 0 (shape voxel_signals) 0%nat] ->
  (t < nth 0 (shape voxel_signals) 0)%nat -> (r < nth 0 (shape regions) 0)%nat ->
  entry (items (apply_regions lstsq voxel_signals regions false)) t r =
    entry (items x) r t /\
  entry (items (apply_regions lstsq voxel_signals regions true)) t r =
    entry (items x) r t / region_factor regions r.
Proof.
  intros Hreg x Hx Hsx Ht Hr.
  assert (Hrow : nth t (items (transpose x)) [] = column 0 (items x) t).
  { apply transpose_row. rewrite Hsx. exact Ht. }
  assert (Hlx : length (items x) = nth 0 (shape regions) 0%nat).
  { destruct Hx as (_ & Hl & _). rewrite Hl, Hsx. reflexivity. }
  assert (Hlt : (t < length (items (transpose x)))%nat).
  { unfold transpose. simpl. rewrite length_map, length_seq, Hsx. exact Ht. }
  assert (Hlr : length (items regions) = nth 0 (shape regions) 0%nat).
  { apply Hreg. }
  unfold apply_regions. fold x. split.
  - unfold entry at 1. rewrite Hrow. apply entry_column. lia.
  - simpl items. unfold entry at 1.
    rewrite (nth_map_lt _ _ _ []) by exact Hlt.
    change (nth t (map (column 0 (items x)) (seq 0 (nth 1 (shape x) 0%nat))) [])
      with (nth t (items (transpose x)) []).
    rewrite Hrow.
    rewrite (nth_map2 _ _ _ _ 0 0)
      by (rewrite ?length_column, ?length_map; lia).
    rewrite entry_column by lia.
    unfold region_factor. rewrite (nth_map_lt _ _ _ []) by lia.
    reflexivity.
Qed.

(** What the normalisation does achieve.  Let the solver return a
    least-squares solution.  For a region whose weights have a non-zero sum and that
    overlaps no other region (on a voxel where its weight is not zero every
    other region has weight zero), if at some instant the signal is one
    value [c] on all the voxels where the weight of the region is not zero,
    then [apply_regions] with [normalize_regions=True] returns [c] for that
    region at that instant, in exact arithmetic and whatever the weights;
    the normalised entry is the least-squares entry divided by
    (sum of the weights) / (sum of the squared weights) of the region. *)
Theorem apply_regions_constant :
  forall (lstsq : ndarray matrix -> ndarray matrix -> ndarray matrix)
         (voxel_signals regions : ndarray matrix) (r t : nat) (c : Q),
    wf_matrix regions -> wf_matrix voxel_signals ->
    nth 1 (shape voxel_signals) 0%nat = nth 1 (shape regions) 0%nat ->
    least_squares (transpose regions) (transpose voxel_signals)
                  (lstsq (transpose regions) (transpose voxel_signals)) ->
    (r < nth 0 (shape regions) 0)%nat ->
    (t < nth 0 (shape voxel_signals) 0)%nat ->
    (forall v, (v < nth 1 (shape regions) 0)%nat ->
       ~ entry (items regions) r v == 0 ->
       entry (items voxel_signals) t v == c) ->
    (forall r' v, (r' < nth 0 (shape regions) 0)%nat -> r' <> r ->
       (v < nth 1 (shape regions) 0)%nat ->
       ~ entry (items regions) r v == 0 ->
       entry (items regions) r' v == 0) ->
    ~ Qsum (nth r (items regions) []) == 0 ->
    entry (items (apply_regions lstsq voxel_signals regions true)) t r == c /\
    entry (items (apply_regions lstsq voxel_signals regions true)) t r =
      entry (items (apply_regions lstsq voxel_signals regions false)) t r
      / (Qsum (nth r (items regions) [])
         / Qsum (map (fun w => w * w) (nth r (items regions) []))).
Proof.
  intros lstsq vs regions r t c Hreg Hvs Hvox Hls Hr Ht Hconst Hdisj Hsum.
  set (n_regions := nth 0 (shape regions) 0%nat) in *.
  set (n_vox := nth 1 (shape regions) 0%nat) in *.
  set (n_scans := nth 0 (shape vs) 0%nat) in *.
  set (a := transpose regions) in *.
  set (b := transpose vs) in *.
  set (x := lstsq a b) in *.
  assert (Hsa : shape a = [n_vox; n_regions]) by (apply transpose_shape_eq, Hreg).
  assert (Hsb : shape b = [n_vox; n_scans]).
  { unfold b. rewrite (transpose_shape_eq vs Hvs), Hvox. reflexivity. }
  pose proof Hls as (Hx & Hsx & _). rewrite Hsa, Hsb in Hsx. simpl in Hsx.
  destruct (apply_regions_entry lstsq vs regions t r Hreg Hx Hsx Ht Hr)
    as [Hraw Hnorm].
  fold a b x in Hraw, Hnorm.
  split; [|rewrite Hnorm, Hraw; reflexivity].
  rewrite Hnorm. unfold region_factor.
  set (w := fun v => entry (items regions) r v).
  assert (Hrowlen : length (nth r (items regions) []) = n_vox).
  { destruct Hreg as (_ & Hl & Hrows). rewrite List.Forall_forall in Hrows.
    apply Hrows, nth_In. fold n_regions in Hl. lia. }
  assert (HS1 : Qsum (nth r (items regions) []) = bigsum n_vox w).
  { rewrite Qsum_bigsum, Hrowlen. reflexivity. }
  assert (HS2 : Qsum (map (fun w => w * w) (nth r (items regions) [])) ==
                bigsum n_vox (fun v => w v * w v)).
  { rewrite Qsum_bigsum, length_map, Hrowlen. apply bigsum_ext.
    intros v Hv. rewrite (nth_map_lt _ _ _ 0) by lia. reflexivity. }
  rewrite HS1 in Hsum |- *. rewrite HS2.
  set (S1 := bigsum n_vox w) in *.
  set (S2 := bigsum n_vox (fun v => w v * w v)) in *.
  (* the normal equation of the region *)
  pose proof (normal_equations a b x n_vox n_regions n_scans
                (transpose_wf _ Hreg) Hx Hsa Hsb Hsx r t Hls Hr Ht) as Hne.
  assert (Hterm : forall v, (v < n_vox)%nat ->
            entry (items a) v r *
            (dot (nth v (items a) []) (column 0 (items x) t) - entry (items b) v t) ==
            entry (items x) r t * (w v * w v) - c * w v).
  { intros v Hv.
    rewrite (dot_column a n_vox n_regions n_scans (transpose_wf _ Hreg) Hsa x v t
               Hx Hsx Hv).
    assert (Ea : forall k, (k < n_regions)%nat ->
              entry (items a) v k = entry (items regions) k v).
    { intros k Hk. apply transpose_entry; assumption. }
    assert (Eb : entry (items b) v t = entry (items vs) t v).
    { apply transpose_entry; [exact Hvs|rewrite Hvox; exact Hv|exact Ht]. }
    rewrite (Ea r Hr), Eb. fold (w v).
    destruct (Qeq_dec (w v) 0) as [Hz|Hnz].
    - rewrite Hz. ring.
    - assert (Hdot : bigsum n_regions
                (fun k => entry (items a) v k * entry (items x) k t) ==
              w v * entry (items x) r t).
      { etransitivity.
        - apply (bigsum_single n_regions r); [exact Hr|]. intros k Hk Hkr.
          rewrite (Ea k Hk), (Hdisj k v Hk Hkr Hv Hnz). ring.
        - cbv beta. rewrite (Ea r Hr). reflexivity. }
      rewrite Hdot, (Hconst v Hv Hnz). ring. }
  assert (HG : entry (items x) r t * S2 - c * S1 == 0).
  { rewrite <- Hne. unfold S1, S2.
    rewrite <- !bigsum_scale.
    transitivity (bigsum n_vox
                    (fun v => entry (items x) r t * (w v * w v) + - (c * w v))).
    - rewrite bigsum_plus.
      assert (Hopp : bigsum n_vox (fun v => - (c * w v)) ==
                     - bigsum n_vox (fun v => c * w v)).
      { transitivity (bigsum n_vox (fun v => (-1) * (c * w v))).
        - apply bigsum_ext. intros; ring.
        - rewrite bigsum_scale. ring. }
      rewrite Hopp. ring.
    - apply bigsum_ext. intros v Hv. rewrite (Hterm v Hv). ring. }
  assert (HS2nz : ~ S2 == 0).
  { intros HS2z. apply Hsum. unfold S1. apply bigsum_zero.
    intros v Hv. apply (bigsum_squares_zero n_vox w HS2z v Hv). }
  assert (Hx' : entry (items x) r t * S2 == c * S1) by lra.
  transitivity (entry (items x) r t * S2 / S1); [field; split; assumption|].
  rewrite Hx'. field. exact Hsum.
Qed.

Lemma apply_regions_constant_witness :
  let lstsq := fun a b : ndarray matrix => NdArray [2; 1]%nat [[7 # 2]; [4]] in
  let regions := NdArray [2; 3]%nat [[2; 2; 0]; [0; 0; 3]] in
  let voxel_signals := NdArray [1; 3]%nat [[7; 7; 12]] in
  entry (items (apply_regions lstsq voxel_signals regions true)) 0 0 == 7.
Proof.
  intros lstsq regions voxel_signals.
  refine (proj1 (apply_regions_constant lstsq voxel_signals regions 0 0 7
                   _ _ _ _ _ _ _ _ _)).
  - split; [reflexivity|]. split; [reflexivity|]. repeat constructor.
  - split; [reflexivity|]. split; [reflexivity|]. repeat constructor.
  - reflexivity.
  - split; [|split; [reflexivity|]].
    + split; [reflexivity|]. split; [reflexivity|]. repeat constructor.
    + intros x' _ _.
      assert (E : residual (transpose regions) (transpose voxel_signals)
                    (lstsq (transpose regions) (transpose voxel_signals)) == 0)
        by reflexivity.
      rewrite E. apply residual_nonneg.
  - simpl. lia.
  - simpl. lia.
  - intros v Hv Hw. simpl in Hv.
    destruct v as [|[|[|v]]]; try lia; try reflexivity.
    exfalso. apply Hw. reflexivity.
  - intros r' v Hr' Hne Hv Hw. simpl in Hr', Hv.
    destruct r' as [|[|r']]; try lia.
    destruct v as [|[|[|v]]]; try lia; try reflexivity.
    exfalso. apply Hw. reflexivity.
  - discriminate.
Defined.

(** C1.  The docstring of [apply_regions] promises that with
    [normalize_regions=True] identical signals in a region come out as that
    same signal, whatever the weights.  With the regions [1, 2] and [2, 1] on
    two voxels and the signal 9 on both voxels, the first region has
    non-zero weights and a constant signal; there is a least-squares
    solution, every least-squares solution is 3 for both regions (it fits
    the signals exactly), and [apply_regions] returns 3 / (3 / 5) = 5 for
    the first region, not 9. *)
Lemma apply_regions_overlap_not_constant :
  let regions := NdArray [2; 2]%nat [[1; 2]; [2; 1]] in
  let voxel_signals := NdArray [1; 2]%nat [[9; 9]] in
  wf_matrix regions /\ wf_matrix voxel_signals /\
  (exists v, ~ entry (items regions) 0 v == 0) /\
  (forall v, (v < 2)%nat -> entry (items voxel_signals) 0 v == 9) /\
  least_squares (transpose regions) (transpose voxel_signals)
                (NdArray [2; 1]%nat [[3]; [3]]) /\
  forall lstsq : ndarray matrix -> ndarray matrix -> ndarray matrix,
    least_squares (transpose regions) (transpose voxel_signals)
                  (lstsq (transpose regions) (transpose voxel_signals)) ->
    entry (items (apply_regions lstsq voxel_signals regions true)) 0 0 == 5 /\
    ~ entry (items (apply_regions lstsq voxel_signals regions true)) 0 0 == 9.
Proof.
  intros regions voxel_signals.
  assert (Hreg : wf_matrix regions)
    by (split; [reflexivity|split; [reflexivity|repeat constructor]]).
  assert (Hvs : wf_matrix voxel_signals)
    by (split; [reflexivity|split; [reflexivity|repeat constructor]]).
  assert (Hy : wf_matrix (NdArray [2; 1]%nat [[3]; [3]]))
    by (split; [reflexivity|split; [reflexivity|repeat constructor]]).
  assert (Hy0 : residual (transpose regions) (transpose voxel_signals)
                  (NdArray [2; 1]%nat [[3]; [3]]) == 0) by reflexivity.
  split; [exact Hreg|]. split; [exact Hvs|].
  split; [exists 0%nat; discriminate|].
  split; [intros [|[|v]] Hv; try lia; reflexivity|].
  split.
  { split; [exact Hy|]. split; [reflexivity|].
    intros x' _ _. rewrite Hy0. apply residual_nonneg. }
  intros lstsq Hls. pose proof Hls as (Hx & Hsx & Hmin).
  destruct (apply_regions_entry lstsq voxel_signals regions 0 0 Hreg Hx Hsx)
    as [_ Hnorm]; [simpl; lia|simpl; lia|].
  set (x := lstsq (transpose regions) (transpose voxel_signals)) in *.
  assert (Hp : entry (items x) 0 0 == 3).
  { pose proof (Hmin _ Hy (eq_sym Hsx)) as Hle. rewrite Hy0 in Hle.
    destruct Hx as (_ & Hl & Hrows).
    destruct x as [sh its]. simpl in Hsx, Hl, Hrows, Hle |- *. subst sh.
    simpl in Hl.
    destruct its as [|row [|row' [|row'' its]]]; try discriminate.
    inversion Hrows as [|? ? Hrow Hrows']; subst.
    inversion Hrows' as [|? ? Hrow' _]; subst.
    destruct row as [|p [|p' row]]; try discriminate.
    destruct row' as [|q [|q' row']]; try discriminate.
    subst regions voxel_signals.
    unfold residual, transpose, entry, column, dot, Qsum in Hle.
    simpl in Hle. unfold entry. simpl.
    set (u := 1 * p + (2 * q + 0) - 9) in Hle.
    set (v := 2 * p + (1 * q + 0) - 9) in Hle.
    assert (Hsq : forall z : Q, z * z <= 0 -> z == 0).
    { intros z Hz. destruct (Q_dec z 0) as [[H|H]|H]; [nra|nra|exact H]. }
    assert (Hu : u == 0) by (apply Hsq; nra).
    assert (Hv : v == 0) by (apply Hsq; nra).
    unfold u in Hu. unfold v in Hv. lra. }
  rewrite Hnorm, Hp.
  assert (Hf : region_factor regions 0 == 3 # 5) by reflexivity.
  rewrite Hf. split; [reflexivity|discriminate].
Qed.

(** ** [regions_are_overlapping] *)

Lemma nonzero_cases (w : Q) :
  (w == 0 /\ nonzero w = 0%Z) \/ (~ w == 0 /\ nonzero w = 1%Z).
Proof.
  unfold nonzero. destruct (Qeq_bool w 0) eqn:E.
  - left. split; [apply Qeq_bool_iff; exact E|reflexivity].
  - right. split; [|reflexivity]. intros H. apply Qeq_bool_iff in H. congruence.
Qed.

Lemma Zsum_nonzero_pos (ws : list Q) :
  (0 <= Zsum (map nonzero ws))%Z /\
  ((0 < Zsum (map nonzero ws))%Z <->
   exists n, (n < length ws)%nat /\ ~ nth n ws 0 == 0).
Proof.
  induction ws as [|w ws [IH0 IH]]; simpl.
  - split; [lia|]. split; [lia|]. intros (n & Hn & _). lia.
  - destruct (nonzero_cases w) as [[Hw ->]|[Hw ->]].
    + split; [lia|]. rewrite Z.add_0_l, IH. split.
      * intros (n & Hn & Hnz). exists (S n). split; [lia|exact Hnz].
      * intros ([|n] & Hn & Hnz); [contradiction|].
        exists n. split; [lia|exact Hnz].
    + split; [lia|]. split; [|lia]. intros _. exists 0%nat. split; [lia|exact Hw].
Qed.

Lemma Zsum_nonzero_two (ws : list Q) :
  (1 < Zsum (map nonzero ws))%Z <-> two_nonzero ws.
Proof.
  induction ws as [|w ws IH]; simpl.
  - split; [lia|]. intros (n & m & Hnm & _). simpl in Hnm. lia.
  - destruct (Zsum_nonzero_pos ws) as [H0 Hpos].
    destruct (nonzero_cases w) as [[Hw ->]|[Hw ->]].
    + rewrite Z.add_0_l, IH. split.
      * intros (n & m & Hnm & Hn & Hm).
        exists (S n), (S m). simpl. split; [lia|]. split; assumption.
      * intros ([|n] & [|m] & Hnm & Hn & Hm); simpl in *; try lia;
          try contradiction.
        exists n, m. split; [lia|]. split; assumption.
    + split.
      * intros H. assert (Hp : (0 < Zsum (map nonzero ws))%Z) by lia.
        apply Hpos in Hp. destruct Hp as (m & Hm & Hnz).
        exists 0%nat, (S m). simpl. split; [lia|]. split; assumption.
      * intros ([|n] & [|m] & Hnm & Hn & Hm); simpl in *; try lia.
        -- assert (Hp : (0 < Zsum (map nonzero ws))%Z).
           { apply Hpos. exists m. split; [lia|exact Hm]. }
           lia.
        -- assert (Hp : (0 < Zsum (map nonzero ws))%Z).
           { apply Hpos. exists m. split; [lia|exact Hm]. }
           lia.
Qed.

Lemma array_max_above (a : list Z) (m : Z) :
  array_max a = Ok m -> ((1 <? m)%Z = true <-> Exists (fun c => (1 < c)%Z) a).
Proof.
  destruct a as [|x t]; simpl; [discriminate|].
  intros [= <-]. rewrite Z.ltb_lt.
  induction t as [|y t IH]; simpl.
  - split.
    + intros H. left. exact H.
    + intros H. inversion H as [? ? H1|? ? H1]; subst; [exact H1|inversion H1].
  - split.
    + intros H. destruct (Z.max_spec y (fold_right Z.max x t)) as [[_ E]|[_ E]];
        rewrite E in H.
      * apply IH in H. inversion H as [? ? H1|? ? H1]; subst.
        -- left. exact H1.
        -- right. right. exact H1.
      * right. left. exact H.
    + intros H.
      assert (Hx : (1 < x)%Z \/ (1 < y)%Z \/ Exists (fun c => (1 < c)%Z) t).
      { inversion H as [? ? H1|? ? H1]; subst; [left; exact H1|].
        inversion H1 as [? ? H2|? ? H2]; subst; [right; left; exact H2|].
        right. right. exact H2. }
      destruct Hx as [Hx|[Hy|Ht]].
      * assert (1 < fold_right Z.max x t)%Z by (apply IH; left; exact Hx). lia.
      * lia.
      * assert (1 < fold_right Z.max x t)%Z by (apply IH; right; exact Ht). lia.
Qed.

Lemma column_nonzero (rows : list (list Q)) (v : nat) :
  column 0%Z (map (map nonzero) rows) v = map nonzero (column 0 rows v).
Proof.
  unfold column. rewrite !map_map. apply map_ext. intros row.
  change 0%Z with (nonzero 0). apply map_nth.
Qed.

(** What [_regions_are_overlapping_masked] answers. *)
Lemma masked_overlap_iff (regions : ndarray matrix) :
  wf_matrix regions ->
  (_regions_are_overlapping_masked regions = true <->
   exists v r r',
     (v < nth 1 (shape regions) 0)%nat /\
     (r < r' < nth 0 (shape regions) 0)%nat /\
     ~ entry (items regions) r v == 0 /\
     ~ entry (items regions) r' v == 0).
Proof.
  intros (_ & Hlen & _).
  unfold _regions_are_overlapping_masked. rewrite existsb_map_comp.
  rewrite existsb_exists. split.
  - intros (v & Hin & Hv). apply in_seq in Hin. apply Z.ltb_lt in Hv.
    rewrite column_nonzero in Hv. apply Zsum_nonzero_two in Hv.
    destruct Hv as (r & r' & Hr & Hnz & Hnz').
    rewrite length_column in Hr.
    rewrite entry_column in Hnz by lia. rewrite entry_column in Hnz' by lia.
    exists v, r, r'. split; [lia|]. split; [lia|]. split; assumption.
  - intros (v & r & r' & Hv & Hr & Hnz & Hnz'). exists v.
    split; [apply in_seq; lia|]. apply Z.ltb_lt.
    rewrite column_nonzero. apply Zsum_nonzero_two.
    exists r, r'. rewrite length_column. split; [lia|].
    rewrite !entry_column by lia. split; assumption.
Qed.

(** X1.  On a 2D array of weights (one row per region),
    [regions_are_overlapping] answers [True] exactly when some voxel has a
    non-zero weight in two different regions. *)
Theorem overlapping_masked_iff :
  forall regions : ndarray matrix,
    wf_matrix regions ->
    exists b,
      regions_are_overlapping (OverlapMasked regions) = Ok b /\
      (b = true <->
       exists v r r',
         (v < nth 1 (shape regions) 0)%nat /\
         (r < r' < nth 0 (shape regions) 0)%nat /\
         ~ entry (items regions) r v == 0 /\
         ~ entry (items regions) r' v == 0).
Proof.
  intros regions Hwf. eexists. split; [reflexivity|].
  apply masked_overlap_iff, Hwf.
Qed.

Lemma overlapping_masked_iff_witness :
  exists b,
    regions_are_overlapping (OverlapMasked (NdArray [2; 3]%nat [[1; 0; 2]; [0; 3; 4]]))
      = Ok b /\
    (b = true <->
     exists v r r',
       (v < 3)%nat /\ (r < r' < 2)%nat /\
       ~ entry [[1; 0; 2]; [0; 3; 4]] r v == 0 /\
       ~ entry [[1; 0; 2]; [0; 3; 4]] r' v == 0).
Proof.
  apply (overlapping_masked_iff (NdArray [2; 3]%nat [[1; 0; 2]; [0; 3; 4]])).
  split; [reflexivity|]. split; [reflexivity|].
  repeat constructor.
Defined.

(** X2.  On a 4D array of weights that has a voxel,
    [regions_are_overlapping] answers [True] exactly when some voxel has a
    non-zero weight in two different maps. *)
Theorem overlapping_array_iff :
  forall regions : ndarray (stack Q),
    wf_stack regions -> (0 < n_voxels (shape regions))%nat ->
    exists b,
      regions_are_overlapping (OverlapArray regions) = Ok b /\
      (b = true <->
       exists v n m,
         (v < n_voxels (shape regions))%nat /\
         (n < m < nth 3 (shape regions) 0)%nat /\
         ~ entry (items regions) v n == 0 /\
         ~ entry (items regions) v m == 0).
Proof.
  intros regions (_ & Hlen & Hrows) Hpos. simpl.
  unfold _regions_are_overlapping_array.
  destruct (array_max (map Zsum (map (map nonzero) (items regions)))) as [m|e] eqn:E.
  - eexists. split; [reflexivity|].
    rewrite (array_max_above _ _ E). rewrite map_map, List.Exists_exists.
    split.
    + intros (c & Hin & Hc). apply in_map_iff in Hin.
      destruct Hin as (row & <- & Hin).
      apply Zsum_nonzero_two in Hc. destruct Hc as (n & k & Hnk & Hn & Hk).
      apply (In_nth _ _ []) in Hin. destruct Hin as (v & Hv & Hrow).
      pose proof (proj1 (List.Forall_forall _ _) Hrows row) as Hl.
      rewrite <- Hrow in Hl at 1.
      specialize (Hl (nth_In _ _ Hv)).
      exists v, n, k. unfold entry. rewrite Hrow.
      split; [lia|]. split; [lia|]. split; assumption.
    + intros (v & n & k & Hv & Hnk & Hn & Hk).
      exists (Zsum (map nonzero (nth v (items regions) []))). split.
      * apply in_map_iff. exists (nth v (items regions) []).
        split; [reflexivity|]. apply nth_In. lia.
      * apply Zsum_nonzero_two. exists n, k. split; [|split; assumption].
        assert (Hl : length (nth v (items regions) []) = nth 3 (shape regions) 0%nat).
        { apply (proj1 (List.Forall_forall _ _) Hrows). apply nth_In. lia. }
        lia.
  - destruct (items regions) as [|row rows]; simpl in *; [lia|discriminate].
Qed.

Lemma overlapping_array_iff_witness :
  let regions := NdArray [2; 1; 1; 2]%nat [[1; 0]; [-3; 4]] in
  exists b,
    regions_are_overlapping (OverlapArray regions) = Ok b /\
    (b = true <->
     exists v n m,
       (v < n_voxels (shape regions))%nat /\
       (n < m < nth 3 (shape regions) 0)%nat /\
       ~ entry (items regions) v n == 0 /\
       ~ entry (items regions) v m == 0).
Proof.
  apply (overlapping_array_iff (NdArray [2; 1; 1; 2]%nat [[1; 0]; [-3; 4]])).
  - split; [reflexivity|]. split; [reflexivity|]. repeat constructor.
  - vm_compute. lia.
Defined.

(** Stretching along the last axis, along the first one, and of an array
    with fewer axes; a shape that cannot be stretched. *)
Lemma broadcast_to_examples :
  broadcast_to 0 (NdArray [2; 1; 1]%nat [1; 0]) [2; 1; 2]%nat = [1; 1; 0; 0] /\
  broadcast_to 0 (NdArray [1; 1; 2]%nat [5; 0]) [2; 1; 2]%nat = [5; 0; 5; 0] /\
  broadcast_to 0 (NdArray [2]%nat [5; 0]) [2; 1; 2]%nat = [5; 0; 5; 0] /\
  broadcast_to 0 (NdArray [2; 3]%nat [1; 2; 3; 4; 5; 6]) [2; 3]%nat =
    [1; 2; 3; 4; 5; 6] /\
  broadcastable [2; 1; 1]%nat [2; 1; 2]%nat = true /\
  broadcastable [3; 1; 2]%nat [2; 1; 2]%nat = false /\
  broadcastable [1; 2; 1; 2]%nat [2; 1; 2]%nat = false.
Proof. repeat split; reflexivity. Qed.

(** A region with one voxel covers, once stretched, every voxel of the
    first region. *)
Lemma overlap_count_broadcast :
  regions_are_overlapping
    (OverlapList [NdArray [2; 1; 1]%nat [1; 0]; NdArray [1; 1; 1]%nat [4]]) =
  Ok true.
Proof. reflexivity. Qed.

Lemma overlap_count_spec (regions : list (ndarray (volume Q))) :
  forall count : ndarray (volume Z),
    Forall (fun r : ndarray (volume Q) =>
              shape r = shape count /\
              length (items r) = length (items count)) regions ->
    overlap_count regions count =
    Ok (NdArray (shape count)
          (map (fun v => (nth v (items count) 0 +
                          Zsum (map (fun r => nonzero (nth v (items r) 0%Q)) regions))%Z)
               (seq 0 (length (items count))))).
Proof.
  induction regions as [|r rest IH]; intros count Hall; simpl.
  - destruct count as [sh c]. simpl. f_equal. f_equal. symmetry.
    etransitivity; [|apply (map_nth_seq c 0%Z)].
    apply map_ext. intros v. lia.
  - inversion Hall as [|? ? [Hsh Hlen] Hrest]; subst.
    rewrite (shape_eqb_eq _ _ Hsh). simpl negb. cbv iota.
    assert (Hlen' : length (map2 Z.add (items count) (map nonzero (items r))) =
                    length (items count)).
    { rewrite length_map2, length_map. lia. }
    rewrite IH.
    + simpl shape. simpl items. rewrite Hlen'. f_equal. f_equal.
      apply map_ext_in. intros v Hv. apply in_seq in Hv.
      rewrite (nth_map2 _ _ _ _ 0%Z 0%Z) by (rewrite ?length_map; lia).
      rewrite (nth_map_lt _ _ _ 0) by lia. lia.
    + simpl shape. simpl items. rewrite Hlen'.
      eapply List.Forall_impl; [|exact Hrest]. intros r' H. exact H.
Qed.

(** X3.  A list of 3D arrays of one shape and the 4D array that stacks them
    along the last axis get the same answer from [regions_are_overlapping],
    the error for arrays without a voxel included. *)
Theorem overlapping_list_eq_stack :
  forall regions : list (ndarray (volume Q)),
    regions <> [] ->
    Forall (fun r => wf_volume r /\ shape r = shape (hd (NdArray [] []) regions))
           regions ->
    regions_are_overlapping (OverlapList regions) =
    regions_are_overlapping (OverlapArray (stacked regions)).
Proof.
  intros regions Hne Hall. destruct regions as [|first rest]; [congruence|].
  clear Hne. simpl hd in Hall.
  assert (Hfirst : wf_volume first).
  { inversion Hall as [|? ? [H _] _]; exact H. }
  destruct Hfirst as [Hrank Hitems].
  assert (Hsize : fold_right Nat.mul 1%nat (shape first) = n_voxels (shape first)).
  { unfold n_voxels. rewrite firstn_all2 by lia. reflexivity. }
  unfold regions_are_overlapping, _regions_are_overlapping_list,
    _regions_are_overlapping_array.
  rewrite Hsize. rewrite overlap_count_spec.
  - simpl shape. simpl items. rewrite repeat_length.
    unfold stacked. simpl hd. simpl items. rewrite !map_map.
    assert (E : map (fun v =>
                       (nth v (repeat 0%Z (n_voxels (shape first))) 0 +
                        Zsum (map (fun r => nonzero (nth v (items r) 0%Q))
                                  (first :: rest)))%Z)
                    (seq 0 (n_voxels (shape first))) =
                map (fun v =>
                       Zsum (map nonzero
                                 (map (fun r => nth v (items r) 0) (first :: rest))))
                    (seq 0 (n_voxels (shape first)))).
    { apply map_ext_in. intros v Hv. apply in_seq in Hv.
      rewrite nth_repeat_lt by lia. rewrite map_map. lia. }
    rewrite E. reflexivity.
  - simpl shape. simpl items. rewrite repeat_length.
    eapply List.Forall_impl; [|exact Hall]. intros r [[_ Hl] Hs]. cbv beta.
    split; [exact Hs|]. rewrite Hl, Hs. reflexivity.
Qed.

Lemma overlapping_list_eq_stack_witness :
  let regions := [NdArray [2; 1; 1]%nat [1; 0]; NdArray [2; 1; 1]%nat [-3; 4]] in
  regions_are_overlapping (OverlapList regions) =
  regions_are_overlapping (OverlapArray (stacked regions)).
Proof.
  apply (overlapping_list_eq_stack
           [NdArray [2; 1; 1]%nat [1; 0]; NdArray [2; 1; 1]%nat [-3; 4]]).
  - discriminate.
  - repeat constructor.
Defined.

(** X4.  Arrays without a voxel: the 2D form answers [False], the 4D form
    and the list form raise (the maximum of no count), and an empty list
    raises an [IndexError]. *)
Theorem overlapping_no_voxel :
  (forall regions : ndarray matrix,
     nth 1 (shape regions) 0%nat = 0%nat ->
     regions_are_overlapping (OverlapMasked regions) = Ok false) /\
  (forall regions : ndarray (stack Q),
     wf_stack regions -> n_voxels (shape regions) = 0%nat ->
     is_error (regions_are_overlapping (OverlapArray regions))) /\
  (forall regions : list (ndarray (volume Q)),
     regions <> [] ->
     Forall (fun r => wf_volume r /\ shape r = shape (hd (NdArray [] []) regions))
            regions ->
     n_voxels (shape (hd (NdArray [] []) regions)) = 0%nat ->
     is_error (regions_are_overlapping (OverlapList regions))) /\
  regions_are_overlapping (OverlapList []) =
    Raise (IndexError "list index out of range").
Proof.
  split; [|split; [|split; [|reflexivity]]].
  - intros regions H. simpl. unfold _regions_are_overlapping_masked.
    rewrite H. reflexivity.
  - intros regions (_ & Hlen & _) H0. simpl.
    unfold _regions_are_overlapping_array.
    destruct (items regions); [exact I|simpl in Hlen; lia].
  - intros regions Hne Hall H0. destruct regions as [|first rest]; [congruence|].
    simpl hd in *.
    assert (Hfirst : wf_volume first).
    { inversion Hall as [|? ? [H _] _]; exact H. }
    destruct Hfirst as [Hrank Hitems].
    unfold regions_are_overlapping, _regions_are_overlapping_list.
    rewrite overlap_count_spec.
    + simpl shape. simpl items. rewrite repeat_length.
      assert (Hsize : fold_right Nat.mul 1%nat (shape first) = 0%nat).
      { unfold n_voxels in H0. rewrite firstn_all2 in H0 by lia. exact H0. }
      rewrite Hsize. exact I.
    + simpl shape. simpl items. rewrite repeat_length.
      eapply List.Forall_impl; [|exact Hall]. intros r [[Hr Hl] Hs]. cbv beta.
      split; [exact Hs|]. rewrite Hl, Hs. unfold n_voxels.
      rewrite firstn_all2 by lia. reflexivity.
Qed.

Lemma overlapping_no_voxel_witness :
  regions_are_overlapping (OverlapMasked (NdArray [2; 0]%nat [[]; []])) = Ok false /\
  is_error (regions_are_overlapping (OverlapArray (NdArray [0; 1; 1; 2]%nat []))) /\
  is_error (regions_are_overlapping (OverlapList [NdArray [0; 1; 1]%nat []])).
Proof.
  destruct overlapping_no_voxel as (Hm & Ha & Hl & _).
  split; [apply Hm; reflexivity|]. split.
  - apply Ha; [|reflexivity]. split; [reflexivity|]. split; [reflexivity|].
    constructor.
  - apply Hl; [discriminate| |reflexivity]. repeat constructor.
Defined.

(** ** [apply_regions] on regions that do not overlap *)

(** Without overlap, the other regions have no weight where a region has
    one. *)
Lemma masked_no_overlap (regions : ndarray matrix) (r r' v : nat) :
  wf_matrix regions ->
  _regions_are_overlapping_masked regions = false ->
  (r < nth 0 (shape regions) 0)%nat -> (r' < nth 0 (shape regions) 0)%nat ->
  r' <> r -> (v < nth 1 (shape regions) 0)%nat ->
  ~ entry (items regions) r v == 0 -> entry (items regions) r' v == 0.
Proof.
  intros Hwf Hno Hr Hr' Hne Hv Hnz.
  destruct (Qeq_dec (entry (items regions) r' v) 0) as [Hz|Hnz']; [exact Hz|].
  exfalso. assert (H : _regions_are_overlapping_masked regions = true).
  { apply (masked_overlap_iff regions Hwf).
    destruct (Nat.lt_ge_cases r r') as [Hlt|Hge].
    - exists v, r, r'. split; [exact Hv|]. split; [lia|]. split; assumption.
    - exists v, r', r. split; [exact Hv|]. split; [lia|]. split; assumption. }
  congruence.
Qed.

(** For a region that shares no voxel with another one, the least-squares
    solution satisfies (sum of squared weights) * signal = sum of weight *
    voxel signal. *)
Lemma region_projection lstsq (vs regions : ndarray matrix) (r t : nat) :
  wf_matrix regions -> wf_matrix vs ->
  nth 1 (shape vs) 0%nat = nth 1 (shape regions) 0%nat ->
  least_squares (transpose regions) (transpose vs)
                (lstsq (transpose regions) (transpose vs)) ->
  (r < nth 0 (shape regions) 0)%nat -> (t < nth 0 (shape vs) 0)%nat ->
  (forall r' v, (r' < nth 0 (shape regions) 0)%nat -> r' <> r ->
     (v < nth 1 (shape regions) 0)%nat ->
     ~ entry (items regions) r v == 0 -> entry (items regions) r' v == 0) ->
  entry (items (apply_regions lstsq vs regions false)) t r *
  bigsum (nth 1 (shape regions) 0%nat)
         (fun v => entry (items regions) r v * entry (items regions) r v) ==
  bigsum (nth 1 (shape regions) 0%nat)
         (fun v => entry (items regions) r v * entry (items vs) t v).
Proof.
  intros Hreg Hvs Hvox Hls Hr Ht Hdisj.
  set (n_regions := nth 0 (shape regions) 0%nat) in *.
  set (n_vox := nth 1 (shape regions) 0%nat) in *.
  set (n_scans := nth 0 (shape vs) 0%nat) in *.
  set (a := transpose regions) in *.
  set (b := transpose vs) in *.
  set (x := lstsq a b) in *.
  assert (Hsa : shape a = [n_vox; n_regions]) by (apply transpose_shape_eq, Hreg).
  assert (Hsb : shape b = [n_vox; n_scans]).
  { unfold b. rewrite (transpose_shape_eq vs Hvs), Hvox. reflexivity. }
  pose proof Hls as (Hx & Hsx & _). rewrite Hsa, Hsb in Hsx. simpl in Hsx.
  destruct (apply_regions_entry lstsq vs regions t r Hreg Hx Hsx Ht Hr)
    as [Hraw _].
  fold a b x in Hraw. rewrite Hraw.
  set (w := fun v => entry (items regions) r v).
  pose proof (normal_equations a b x n_vox n_regions n_scans
                (transpose_wf _ Hreg) Hx Hsa Hsb Hsx r t Hls Hr Ht) as Hne.
  assert (Hterm : forall v, (v < n_vox)%nat ->
            entry (items a) v r *
            (dot (nth v (items a) []) (column 0 (items x) t) - entry (items b) v t) ==
            entry (items x) r t * (w v * w v) - w v * entry (items vs) t v).
  { intros v Hv.
    rewrite (dot_column a n_vox n_regions n_scans (transpose_wf _ Hreg) Hsa x v t
               Hx Hsx Hv).
    assert (Ea : forall k, (k < n_regions)%nat ->
              entry (items a) v k = entry (items regions) k v).
    { intros k Hk. apply transpose_entry; assumption. }
    assert (Eb : entry (items b) v t = entry (items vs) t v).
    { apply transpose_entry; [exact Hvs|rewrite Hvox; exact Hv|exact Ht]. }
    rewrite (Ea r Hr), Eb. fold (w v).
    destruct (Qeq_dec (w v) 0) as [Hz|Hnz].
    - rewrite Hz. ring.
    - assert (Hdot : bigsum n_regions
                (fun k => entry (items a) v k * entry (items x) k t) ==
              w v * entry (items x) r t).
      { etransitivity.
        - apply (bigsum_single n_regions r); [exact Hr|]. intros k Hk Hkr.
          rewrite (Ea k Hk), (Hdisj k v Hk Hkr Hv Hnz). ring.
        - cbv beta. rewrite (Ea r Hr). reflexivity. }
      rewrite Hdot. ring. }
  assert (HG : entry (items x) r t * bigsum n_vox (fun v => w v * w v)
               - bigsum n_vox (fun v => w v * entry (items vs) t v) == 0).
  { rewrite <- Hne. rewrite <- bigsum_scale.
    transitivity (bigsum n_vox
                    (fun v => entry (items x) r t * (w v * w v)
                              + - (w v * entry (items vs) t v))).
    - rewrite bigsum_plus.
      assert (Hopp : bigsum n_vox (fun v => - (w v * entry (items vs) t v)) ==
                     - bigsum n_vox (fun v => w v * entry (items vs) t v)).
      { transitivity (bigsum n_vox (fun v => (-1) * (w v * entry (items vs) t v))).
        - apply bigsum_ext. intros; ring.
        - rewrite bigsum_scale. ring. }
      rewrite Hopp. ring.
    - apply bigsum_ext. intros v Hv. rewrite (Hterm v Hv). ring. }
  unfold w in *. cbv beta in *. lra.
Qed.

(** X5.  When [regions_are_overlapping] answers [False] on the 2D array of
    weights, the signal that [apply_regions] gives, at each instant, to a
    region with a non-zero weight is the projection of the voxel signals on
    the weights of that region alone: sum(weight * signal) / sum(weight ** 2)
    over the voxels, whatever the other regions are. *)
Theorem apply_regions_no_overlap :
  forall (lstsq : ndarray matrix -> ndarray matrix -> ndarray matrix)
         (voxel_signals regions : ndarray matrix) (r t : nat),
    wf_matrix regions -> wf_matrix voxel_signals ->
    nth 1 (shape voxel_signals) 0%nat = nth 1 (shape regions) 0%nat ->
    least_squares (transpose regions) (transpose voxel_signals)
                  (lstsq (transpose regions) (transpose voxel_signals)) ->
    regions_are_overlapping (OverlapMasked regions) = Ok false ->
    (r < nth 0 (shape regions) 0)%nat ->
    (t < nth 0 (shape voxel_signals) 0)%nat ->
    (exists v, (v < nth 1 (shape regions) 0)%nat /\
               ~ entry (items regions) r v == 0) ->
    entry (items (apply_regions lstsq voxel_signals regions false)) t r ==
    bigsum (nth 1 (shape regions) 0%nat)
           (fun v => entry (items regions) r v * entry (items voxel_signals) t v)
    / bigsum (nth 1 (shape regions) 0%nat)
             (fun v => entry (items regions) r v * entry (items regions) r v).
Proof.
  intros lstsq vs regions r t Hreg Hvs Hvox Hls Hno Hr Ht (v & Hv & Hnz).
  simpl in Hno. injection Hno as Hno.
  pose proof (region_projection lstsq vs regions r t Hreg Hvs Hvox Hls Hr Ht) as E.
  assert (Hdisj : forall r' u, (r' < nth 0 (shape regions) 0)%nat -> r' <> r ->
            (u < nth 1 (shape regions) 0)%nat ->
            ~ entry (items regions) r u == 0 -> entry (items regions) r' u == 0).
  { intros r' u Hr' Hne Hu Hw.
    apply (masked_no_overlap regions r r' u); assumption. }
  specialize (E Hdisj).
  set (S2 := bigsum _ (fun v => entry (items regions) r v * entry (items regions) r v))
    in *.
  assert (HS2 : ~ S2 == 0).
  { intros HS2. apply Hnz.
    apply (bigsum_squares_zero _ (fun u => entry (items regions) r u) HS2 v Hv). }
  rewrite <- E. field. exact HS2.
Qed.

Lemma apply_regions_no_overlap_witness :
  let lstsq := fun a b : ndarray matrix => NdArray [2; 1]%nat [[2]; [4]] in
  let regions := NdArray [2; 3]%nat [[2; 1; 0]; [0; 0; 3]] in
  let voxel_signals := NdArray [1; 3]%nat [[4; 2; 12]] in
  entry (items (apply_regions lstsq voxel_signals regions false)) 0 0 ==
  bigsum 3 (fun v => entry (items regions) 0 v * entry (items voxel_signals) 0 v)
  / bigsum 3 (fun v => entry (items regions) 0 v * entry (items regions) 0 v).
Proof.
  intros lstsq regions voxel_signals.
  refine (apply_regions_no_overlap lstsq voxel_signals regions 0 0
            _ _ _ _ _ _ _ _).
  - split; [reflexivity|]. split; [reflexivity|]. repeat constructor.
  - split; [reflexivity|]. split; [reflexivity|]. repeat constructor.
  - reflexivity.
  - split; [|split; [reflexivity|]].
    + split; [reflexivity|]. split; [reflexivity|]. repeat constructor.
    + intros x' _ _.
      assert (E : residual (transpose regions) (transpose voxel_signals)
                    (lstsq (transpose regions) (transpose voxel_signals)) == 0)
        by reflexivity.
      rewrite E. apply residual_nonneg.
  - reflexivity.
  - simpl. lia.
  - simpl. lia.
  - exists 0%nat. split; [simpl; lia|discriminate].
Defined.

(** ** [unapply_regions] and back *)

Lemma bigsum_nonneg_zero (n : nat) (f : nat -> Q) :
  (forall k, (k < n)%nat -> 0 <= f k) -> bigsum n f == 0 ->
  forall k, (k < n)%nat -> f k == 0.
Proof.
  induction n as [|n IH]; intros Hnn Hz k Hk; [lia|].
  rewrite bigsum_S in Hz.
  assert (H0 : 0 <= bigsum n f) by (apply bigsum_nonneg; intros; apply Hnn; lia).
  assert (Hn : 0 <= f n) by (apply Hnn; lia).
  destruct (Nat.eq_dec k n) as [->|Hne]; [lra|].
  apply IH; [intros; apply Hnn; lia|lra|lia].
Qed.

Lemma unapply_regions_wf (region_signals regions : ndarray matrix) :
  wf_matrix region_signals ->
  wf_matrix (unapply_regions region_signals regions) /\
  shape (unapply_regions region_signals regions) =
    [nth 0 (shape region_signals) 0%nat; nth 1 (shape regions) 0%nat].
Proof.
  intros (_ & Hlen & _). split; [|reflexivity].
  split; [reflexivity|]. split.
  - simpl. rewrite length_map. exact Hlen.
  - simpl. apply List.Forall_forall. intros row Hin.
    apply in_map_iff in Hin. destruct Hin as (row' & <- & _).
    rewrite length_map, length_seq. reflexivity.
Qed.

(** [np.dot]: an entry of the product. *)
Lemma unapply_regions_entry (region_signals regions : ndarray matrix) (t v : nat) :
  wf_matrix region_signals -> wf_matrix regions ->
  nth 1 (shape region_signals) 0%nat = nth 0 (shape regions) 0%nat ->
  (t < nth 0 (shape region_signals) 0)%nat -> (v < nth 1 (shape regions) 0)%nat ->
  entry (items (unapply_regions region_signals regions)) t v ==
  bigsum (nth 0 (shape regions) 0%nat)
         (fun k => entry (items region_signals) t k * entry (items regions) k v).
Proof.
  intros (_ & Hlen & Hrows) (_ & Hlen' & _) Hn Ht Hv.
  unfold unapply_regions, entry at 1. simpl items.
  rewrite (nth_map_lt _ _ _ [] []) by lia.
  rewrite nth_map_seq by lia.
  assert (Hrow : length (nth t (items region_signals) []) =
                 nth 0 (shape regions) 0%nat).
  { rewrite <- Hn. apply (proj1 (List.Forall_forall _ _) Hrows).
    apply nth_In. lia. }
  rewrite (dot_bigsum _ _ (nth 0 (shape regions) 0%nat) Hrow)
    by (rewrite length_column; exact Hlen').
  apply bigsum_ext. intros k Hk.
  rewrite entry_column by lia. reflexivity.
Qed.

(** The least-squares solution of an equation that has an exact solution
    [y] satisfies every equation exactly. *)
Lemma exact_fit (a b x y : ndarray matrix) (n_rows n_cols n_rhs : nat) :
  shape a = [n_rows; n_cols] -> shape b = [n_rows; n_rhs] ->
  least_squares a b x -> wf_matrix y -> shape y = shape x ->
  residual a b y == 0 ->
  forall i j, (i < n_rows)%nat -> (j < n_rhs)%nat ->
    dot (nth i (items a) []) (column 0 (items x) j) == entry (items b) i j.
Proof.
  intros Hsa Hsb (_ & _ & Hmin) Hy Hsy Hy0 i j Hi Hj.
  assert (Hx0 : residual a b x == 0).
  { pose proof (Hmin y Hy Hsy) as Hle. pose proof (residual_nonneg a b x) as Hge.
    rewrite Hy0 in Hle. lra. }
  rewrite (residual_bigsum a b n_rows n_cols n_rhs Hsa Hsb x) in Hx0.
  assert (Hrow : bigsum n_rhs
            (fun j => (dot (nth i (items a) []) (column 0 (items x) j)
                       - entry (items b) i j) *
                      (dot (nth i (items a) []) (column 0 (items x) j)
                       - entry (items b) i j)) == 0).
  { apply (bigsum_nonneg_zero n_rows
             (fun i => bigsum n_rhs
                (fun j => (dot (nth i (items a) []) (column 0 (items x) j)
                           - entry (items b) i j) *
                          (dot (nth i (items a) []) (column 0 (items x) j)
                           - entry (items b) i j))));
      [|exact Hx0|exact Hi].
    intros k _. apply bigsum_nonneg. intros l _. cbv beta.
    match goal with |- 0 <= ?q * ?q => generalize q end. intros q. nra. }
  pose proof (bigsum_squares_zero n_rhs
                (fun j => dot (nth i (items a) []) (column 0 (items x) j)
                          - entry (items b) i j) Hrow j Hj) as Hd.
  cbv beta in Hd. lra.
Qed.

(** X6.  The inverse problem of [apply_regions].  If the voxel signals are
    exactly the products of region signals and [regions] (what
    [np.dot(region_signals, regions)] of [unapply_regions] is when no product
    and no sum is rounded), the rows of [regions] are linearly independent
    and the solver returns a least-squares solution, then [apply_regions]
    (without normalisation) returns these region signals.  Nothing is said
    of a product or a solution that has been rounded. *)
Theorem apply_unapply_round_trip :
  forall (lstsq : ndarray matrix -> ndarray matrix -> ndarray matrix)
         (region_signals regions voxel_signals : ndarray matrix) (t r : nat),
    wf_matrix region_signals -> wf_matrix regions -> wf_matrix voxel_signals ->
    nth 1 (shape region_signals) 0%nat = nth 0 (shape regions) 0%nat ->
    shape voxel_signals =
      [nth 0 (shape region_signals) 0%nat; nth 1 (shape regions) 0%nat] ->
    (forall j v, (j < nth 0 (shape region_signals) 0)%nat ->
                 (v < nth 1 (shape regions) 0)%nat ->
       entry (items voxel_signals) j v ==
       bigsum (nth 0 (shape regions) 0%nat)
              (fun k => entry (items region_signals) j k *
                        entry (items regions) k v)) ->
    independent_rows regions ->
    least_squares (transpose regions) (transpose voxel_signals)
                  (lstsq (transpose regions) (transpose voxel_signals)) ->
    (t < nth 0 (shape region_signals) 0)%nat ->
    (r < nth 0 (shape regions) 0)%nat ->
    entry (items (apply_regions lstsq voxel_signals regions false)) t r ==
    entry (items region_signals) t r.
Proof.
  intros lstsq rs regions vs t r Hrs Hreg Hvs Hn Hsvs Hprod Hind Hls Ht Hr.
  set (n_regions := nth 0 (shape regions) 0%nat) in *.
  set (n_vox := nth 1 (shape regions) 0%nat) in *.
  set (n_scans := nth 0 (shape rs) 0%nat) in *.
  assert (Hvs0 : nth 0 (shape vs) 0%nat = n_scans) by (rewrite Hsvs; reflexivity).
  assert (Hvs1 : nth 1 (shape vs) 0%nat = n_vox) by (rewrite Hsvs; reflexivity).
  set (a := transpose regions) in *.
  set (b := transpose vs) in *.
  set (x := lstsq a b) in *.
  assert (Hsa : shape a = [n_vox; n_regions]) by (apply transpose_shape_eq, Hreg).
  assert (Hsb : shape b = [n_vox; n_scans]).
  { unfold b. rewrite (transpose_shape_eq vs Hvs), Hvs0, Hvs1. reflexivity. }
  pose proof Hls as (Hx & Hsx & _). rewrite Hsa, Hsb in Hsx. simpl in Hsx.
  assert (Ea : forall v k, (v < n_vox)%nat -> (k < n_regions)%nat ->
            entry (items a) v k = entry (items regions) k v).
  { intros v k Hv Hk. apply transpose_entry; assumption. }
  assert (Eb : forall v j, (v < n_vox)%nat -> (j < n_scans)%nat ->
            entry (items b) v j ==
            bigsum n_regions
                   (fun k => entry (items rs) j k * entry (items regions) k v)).
  { intros v j Hv Hj. unfold b.
    rewrite transpose_entry by (rewrite ?Hvs0, ?Hvs1; assumption).
    apply Hprod; assumption. }
  (* the region signals themselves solve the equation *)
  set (y := transpose rs).
  assert (Hy : wf_matrix y) by (apply transpose_wf, Hrs).
  assert (Hsy : shape y = shape x).
  { unfold y. rewrite (transpose_shape_eq rs Hrs), Hn, Hsx. reflexivity. }
  assert (Hy0 : residual a b y == 0).
  { rewrite (residual_bigsum a b n_vox n_regions n_scans Hsa Hsb y).
    apply bigsum_zero. intros v Hv. apply bigsum_zero. intros j Hj.
    rewrite (dot_column a n_vox n_regions n_scans (transpose_wf _ Hreg) Hsa y v j
               Hy (eq_trans Hsy Hsx) Hv).
    rewrite (Eb v j Hv Hj).
    assert (E : bigsum n_regions (fun k => entry (items a) v k * entry (items y) k j)
                == bigsum n_regions
                     (fun k => entry (items rs) j k * entry (items regions) k v)).
    { apply bigsum_ext. intros k Hk. rewrite (Ea v k Hv Hk). unfold y.
      rewrite transpose_entry by (try rewrite Hn; assumption). ring. }
    rewrite E. ring. }
  pose proof (exact_fit a b x y n_vox n_regions n_scans Hsa Hsb Hls Hy Hsy Hy0)
    as Hfit.
  destruct (apply_regions_entry lstsq vs regions t r Hreg Hx) as [Hraw _].
  { rewrite Hvs0. exact Hsx. }
  { rewrite Hvs0. exact Ht. }
  { exact Hr. }
  fold a b x in Hraw. rewrite Hraw.
  assert (Hu : entry (items x) r t - entry (items rs) t r == 0).
  { apply (Hind (fun k => entry (items x) k t - entry (items rs) t k)); [|exact Hr].
    intros v Hv. fold n_regions.
    pose proof (Hfit v t Hv Ht) as Hd.
    rewrite (dot_column a n_vox n_regions n_scans (transpose_wf _ Hreg) Hsa x v t
               Hx Hsx Hv) in Hd.
    rewrite (Eb v t Hv Ht) in Hd.
    transitivity (bigsum n_regions
                    (fun k => entry (items a) v k * entry (items x) k t)
                  + (-1) * bigsum n_regions
                      (fun k => entry (items rs) t k * entry (items regions) k v)).
    - rewrite <- bigsum_scale, <- bigsum_plus. apply bigsum_ext.
      intros k Hk. rewrite (Ea v k Hv Hk). ring.
    - rewrite Hd. ring. }
  lra.
Qed.

Lemma apply_unapply_round_trip_witness :
  let lstsq := fun a b : ndarray matrix => NdArray [2; 1]%nat [[3]; [5]] in
  let regions := NdArray [2; 2]%nat [[1; 0]; [1; 2]] in
  let region_signals := NdArray [1; 2]%nat [[3; 5]] in
  let voxel_signals := NdArray [1; 2]%nat [[8; 10]] in
  entry (items (apply_regions lstsq voxel_signals regions false)) 0 1 == 5.
Proof.
  intros lstsq regions region_signals voxel_signals.
  refine (apply_unapply_round_trip lstsq region_signals regions voxel_signals 0 1
            _ _ _ _ _ _ _ _ _ _).
  - split; [reflexivity|]. split; [reflexivity|]. repeat constructor.
  - split; [reflexivity|]. split; [reflexivity|]. repeat constructor.
  - split; [reflexivity|]. split; [reflexivity|]. repeat constructor.
  - reflexivity.
  - reflexivity.
  - intros j v Hj Hv. simpl in Hj, Hv.
    destruct j as [|j]; [|lia]. destruct v as [|[|v]]; [reflexivity|reflexivity|lia].
  - intros u Hu k Hk.
    pose proof (Hu 0%nat ltac:(simpl; lia)) as H0.
    pose proof (Hu 1%nat ltac:(simpl; lia)) as H1.
    unfold bigsum, entry in H0, H1. simpl in H0, H1, Hk.
    destruct k as [|[|k]]; [lra|lra|lia].
  - split; [|split; [reflexivity|]].
    + split; [reflexivity|]. split; [reflexivity|]. repeat constructor.
    + intros x' _ _.
      assert (E : residual (transpose regions) (transpose voxel_signals)
                    (lstsq (transpose regions) (transpose voxel_signals)) == 0)
        by reflexivity.
      rewrite E. apply residual_nonneg.
  - simpl. lia.
  - simpl. lia.
Defined.

(** ** From region signals to an image and back *)

Lemma affine_mismatch_refl (a : list Q) : affine_mismatch a a = false.
Proof.
  apply Qgtb_le. unfold max_abs_diff.
  assert (H : fold_right Qmax 0 (map2 (fun x y => Qabs (x - y)) a a) <= 0).
  { induction a as [|x a IH]; [apply Qle_refl|].
    cbn [map2 fold_right]. apply Q.max_lub; [|exact IH].
    apply Qabs_Qle_condition. split; lra. }
  eapply Qle_trans; [exact H|]. discriminate.
Qed.

(** X7.  Region signals turned into an image by [img_from_labels] are read
    back by [signals_from_labels], with the same label image, mask and
    background label, whatever the type of the numbers and the dtype of the
    labels: same list of labels, same shape, and each signal read back is
    the mean of as many copies of the original signal as the region has
    voxels (at least one); so it is the original signal as far as the sum
    and the division of that mean are exact. *)
Theorem signals_round_trip :
  forall (R : Type) (number : Number R) (dt : dtype)
         (signals : ndarray (list (list R))) (labels_img : niimg (volume Z))
         (mask_img : option (niimg (volume Z))) (background_label : Z),
    wf_matrix signals ->
    wf_volume (get_data labels_img) ->
    mask_fits mask_img (get_shape labels_img) (get_affine labels_img) ->
    let labels :=
      region_labels (masked_labels dt labels_img mask_img background_label)
                    background_label in
    nth 1 (shape signals) 0%nat = length labels ->
    exists img signals',
      img_from_labels dt signals labels_img mask_img background_label = Ok img /\
      signals_from_labels dt img labels_img mask_img background_label =
        Ok (signals', labels) /\
      shape signals' = shape signals /\
      forall t n, (t < nth 0 (shape signals) 0)%nat -> (n < length labels)%nat ->
        let k := length (region_voxels dt labels_img mask_img background_label
                           (nth n labels 0%Z)) in
        (0 < k)%nat /\
        item (items signals') t n = mean (repeat (item (items signals) t n) k).
Proof.
  intros R number dt signals labels_img mask_img bg Hsig Hwf Hm labels Hcols.
  pose proof Hsig as (Hrank & Hlen & Hrows).
  set (n_scans := nth 0 (shape signals) 0%nat) in *.
  destruct (img_from_labels_spec dt signals labels_img mask_img bg Hwf Hm)
    as (out & Heq & Hlo & Hout).
  { fold labels. rewrite <- Hcols. lia. }
  fold labels n_scans in Heq, Hout.
  set (img := Niimg (NdArray (get_shape labels_img ++ [n_scans]) out)
                    (get_affine labels_img)) in *.
  pose proof Hwf as [Hrank3 Hitems3]. fold (get_shape labels_img) in Hrank3.
  assert (Hfirst : firstn 3 (get_shape img) = get_shape labels_img).
  { unfold img, get_shape at 1. simpl.
    rewrite List.firstn_app, firstn_all2 by lia.
    replace (3 - length (get_shape labels_img))%nat with 0%nat by lia.
    simpl. apply app_nil_r. }
  assert (Hlast : nth 3 (get_shape img) 0%nat = n_scans).
  { unfold img, get_shape at 1. simpl. rewrite app_nth2 by lia.
    replace (3 - length (get_shape labels_img))%nat with 0%nat by lia.
    reflexivity. }
  (* the rows of the image *)
  assert (Hrow : forall v, (v < n_voxels (get_shape labels_img))%nat ->
            length (nth v out []) = n_scans).
  { intros v Hv. destruct (Hout v Hv) as [Hhit Hmiss].
    set (l := masked_label dt labels_img mask_img bg v) in *.
    destruct (Z.eq_dec l bg) as [Hbg|Hne].
    - rewrite (Hmiss Hbg). apply repeat_length.
    - assert (Hl : In l labels).
      { eapply region_labels_present; eauto. split; [exact Hne|].
        exists v. apply region_voxels_In. split; [exact Hv|reflexivity]. }
      apply (In_nth _ _ 0%Z) in Hl. destruct Hl as (n & Hn & Hnl).
      rewrite (Hhit n Hn Hnl), length_column. exact Hlen. }
  assert (Hfit : labels_fit img labels_img mask_img).
  { split; [|split; [exact Hwf|split; [symmetry; exact Hfirst|split]]].
    - split; [|split].
      + unfold img. simpl. rewrite length_app. simpl. lia.
      + unfold img. simpl. rewrite n_voxels_app by exact Hrank3. exact Hlo.
      + fold (get_shape img). rewrite Hlast. simpl get_data. simpl items.
        apply List.Forall_forall. intros row Hin.
        apply (In_nth _ _ []) in Hin. destruct Hin as (v & Hv & <-).
        apply Hrow. lia.
    - apply affine_mismatch_refl.
    - rewrite Hfirst. exact Hm. }
  exists img. eexists. split; [exact Heq|].
  rewrite (signals_from_labels_run dt _ _ _ bg Hfit). fold labels. rewrite Hlast.
  split; [reflexivity|]. split.
  - simpl. rewrite (wf_matrix_shape _ Hsig). fold n_scans. rewrite Hcols.
    reflexivity.
  - intros t n Ht Hn k. simpl items.
    pose proof (signals_entry dt img labels_img mask_img bg t n Hfit) as He.
    cbv zeta in He. fold labels in He. rewrite Hlast in He.
    change (items (get_data img)) with out in He.
    set (l := nth n labels 0%Z) in *.
    assert (Hl : In l labels) by (apply nth_In; exact Hn).
    pose proof (proj1 (region_labels_present dt labels_img mask_img bg _ _ l Hwf
                         eq_refl Hm) Hl) as [Hne [v0 Hv0]].
    split.
    + unfold k. destruct (region_voxels dt labels_img mask_img bg l);
        [destruct Hv0|simpl; lia].
    + rewrite (He Ht Hn). f_equal. apply map_const.
      intros v Hv. apply region_voxels_In in Hv. destruct Hv as (Hv & Hlab).
      destruct (Hout v Hv) as [Hhit _].
      unfold item at 1. rewrite (Hhit n Hn (eq_sym Hlab)).
      apply nth_column. lia.
Qed.

Lemma signals_round_trip_witness :
  let aff := repeat 1 16 in
  let signals := NdArray [2; 2]%nat [[10; 30]; [20; 40]] in
  let labels_img := Niimg (NdArray [2; 2; 1]%nat [3; 1; 3; 0]%Z) aff in
  let mask_img := Some (Niimg (NdArray [2; 2; 1]%nat [1; 1; 0; 1]%Z) aff) in
  exists img signals',
    img_from_labels int64 signals labels_img mask_img 0%Z = Ok img /\
    signals_from_labels int64 img labels_img mask_img 0%Z =
      Ok (signals', [1; 3]%Z) /\
    shape signals' = shape signals /\
    forall t n, (t < 2)%nat -> (n < 2)%nat ->
      let k := length (region_voxels int64 labels_img mask_img 0%Z
                         (nth n [1; 3]%Z 0%Z)) in
      (0 < k)%nat /\
      item (items signals') t n = mean (repeat (item (items signals) t n) k).
Proof.
  intros aff signals labels_img mask_img.
  apply (signals_round_trip Q Q_number int64 signals labels_img mask_img 0%Z).
  - split; [reflexivity|]. split; [reflexivity|]. repeat constructor.
  - split; reflexivity.
  - intros m [= <-]. split; [split; reflexivity|]. split; reflexivity.
  - reflexivity.
Defined.

(** ** [_trim_maps]: the mask, twice, and the merged mask *)

(** X8.  In the maps returned by [_trim_maps], a voxel outside the mask has
    weight zero in every map, and a voxel inside keeps, in map [j], the
    weight it has in the input map whose index is the [j]-th one returned. *)
Theorem trim_maps_masked :
  forall (maps : ndarray (stack Q)) (mask : ndarray (volume Z)),
    maps_fit maps mask ->
    let '(trimmed_maps, _, indices) := _trim_maps maps mask in
    forall v j, (v < n_voxels (shape maps))%nat -> (j < length indices)%nat ->
      (inside mask v = false -> entry (items trimmed_maps) v j = 0) /\
      (inside mask v = true ->
       entry (items trimmed_maps) v j = entry (items maps) v (nth j indices 0%nat)).
Proof.
  intros maps mask Hfit.
  pose proof (trim_maps_spec maps mask Hfit) as Hspec. cbv zeta in Hspec.
  destruct (_trim_maps maps mask) as [[trimmed union] indices].
  destruct Hspec as (_ & _ & _ & _ & Hentry & _).
  intros v j Hv Hj. rewrite (Hentry v j Hv Hj).
  split; intros ->; reflexivity.
Qed.

Lemma trim_maps_masked_witness :
  let maps := NdArray [2; 2; 1; 3]%nat [[1; 0; 0]; [-1; 0; 2]; [5; 0; 6]; [0; 0; -7]] in
  let mask := NdArray [2; 2; 1]%nat [1; 1; 0; 1]%Z in
  let trimmed_maps := fst (fst (_trim_maps maps mask)) in
  let indices := snd (_trim_maps maps mask) in
  (inside mask 2 = false -> entry (items trimmed_maps) 2 1 = 0) /\
  (inside mask 1 = true ->
   entry (items trimmed_maps) 1 1 = entry (items maps) 1 (nth 1 indices 0%nat)).
Proof.
  intros maps mask.
  assert (Hfit : maps_fit maps mask).
  { split; [|split; [split; reflexivity|reflexivity]].
    split; [reflexivity|]. split; [reflexivity|]. repeat constructor. }
  pose proof (trim_maps_masked maps mask Hfit) as H.
  assert (Hi : (1 < length (snd (_trim_maps maps mask)))%nat) by (vm_compute; lia).
  destruct (_trim_maps maps mask) as [[trimmed union] indices].
  simpl in *.
  split; [apply (proj1 (H 2%nat 1%nat ltac:(vm_compute; lia) Hi))
         |apply (proj2 (H 1%nat 1%nat ltac:(vm_compute; lia) Hi))].
Defined.

Lemma filter_all_true (f : nat -> bool) (l : list nat) :
  (forall n, In n l -> f n = true) -> List.filter f l = l.
Proof.
  induction l as [|x l IH]; intros H; simpl; [reflexivity|].
  rewrite (H x (or_introl eq_refl)). f_equal. apply IH.
  intros n Hn. apply H. right. exact Hn.
Qed.

Lemma filter_all_false (f : nat -> bool) (l : list nat) :
  (forall n, In n l -> f n = false) -> List.filter f l = [].
Proof.
  induction l as [|x l IH]; intros H; simpl; [reflexivity|].
  rewrite (H x (or_introl eq_refl)). apply IH.
  intros n Hn. apply H. right. exact Hn.
Qed.

(** The output of [_trim_maps] fits the mask again. *)
Lemma trim_maps_fit maps mask :
  maps_fit maps mask ->
  maps_fit (fst (fst (_trim_maps maps mask))) mask /\
  n_voxels (shape (fst (fst (_trim_maps maps mask)))) = n_voxels (shape maps) /\
  nth 3 (shape (fst (fst (_trim_maps maps mask)))) 0%nat =
    length (snd (_trim_maps maps mask)).
Proof.
  intros Hfit.
  pose proof (trim_maps_spec maps mask Hfit) as Hspec. cbv zeta in Hspec.
  destruct (_trim_maps maps mask) as [[trimmed union] indices]. simpl.
  destruct Hspec as (_ & Hsh & Hlen & Hrows & _).
  destruct Hfit as ((H4 & _) & Hmask & Hshape).
  assert (H3 : length (firstn 3 (shape maps)) = 3%nat)
    by (rewrite length_firstn; lia).
  assert (Hnv : n_voxels (shape trimmed) = n_voxels (shape maps)).
  { rewrite Hsh, n_voxels_app, n_voxels_firstn by exact H3. reflexivity. }
  assert (Hlast : nth 3 (shape trimmed) 0%nat = length indices).
  { rewrite Hsh, app_nth2, H3 by lia. reflexivity. }
  split; [|split; assumption].
  split; [|split; [exact Hmask|]].
  - split; [rewrite Hsh, length_app, H3; reflexivity|].
    split; [lia|]. rewrite Hlast. exact Hrows.
  - rewrite Hshape, Hsh, List.firstn_app, H3. simpl.
    rewrite app_nil_r. symmetry. apply firstn_all2. rewrite H3. lia.
Qed.

(** X9.  Trimming twice changes nothing: on its own output and the same
    mask, [_trim_maps] returns the same maps and the same union mask, and
    keeps every map. *)
Theorem trim_maps_idempotent :
  forall (maps : ndarray (stack Q)) (mask : ndarray (volume Z)),
    maps_fit maps mask ->
    let '(trimmed_maps, maps_mask, indices) := _trim_maps maps mask in
    _trim_maps trimmed_maps mask =
      (trimmed_maps, maps_mask, seq 0 (length indices)).
Proof.
  intros maps mask Hfit.
  pose proof (trim_maps_spec maps mask Hfit) as S1. cbv zeta in S1.
  pose proof (trim_maps_fit maps mask Hfit) as (Hfit' & Hnv & Hlast).
  destruct (_trim_maps maps mask) as [[T U] I]. simpl in Hfit', Hnv, Hlast.
  destruct S1 as (HI & HshT & HlenT & HrowsT & HentT & HshU & HlenU & HmarkU).
  pose proof (trim_maps_spec T mask Hfit') as S2. cbv zeta in S2.
  rewrite Hnv, Hlast in S2.
  destruct (_trim_maps T mask) as [[T' U'] I'].
  destruct S2 as (HI' & HshT' & HlenT' & HrowsT' & HentT' & HshU' & HlenU' & HmarkU').
  assert (EI : I' = seq 0 (length I)).
  { rewrite HI'. apply filter_all_true. intros j Hj. apply in_seq in Hj.
    assert (Hin : In (nth j I 0%nat) I) by (apply nth_In; lia).
    rewrite HI in Hin at 2. apply filter_In in Hin. destruct Hin as [_ Hnz].
    unfold nonzero_inside in Hnz |- *.
    apply existsb_exists in Hnz. destruct Hnz as (v & Hv & Hc).
    apply in_seq in Hv. apply existsb_exists. exists v.
    split; [apply in_seq; lia|].
    apply andb_true_iff in Hc. destruct Hc as [Hins Hne].
    rewrite Hins. simpl. rewrite (HentT v j) by lia. rewrite Hins. exact Hne. }
  clear HI'. subst I'. rewrite length_seq in *.
  assert (H3 : length (firstn 3 (shape maps)) = 3%nat).
  { destruct Hfit as ((H4 & _) & _). rewrite length_firstn. lia. }
  assert (ET : T' = T).
  { destruct T as [shT itT], T' as [shT' itT']. simpl in *. f_equal.
    - rewrite HshT', HshT, List.firstn_app, H3. simpl.
      rewrite app_nil_r, firstn_all2 by lia. reflexivity.
    - apply (list_eq_nth _ _ []); [lia|]. intros v Hv.
      assert (Hr' : length (nth v itT' []) = length I).
      { apply (proj1 (List.Forall_forall _ _) HrowsT'). apply nth_In. exact Hv. }
      assert (Hr : length (nth v itT []) = length I).
      { apply (proj1 (List.Forall_forall _ _) HrowsT). apply nth_In. lia. }
      apply (list_eq_nth _ _ 0); [lia|]. intros j Hj.
      change (entry itT' v j = entry itT v j).
      rewrite (HentT' v j) by lia. rewrite seq_nth by lia. simpl.
      destruct (inside mask v) eqn:Hins; [reflexivity|].
      rewrite (HentT v j) by lia. rewrite Hins. reflexivity. }
  subst T'. f_equal. f_equal.
  destruct U as [shU itU], U' as [shU' itU']. simpl in *. f_equal.
  - congruence.
  - apply (list_eq_nth _ _ 0%Z); [lia|]. intros v Hv.
    rewrite HmarkU', HmarkU by lia. reflexivity.
Qed.

Lemma trim_maps_idempotent_witness :
  let maps := NdArray [2; 2; 1; 3]%nat [[1; 0; 0]; [-1; 0; 2]; [5; 0; 6]; [0; 0; -7]] in
  let mask := NdArray [2; 2; 1]%nat [1; 1; 0; 1]%Z in
  let '(trimmed_maps, maps_mask, indices) := _trim_maps maps mask in
  _trim_maps trimmed_maps mask = (trimmed_maps, maps_mask, seq 0 (length indices)).
Proof.
  apply (trim_maps_idempotent
           (NdArray [2; 2; 1; 3]%nat [[1; 0; 0]; [-1; 0; 2]; [5; 0; 6]; [0; 0; -7]])
           (NdArray [2; 2; 1]%nat [1; 1; 0; 1]%Z)).
  split; [|split; [split; reflexivity|reflexivity]].
  split; [reflexivity|]. split; [reflexivity|]. repeat constructor.
Defined.

(** X10.  With a mask that keeps no voxel, [_trim_maps] keeps no map: no
    index, a last axis of length 0, and a union mask of zeros. *)
Theorem trim_maps_empty_mask :
  forall (maps : ndarray (stack Q)) (mask : ndarray (volume Z)),
    maps_fit maps mask ->
    (forall v, (v < n_voxels (shape maps))%nat -> nth v (items mask) 0%Z = 0%Z) ->
    let '(trimmed_maps, maps_mask, indices) := _trim_maps maps mask in
    indices = [] /\
    shape trimmed_maps = firstn 3 (shape maps) ++ [0%nat] /\
    forall v, (v < n_voxels (shape maps))%nat ->
      nth v (items trimmed_maps) [] = [] /\ nth v (items maps_mask) 0%Z = 0%Z.
Proof.
  intros maps mask Hfit Hzero.
  pose proof (trim_maps_spec maps mask Hfit) as Hspec. cbv zeta in Hspec.
  destruct (_trim_maps maps mask) as [[trimmed union] indices].
  destruct Hspec as (Hidx & Hsh & Hlen & Hrows & _ & _ & _ & Hmark).
  assert (Hnil : indices = []).
  { rewrite Hidx. apply filter_all_false. intros n _.
    unfold nonzero_inside. apply not_true_iff_false. intros H.
    apply existsb_exists in H. destruct H as (v & Hv & Hc). apply in_seq in Hv.
    apply andb_true_iff in Hc. destruct Hc as [Hins _].
    destruct Hfit as (_ & (_ & Hml) & Hms).
    unfold inside, as_bool in Hins.
    rewrite (nth_map_lt _ _ _ 0%Z) in Hins
      by (rewrite Hml, Hms, n_voxels_firstn; lia).
    rewrite (Hzero v) in Hins by lia. discriminate. }
  clear Hidx. subst indices. split; [reflexivity|]. split; [exact Hsh|].
  intros v Hv. split.
  - apply length_zero_iff_nil.
    apply (proj1 (List.Forall_forall _ _) Hrows). apply nth_In. lia.
  - rewrite (Hmark v Hv). reflexivity.
Qed.

Lemma trim_maps_empty_mask_witness :
  let maps := NdArray [2; 1; 1; 2]%nat [[1; 0]; [-1; 2]] in
  let mask := NdArray [2; 1; 1]%nat [0; 0]%Z in
  let '(trimmed_maps, maps_mask, indices) := _trim_maps maps mask in
  indices = [] /\
  shape trimmed_maps = firstn 3 (shape maps) ++ [0%nat] /\
  forall v, (v < n_voxels (shape maps))%nat ->
    nth v (items trimmed_maps) [] = [] /\ nth v (items maps_mask) 0%Z = 0%Z.
Proof.
  apply (trim_maps_empty_mask (NdArray [2; 1; 1; 2]%nat [[1; 0]; [-1; 2]])
                              (NdArray [2; 1; 1]%nat [0; 0]%Z)).
  - split; [|split; [split; reflexivity|reflexivity]].
    split; [reflexivity|]. split; [reflexivity|]. repeat constructor.
  - intros v Hv. unfold n_voxels in Hv. simpl in Hv.
    destruct v as [|[|v]]; [reflexivity|reflexivity|lia].
Defined.

(** X11.  A voxel marked in the union mask of [_trim_maps] is inside the
    given mask and is marked in the mask that [regions_to_mask] builds from
    the same maps with threshold 0. *)
Theorem trim_union_in_merged_mask :
  forall (maps : ndarray (stack Q)) (mask : ndarray (volume Z))
         (affine : list Q) (background : Z),
    maps_fit maps mask ->
    let '(_, maps_mask, _) := _trim_maps maps mask in
    exists merged,
      regions_to_mask
        (RegionImg (Niimg (NdArray (shape maps) (Weights (items maps))) affine))
        0 background = Ok merged /\
      forall v, (v < n_voxels (shape maps))%nat ->
        nth v (items maps_mask) 0%Z = 1%Z ->
        inside mask v = true /\ nth v (items (get_data merged)) 0%Z = 1%Z.
Proof.
  intros maps mask aff bg Hfit.
  pose proof (fun v => trim_maps_support maps mask v Hfit) as Hsup.
  pose proof (trim_maps_spec maps mask Hfit) as Hspec. cbv zeta in Hspec.
  destruct (_trim_maps maps mask) as [[trimmed union] indices].
  simpl in Hsup. destruct Hspec as (_ & _ & _ & _ & _ & _ & Hlen & _).
  pose proof Hfit as ((H4 & Hitems & _) & _).
  destruct (regions_to_mask_weights 0 bg (shape maps) (items maps) aff H4 Hitems)
    as (out & Hrun & Hlo & Hout).
  eexists. split; [exact Hrun|]. intros v Hv Hone.
  specialize (Hsup v Hv). unfold as_bool in Hsup.
  rewrite (nth_map_lt _ _ _ 0%Z) in Hsup by lia.
  rewrite Hone in Hsup. simpl in Hsup. symmetry in Hsup.
  unfold in_support in Hsup. apply andb_true_iff in Hsup.
  destruct Hsup as [Hins Hex]. split; [exact Hins|].
  simpl get_data. simpl items. rewrite (Hout v Hv).
  apply existsb_exists in Hex. destruct Hex as (n & Hn & Hpos).
  assert (E : existsb (fun n => Qgtb (Qabs (nth n (nth v (items maps) []) 0)) 0)
                      (seq 0 (nth 3 (shape maps) 0%nat)) = true).
  { apply existsb_exists. exists n. split; [exact Hn|].
    apply Qgtb_lt. apply Qgtb_lt in Hpos. unfold entry in Hpos.
    eapply Qlt_le_trans; [exact Hpos|apply Qle_Qabs]. }
  rewrite E. reflexivity.
Qed.

Lemma trim_union_in_merged_mask_witness :
  let maps := NdArray [2; 2; 1; 3]%nat [[1; 0; 0]; [-1; 0; 2]; [5; 0; 6]; [0; 0; -7]] in
  let mask := NdArray [2; 2; 1]%nat [1; 1; 0; 1]%Z in
  let '(_, maps_mask, _) := _trim_maps maps mask in
  exists merged,
    regions_to_mask
      (RegionImg (Niimg (NdArray (shape maps) (Weights (items maps))) (repeat 1 16)))
      0 0%Z = Ok merged /\
    forall v, (v < n_voxels (shape maps))%nat ->
      nth v (items maps_mask) 0%Z = 1%Z ->
      inside mask v = true /\ nth v (items (get_data merged)) 0%Z = 1%Z.
Proof.
  apply (trim_union_in_merged_mask
           (NdArray [2; 2; 1; 3]%nat [[1; 0; 0]; [-1; 0; 2]; [5; 0; 6]; [0; 0; -7]])
           (NdArray [2; 2; 1]%nat [1; 1; 0; 1]%Z) (repeat 1 16) 0%Z).
  split; [|split; [split; reflexivity|reflexivity]].
  split; [reflexivity|]. split; [reflexivity|]. repeat constructor.
Defined.

(** ** [regions_to_mask]: threshold, labels, errors *)

(** X12.  The mask of [regions_to_mask] for weights holds only 0 and 1, and
    raising the threshold never adds a voxel. *)
Theorem regions_to_mask_monotone :
  forall (regions_img : regions_arg) (threshold threshold' : Q) (background : Z),
    wf_weighted regions_img -> threshold <= threshold' ->
    exists mask mask',
      regions_to_mask regions_img threshold background = Ok mask /\
      regions_to_mask regions_img threshold' background = Ok mask' /\
      forall v, (v < mask_voxels regions_img)%nat ->
        (nth v (items (get_data mask)) 0%Z = 0%Z \/
         nth v (items (get_data mask)) 0%Z = 1%Z) /\
        (nth v (items (get_data mask')) 0%Z = 1%Z ->
         nth v (items (get_data mask)) 0%Z = 1%Z).
Proof.
  intros regions_img thr thr' bg Hwf Hle.
  destruct (regions_to_mask_weighted regions_img thr bg Hwf) as (m & Hm & _ & Hv).
  destruct (regions_to_mask_weighted regions_img thr' bg Hwf) as (m' & Hm' & _ & Hv').
  exists m, m'. split; [exact Hm|]. split; [exact Hm'|].
  intros v Hlt. rewrite (Hv v Hlt), (Hv' v Hlt). split.
  - destruct (existsb _ _); auto.
  - destruct (existsb (fun w => Qgtb (Qabs w) thr') _) eqn:E'; [|discriminate].
    intros _. apply existsb_exists in E'. destruct E' as (w & Hin & Hw).
    assert (E : existsb (fun w => Qgtb (Qabs w) thr) (weights_at regions_img v) = true).
    { apply existsb_exists. exists w. split; [exact Hin|].
      apply Qgtb_lt. apply Qgtb_lt in Hw. eapply Qle_lt_trans; eassumption. }
    rewrite E. reflexivity.
Qed.

Lemma regions_to_mask_monotone_witness :
  let regions_img :=
    RegionList [Niimg (NdArray [2; 1; 1]%nat [0; 3]) (repeat 1 16);
                Niimg (NdArray [2; 1; 1]%nat [-(1 # 2); 0]) (repeat 1 16)] in
  exists mask mask',
    regions_to_mask regions_img (1 # 4) 0%Z = Ok mask /\
    regions_to_mask regions_img 1 0%Z = Ok mask' /\
    forall v, (v < mask_voxels regions_img)%nat ->
      (nth v (items (get_data mask)) 0%Z = 0%Z \/
       nth v (items (get_data mask)) 0%Z = 1%Z) /\
      (nth v (items (get_data mask')) 0%Z = 1%Z ->
       nth v (items (get_data mask)) 0%Z = 1%Z).
Proof.
  intros regions_img.
  apply (regions_to_mask_monotone regions_img (1 # 4) 1 0%Z).
  - split; [discriminate|]. repeat constructor.
  - discriminate.
Defined.

(** X13.  For an image of labels, [regions_to_mask] marks exactly the
    voxels whose label is one of those that [signals_from_labels] (without
    a mask) returns, whatever the threshold; the other voxels carry the
    background label. *)
Theorem regions_to_mask_labels :
  forall (dt : dtype) (niimgs : niimg (stack Q)) (labels_img : niimg (volume Z))
         (threshold : Q) (background : Z) (signals : ndarray matrix)
         (labels : list Z),
    wf_volume (get_data labels_img) ->
    signals_from_labels dt niimgs labels_img None background =
      Ok (signals, labels) ->
    exists mask,
      regions_to_mask
        (RegionImg (Niimg (NdArray (get_shape labels_img)
                                   (Labels (items (get_data labels_img))))
                          (get_affine labels_img)))
        threshold background = Ok mask /\
      get_shape mask = get_shape labels_img /\
      get_affine mask = get_affine labels_img /\
      forall v, (v < n_voxels (get_shape labels_img))%nat ->
        (nth v (items (get_data mask)) 0%Z = 1%Z <->
         In (nth v (items (get_data labels_img)) 0%Z) labels) /\
        (nth v (items (get_data mask)) 0%Z = 0%Z <->
         nth v (items (get_data labels_img)) 0%Z = background).
Proof.
  intros dt niimgs labels_img thr bg signals labels [Hrank Hlen] Hrun.
  assert (Hlabels : labels = region_labels (get_data labels_img) bg).
  { unfold signals_from_labels in Hrun.
    destruct (negb (shape_eqb _ _)); [discriminate|].
    destruct (affine_mismatch _ _); [discriminate|].
    simpl in Hrun. injection Hrun as _ <-. reflexivity. }
  unfold regions_to_mask, get_shape. simpl. rewrite Hrank. simpl.
  eexists. split; [reflexivity|]. split; [reflexivity|]. split; [reflexivity|].
  intros v Hv. simpl. rewrite <- Hlen in Hv.
  rewrite (nth_map_lt _ _ _ 0%Z) by exact Hv.
  rewrite Hlabels, region_labels_In.
  destruct (Z.eqb_spec (nth v (items (get_data labels_img)) 0%Z) bg) as [E|E].
  - split; split; intros H;
      solve [discriminate | reflexivity | exact E | tauto].
  - split; split; intros H;
      solve [discriminate | reflexivity | contradiction
            | split; [apply nth_In; exact Hv|exact E]].
Qed.

Lemma regions_to_mask_labels_witness :
  let aff := repeat 1 16 in
  let niimgs := Niimg (NdArray [2; 2; 1; 1]%nat [[1]; [3]; [5]; [7]]) aff in
  let labels_img := Niimg (NdArray [2; 2; 1]%nat [3; 1; 3; 0]%Z) aff in
  exists mask,
    regions_to_mask
      (RegionImg (Niimg (NdArray (get_shape labels_img)
                                 (Labels (items (get_data labels_img))))
                        (get_affine labels_img)))
      (1 # 2) 0%Z = Ok mask /\
    get_shape mask = get_shape labels_img /\
    get_affine mask = get_affine labels_img /\
    forall v, (v < n_voxels (get_shape labels_img))%nat ->
      (nth v (items (get_data mask)) 0%Z = 1%Z <->
       In (nth v (items (get_data labels_img)) 0%Z) [1; 3]%Z) /\
      (nth v (items (get_data mask)) 0%Z = 0%Z <->
       nth v (items (get_data labels_img)) 0%Z = 0%Z).
Proof.
  intros aff niimgs labels_img.
  eapply (regions_to_mask_labels int64 niimgs labels_img (1 # 2) 0%Z _ [1; 3]%Z).
  - split; reflexivity.
  - reflexivity.
Defined.

Lemma merge_list_inconsistent thr imgs : forall output,
  Exists (fun r : niimg (volume Q) => get_shape r <> shape output) imgs ->
  merge_list thr imgs output = Raise (ValueError "Inconsistent shape in input list").
Proof.
  induction imgs as [|r rest IH]; intros output H; [inversion H|].
  simpl. destruct (shape_eqb (get_shape r) (shape output)) eqn:E; simpl;
    [|reflexivity].
  apply IH. simpl. inversion H as [? ? Hne|? ? Hrest]; subst; [|exact Hrest].
  exfalso. apply Hne. unfold shape_eqb in E.
  apply bool_decide_eq_true in E. exact E.
Qed.

(** X14.  What [regions_to_mask] raises on a list: [StopIteration] on an
    empty list, a [ValueError] when the first image has not three axes, and
    the [ValueError] of inconsistent shapes when a later image has not the
    shape of the first one. *)
Theorem regions_to_mask_list_errors :
  forall (threshold : Q) (background : Z),
    regions_to_mask (RegionList []) threshold background = Raise StopIteration /\
    (forall first rest,
       length (get_shape first) <> 3%nat ->
       exists msg,
         regions_to_mask (RegionList (first :: rest)) threshold background =
           Raise (ValueError msg)) /\
    (forall first rest,
       length (get_shape first) = 3%nat ->
       Exists (fun r => get_shape r <> get_shape first) rest ->
       regions_to_mask (RegionList (first :: rest)) threshold background =
         Raise (ValueError "Inconsistent shape in input list")).
Proof.
  intros thr bg. split; [reflexivity|]. split.
  - intros first rest Hrank. eexists. simpl.
    destruct (Nat.eqb_spec (length (get_shape first)) 3) as [E|E];
      [contradiction|]. reflexivity.
  - intros first rest Hrank Hex. simpl. rewrite Hrank. simpl.
    rewrite (shape_eqb_eq _ _ eq_refl). simpl.
    rewrite merge_list_inconsistent; [reflexivity|]. exact Hex.
Qed.

Lemma regions_to_mask_list_errors_witness :
  (exists msg,
     regions_to_mask
       (RegionList [Niimg (NdArray [2; 1]%nat [0; 3]) (repeat 1 16)]) 0 0%Z =
       Raise (ValueError msg)) /\
  regions_to_mask
    (RegionList [Niimg (NdArray [2; 1; 1]%nat [0; 3]) (repeat 1 16);
                 Niimg (NdArray [1; 2; 1]%nat [1; 0]) (repeat 1 16)]) 0 0%Z =
    Raise (ValueError "Inconsistent shape in input list").
Proof.
  destruct (regions_to_mask_list_errors 0 0%Z) as (_ & Hrank & Hshape).
  split.
  - apply Hrank. simpl. lia.
  - apply Hshape; [reflexivity|]. left. simpl. discriminate.
Defined.

(** ** Checks and errors of [signals_from_maps] and [img_from_labels] *)






(** ** [signals_from_maps]: without a mask, and the shape of the result *)

Lemma select_all {A} (a : list A) : select (repeat true (length a)) a = a.
Proof.
  unfold select. induction a as [|x a IH]; simpl; [reflexivity|].
  f_equal. exact IH.
Qed.

Lemma transpose_involutive (a : ndarray matrix) :
  wf_matrix a -> transpose (transpose a) = a.
Proof.
  intros Hwf. pose proof (wf_matrix_shape a Hwf) as Hsh.
  destruct Hwf as (_ & Hlen & Hrows).
  destruct a as [sh rows]. simpl in *.
  set (r := nth 0 sh 0%nat) in *. set (c := nth 1 sh 0%nat) in *.
  unfold transpose. simpl. rewrite Hsh. simpl. f_equal.
  apply (list_eq_nth _ _ []); [rewrite length_map, length_seq; lia|].
  intros i Hi. rewrite length_map, length_seq in Hi.
  rewrite nth_map_seq by exact Hi.
  assert (Hrow : length (nth i rows []) = c).
  { apply (proj1 (List.Forall_forall _ _) Hrows). apply nth_In. lia. }
  unfold column at 1. rewrite map_map.
  etransitivity; [|apply (map_nth_seq (nth i rows []) 0)]. rewrite Hrow.
  apply map_ext. intros j. apply nth_column. lia.
Qed.

Lemma select_rows_all (a : ndarray (stack Q)) (n : nat) :
  wf_stack a -> n = n_voxels (shape a) ->
  select_rows (repeat true n) a = voxel_rows a.
Proof.
  intros (H4 & Hlen & _) ->. unfold select_rows, voxel_rows.
  rewrite <- Hlen, select_all, (last_nth3 _ H4). reflexivity.
Qed.

Lemma voxel_rows_wf (a : ndarray (stack Q)) : wf_stack a -> wf_matrix (voxel_rows a).
Proof.
  intros (_ & Hlen & Hrows). split; [reflexivity|]. split; assumption.
Qed.

(** X17.  Without a mask, [signals_from_maps] on images that pass its
    checks is [apply_regions] (without normalisation) on the two arrays
    laid out as (instant, voxel) and (map, voxel). *)
Theorem signals_from_maps_no_mask :
  forall (lstsq : ndarray matrix -> ndarray matrix -> ndarray matrix)
         (niimgs maps_img : niimg (stack Q)),
    wf_stack (get_data niimgs) -> wf_stack (get_data maps_img) ->
    firstn 3 (get_shape maps_img) = firstn 3 (get_shape niimgs) ->
    affine_mismatch (get_affine maps_img) (get_affine niimgs) = false ->
    signals_from_maps lstsq niimgs maps_img None =
      Ok (apply_regions lstsq
            (transpose (voxel_rows (get_data niimgs)))
            (transpose (voxel_rows (get_data maps_img))) false).
Proof.
  intros lstsq niimgs maps_img Hn Hm Hs Ha.
  unfold signals_from_maps. rewrite (shape_eqb_eq _ _ Hs), Ha.
  simpl negb. cbv iota. simpl mbind. unfold apply_regions.
  rewrite !transpose_involutive by (apply voxel_rows_wf; assumption).
  rewrite (select_rows_all (get_data maps_img)) by (exact Hm || reflexivity).
  rewrite (select_rows_all (get_data niimgs)); [reflexivity|exact Hn|].
  unfold get_shape in Hs.
  rewrite <- (n_voxels_firstn (shape (get_data maps_img))), Hs.
  apply n_voxels_firstn.
Qed.

Lemma signals_from_maps_no_mask_witness :
  let aff := repeat 1 16 in
  let lstsq := fun a b : ndarray matrix => NdArray [2; 1]%nat [[1]; [2]] in
  let niimgs := Niimg (NdArray [2; 1; 1; 1]%nat [[1]; [3]]) aff in
  let maps_img := Niimg (NdArray [2; 1; 1; 2]%nat [[1; 0]; [-1; 2]]) aff in
  signals_from_maps lstsq niimgs maps_img None =
    Ok (apply_regions lstsq
          (transpose (voxel_rows (get_data niimgs)))
          (transpose (voxel_rows (get_data maps_img))) false).
Proof.
  intros aff lstsq niimgs maps_img.
  apply (signals_from_maps_no_mask lstsq niimgs maps_img).
  - split; [reflexivity|]. split; [reflexivity|]. repeat constructor.
  - split; [reflexivity|]. split; [reflexivity|]. repeat constructor.
  - reflexivity.
  - reflexivity.
Defined.

(** X18.  With a mask and a least-squares solver, the signals returned by
    [signals_from_maps] have one row per instant of the images and one
    column per map kept by [_trim_maps]. *)
Theorem signals_from_maps_shape :
  forall (lstsq : ndarray matrix -> ndarray matrix -> ndarray matrix)
         (niimgs maps_img : niimg (stack Q)) (mask_img : niimg (volume Z)),
    maps_call_fit niimgs maps_img mask_img ->
    let support := support_voxels (get_data maps_img) (get_data mask_img) in
    let '(trimmed_maps, _, indices) :=
      _trim_maps (get_data maps_img) (get_data mask_img) in
    least_squares (rows_at support trimmed_maps) (rows_at support (get_data niimgs))
                  (lstsq (rows_at support trimmed_maps)
                         (rows_at support (get_data niimgs))) ->
    exists signals,
      signals_from_maps lstsq niimgs maps_img (Some mask_img) = Ok signals /\
      wf_matrix signals /\
      shape signals = [nth 3 (get_shape niimgs) 0%nat; length indices].
Proof.
  intros lstsq niimgs maps_img mask_img Hfit support.
  pose proof (signals_from_maps_run lstsq niimgs maps_img mask_img Hfit) as Hrun.
  cbv zeta in Hrun. fold support in Hrun.
  pose proof Hfit as ((H4 & _) & Hmaps & Hs & _ & Hmask).
  destruct (Hmask mask_img eq_refl) as (Hmwf & Hms & _).
  assert (Hmf : maps_fit (get_data maps_img) (get_data mask_img)).
  { split; [exact Hmaps|]. split; [exact Hmwf|].
    unfold get_shape in *. congruence. }
  pose proof (trim_maps_spec _ _ Hmf) as Hspec. cbv zeta in Hspec.
  destruct (_trim_maps (get_data maps_img) (get_data mask_img))
    as [[trimmed union] indices].
  simpl in Hrun. destruct Hspec as (_ & Hsh & _).
  intros (Hx & Hsx & _). eexists. split; [exact Hrun|].
  split; [apply transpose_wf; exact Hx|].
  rewrite (transpose_shape_eq _ Hx), Hsx. simpl.
  rewrite Hsh, last_last, (last_nth3 _ H4). reflexivity.
Qed.

Lemma signals_from_maps_shape_witness :
  let aff := repeat 1 16 in
  let lstsq := fun a b : ndarray matrix => NdArray [2; 1]%nat [[2]; [3]] in
  let niimgs := Niimg (NdArray [2; 1; 1; 1]%nat [[2]; [4]]) aff in
  let maps_img := Niimg (NdArray [2; 1; 1; 3]%nat [[1; 0; 0]; [-1; 0; 2]]) aff in
  let mask_img := Niimg (NdArray [2; 1; 1]%nat [1; 1]%Z) aff in
  exists signals,
    signals_from_maps lstsq niimgs maps_img (Some mask_img) = Ok signals /\
    wf_matrix signals /\
    shape signals = [1%nat; 2%nat].
Proof.
  intros aff lstsq niimgs maps_img mask_img.
  refine (signals_from_maps_shape lstsq niimgs maps_img mask_img _ _).
  - split; [split; [reflexivity|split; [reflexivity|repeat constructor]]|].
    split; [split; [reflexivity|split; [reflexivity|repeat constructor]]|].
    split; [reflexivity|]. split; [reflexivity|].
    intros m [= <-]. split; [split; reflexivity|]. split; reflexivity.
  - split; [|split; [reflexivity|]].
    + split; [reflexivity|]. split; [reflexivity|]. repeat constructor.
    + intros x' _ _.
      match goal with |- ?r <= _ => assert (E : r == 0) by reflexivity end.
      rewrite E. apply residual_nonneg.
Defined.

(** ** [img_from_labels]: what each voxel holds *)

(** X19.  [img_from_labels], given one column of signals per label, returns
    an image of the shape of the label image with one more axis for the
    instants and with its affine, whatever the type of the numbers and the
    dtype of the labels.  With the label of a voxel once the mask is applied
    (its own inside the mask, [background_label] cast to the dtype of the
    labels outside): a voxel whose label is the [n]-th of the list holds
    column [n] of the signals, and a voxel whose label is the background
    holds zeros.  When the dtype holds [background_label] as it is, the
    voxels of the first kind are those inside the mask whose own label is
    not the background. *)
Theorem img_from_labels_voxels :
  forall (R : Type) (number : Number R) (dt : dtype)
         (signals : ndarray (list (list R))) (labels_img : niimg (volume Z))
         (mask_img : option (niimg (volume Z))) (background_label : Z),
    wf_matrix signals ->
    wf_volume (get_data labels_img) ->
    mask_fits mask_img (get_shape labels_img) (get_affine labels_img) ->
    let labels :=
      region_labels (masked_labels dt labels_img mask_img background_label)
                    background_label in
    nth 1 (shape signals) 0%nat = length labels ->
    exists img,
      img_from_labels dt signals labels_img mask_img background_label = Ok img /\
      get_shape img = get_shape labels_img ++ [nth 0 (shape signals) 0%nat] /\
      get_affine img = get_affine labels_img /\
      wf_stack (get_data img) /\
      forall v t, (v < n_voxels (get_shape labels_img))%nat ->
                  (t < nth 0 (shape signals) 0)%nat ->
        let l := masked_label dt labels_img mask_img background_label v in
        (l <> background_label ->
         exists n, (n < length labels)%nat /\ nth n labels 0%Z = l /\
                   item (items (get_data img)) v t = item (items signals) t n) /\
        (l = background_label -> item (items (get_data img)) v t = num_zero) /\
        (astype dt background_label = background_label ->
         (l <> background_label <->
          in_mask mask_img v = true /\
          nth v (items (get_data labels_img)) 0%Z <> background_label)).
Proof.
  intros R number dt signals labels_img mask_img bg Hsig Hwf Hm labels Hcols.
  pose proof Hsig as (Hrank & Hlen & Hrows).
  set (n_scans := nth 0 (shape signals) 0%nat) in *.
  destruct (img_from_labels_spec dt signals labels_img mask_img bg Hwf Hm)
    as (out & Heq & Hlo & Hout).
  { fold labels. rewrite <- Hcols. lia. }
  fold labels n_scans in Heq, Hout.
  pose proof Hwf as [Hrank3 _]. fold (get_shape labels_img) in Hrank3.
  assert (Hcell : forall v, (v < n_voxels (get_shape labels_img))%nat ->
            let l := masked_label dt labels_img mask_img bg v in
            (l <> bg ->
             exists n, (n < length labels)%nat /\ nth n labels 0%Z = l /\
                       nth v out [] = column num_zero (items signals) n) /\
            (l = bg -> nth v out [] = repeat num_zero n_scans)).
  { intros v Hv l. destruct (Hout v Hv) as [Hhit Hmiss]. split.
    - intros Hne.
      assert (Hl : In l labels).
      { eapply region_labels_present; eauto. split; [exact Hne|].
        exists v. apply region_voxels_In. split; [exact Hv|reflexivity]. }
      apply (In_nth _ _ 0%Z) in Hl. destruct Hl as (n & Hn & Hnl).
      exists n. split; [exact Hn|]. split; [exact Hnl|]. apply Hhit; assumption.
    - exact Hmiss. }
  eexists. split; [exact Heq|]. split; [reflexivity|]. split; [reflexivity|].
  split.
  - split; [|split].
    + simpl. rewrite length_app. simpl. lia.
    + simpl. rewrite n_voxels_app by exact Hrank3. exact Hlo.
    + simpl. rewrite app_nth2 by lia.
      replace (3 - length (get_shape labels_img))%nat with 0%nat by lia.
      simpl. apply List.Forall_forall. intros row Hin.
      apply (In_nth _ _ []) in Hin. destruct Hin as (v & Hv & <-).
      rewrite Hlo in Hv. destruct (Hcell v Hv) as [Hhit Hmiss].
      destruct (Z.eq_dec (masked_label dt labels_img mask_img bg v) bg) as [E|E];
        [rewrite (Hmiss E); apply repeat_length|].
      destruct (Hhit E) as (n & _ & _ & ->).
      rewrite length_column. exact Hlen.
  - intros v t Hv Ht l. simpl get_data. simpl items.
    destruct (Hcell v Hv) as [Hhit Hmiss]. fold l in Hhit, Hmiss.
    split; [|split].
    + intros Hne. destruct (Hhit Hne) as (n & Hn & Hnl & Hrow).
      exists n. split; [exact Hn|]. split; [exact Hnl|].
      unfold item at 1. rewrite Hrow. apply nth_column. lia.
    + intros Hbg. unfold item. rewrite (Hmiss Hbg). apply nth_repeat_lt. exact Ht.
    + intros Hdt. unfold l, masked_label. rewrite Hdt.
      destruct (in_mask mask_img v).
      * split; [intros H; split; [reflexivity|exact H]|intros [_ H]; exact H].
      * split; [intros H; congruence|intros [H _]; discriminate].
Qed.

Lemma img_from_labels_voxels_witness :
  let aff := repeat 1 16 in
  let signals := NdArray [2; 4]%nat [[10; 30; 50; 70]; [20; 40; 60; 80]] in
  let labels_img := Niimg (NdArray [2; 2; 1]%nat [3; 1; 3; 0]%Z) aff in
  let mask_img := Some (Niimg (NdArray [2; 2; 1]%nat [1; 1; 0; 1]%Z) aff) in
  exists img,
    img_from_labels uint8 signals labels_img mask_img (-1)%Z = Ok img /\
    get_shape img = [2; 2; 1; 2]%nat /\
    get_affine img = aff /\
    wf_stack (get_data img) /\
    forall v t, (v < 4)%nat -> (t < 2)%nat ->
      let l := masked_label uint8 labels_img mask_img (-1)%Z v in
      (l <> (-1)%Z ->
       exists n, (n < 4)%nat /\ nth n [0; 1; 3; 255]%Z 0%Z = l /\
                 item (items (get_data img)) v t = item (items signals) t n) /\
      (l = (-1)%Z -> item (items (get_data img)) v t = 0) /\
      (astype uint8 (-1)%Z = (-1)%Z ->
       (l <> (-1)%Z <->
        in_mask mask_img v = true /\
        nth v (items (get_data labels_img)) 0%Z <> (-1)%Z)).
Proof.
  intros aff signals labels_img mask_img.
  apply (img_from_labels_voxels Q Q_number uint8 signals labels_img mask_img (-1)%Z).
  - split; [reflexivity|]. split; [reflexivity|]. repeat constructor.
  - split; reflexivity.
  - intros m [= <-]. split; [split; reflexivity|]. split; reflexivity.
  - reflexivity.
Defined.

(** ** The store: the arrays returned are new objects *)

Section Fresh.

Variable h0 : gmap nat Heap.array.

Lemma fresh_signals_from_labels dt niimgs labels_img mask_img bg :
  frame h0 (Heap.signals_from_labels dt niimgs labels_img mask_img bg)
        (fun r => h0 !! r.1 = None).
Proof.
  unfold Heap.signals_from_labels.
  eapply frame_bind; [apply frame_read_int|]. intros labels_arr _.
  eapply frame_bind; [apply frame_read_real|]. intros data _.
  destruct (negb _); [apply frame_raise|].
  destruct (affine_mismatch _ _); [apply frame_raise|].
  eapply frame_bind; [apply frame_check_mask|]. intros _ _.
  eapply frame_bind; [apply frame_masked_labels|]. intros labels_data _.
  eapply frame_bind; [apply frame_read_int|]. intros labels_arr' _.
  eapply frame_bind; [apply frame_alloc|]. intros signals Hs.
  eapply frame_bind.
  { apply (frame_for_each _ _ _ (fun _ => True)); [|exact I].
    intros n s _. apply frame_setitem_row, Hs. }
  intros _ _. apply frame_ret. exact Hs.
Qed.

Lemma fresh_img_from_labels dt signals labels_img mask_img bg :
  frame h0 (Heap.img_from_labels dt signals labels_img mask_img bg)
        (fun img => h0 !! Heap.get_data img = None).
Proof.
  unfold Heap.img_from_labels.
  eapply frame_bind; [apply frame_read_int|]. intros labels_arr _.
  eapply frame_bind; [apply frame_check_mask|]. intros _ _.
  eapply frame_bind; [apply frame_alloc|]. intros data Hd.
  eapply frame_bind; [apply frame_masked_labels|]. intros labels_data _.
  eapply frame_bind; [apply frame_read_int|]. intros labels_arr' _.
  eapply frame_bind.
  { apply (frame_for_each _ _ _ (fun _ => True)); [|exact I].
    intros label n _.
    eapply frame_bind; [apply frame_setitem_label, Hd|]. intros _ _.
    apply frame_ret. exact I. }
  intros _ _. apply frame_ret. exact Hd.
Qed.

Lemma fresh_trim_maps maps mask :
  frame h0 (Heap._trim_maps maps mask)
        (fun r => h0 !! r.1.1 = None /\ h0 !! r.1.2 = None).
Proof.
  unfold Heap._trim_maps.
  eapply frame_bind; [apply frame_copy|]. intros maps' _.
  eapply frame_bind; [apply frame_read_real|]. intros m _.
  eapply frame_bind; [apply frame_read_int|]. intros mask_arr _.
  eapply frame_bind; [apply frame_alloc|]. intros trimmed_maps Ht.
  eapply frame_bind; [apply frame_alloc|]. intros maps_mask Hu.
  eapply frame_bind.
  { apply (frame_for_each _ _ _ (fun _ => True)); [|exact I].
    intros n p _. apply frame_trim_body; assumption. }
  intros _ _. apply frame_ret. split; assumption.
Qed.

Lemma fresh_apply_regions lstsq voxel_signals regions normalize_regions :
  frame h0 (Heap.apply_regions lstsq voxel_signals regions normalize_regions)
        (fun l => h0 !! l = None).
Proof.
  unfold Heap.apply_regions.
  eapply frame_bind; [apply frame_read_real|]. intros vs _.
  eapply frame_bind; [apply frame_read_real|]. intros rs _.
  eapply frame_bind; [apply frame_alloc|]. intros region_signals Hr.
  eapply (frame_bind _ _ _ (fun _ => True));
    [|intros _ _; apply frame_ret; exact Hr].
  destruct normalize_regions; [|apply frame_ret; exact I].
  eapply frame_bind; [apply frame_read_real|]. intros a _.
  apply frame_write, Hr.
Qed.

Lemma fresh_signals_from_maps lstsq niimgs maps_img mask_img :
  frame h0 (Heap.signals_from_maps lstsq niimgs maps_img mask_img)
        (fun l => h0 !! l = None).
Proof.
  unfold Heap.signals_from_maps.
  eapply frame_bind; [apply frame_read_real|]. intros maps_data _.
  eapply frame_bind; [apply frame_read_real|]. intros data _.
  destruct (negb _); [apply frame_raise|].
  destruct (affine_mismatch _ _); [apply frame_raise|].
  eapply frame_bind; [apply frame_check_mask|]. intros _ _.
  eapply (frame_bind _ _ _ (fun _ => True)).
  - destruct mask_img as [m|]; [|apply frame_ret; exact I].
    eapply frame_bind; [apply frame_trim_maps|]. intros [[tl ul] idx] _.
    eapply frame_bind; [apply frame_read_real|]. intros t _.
    eapply frame_bind; [apply frame_read_int|]. intros u _.
    apply frame_ret. exact I.
  - intros [md mm] _. apply frame_alloc.
Qed.

Lemma fresh_regions_to_mask regions_img threshold background :
  frame h0 (Heap.regions_to_mask regions_img threshold background)
        (fun img => h0 !! Heap.get_data img = None).
Proof.
  unfold Heap.regions_to_mask.
  destruct regions_img as [imgs|img|]; [| |apply frame_raise].
  - destruct imgs as [|first rest]; [apply frame_raise|].
    eapply frame_bind; [apply frame_read|]. intros a _.
    destruct (negb _); [apply frame_raise|].
    eapply frame_bind; [apply frame_alloc|]. intros output Ho.
    eapply (frame_bind _ _ _ (fun _ => True));
      [|intros _ _; apply frame_ret; exact Ho].
    apply (frame_for_each _ _ _ (fun _ => True)); [|exact I].
    intros r s _.
    eapply frame_bind; [apply frame_read|]. intros a' _.
    destruct (negb _); [apply frame_raise|].
    destruct a' as [d|d|d]; try apply frame_raise.
    apply frame_setitem_above, Ho.
  - eapply frame_bind; [apply frame_read|]. intros a _.
    destruct (length (Heap.array_shape a) =? 4)%nat.
    + destruct a as [d|d|d]; try apply frame_raise.
      eapply frame_bind; [apply frame_alloc|]. intros output Ho.
      eapply (frame_bind _ _ _ (fun _ => True));
        [|intros _ _; apply frame_ret; exact Ho].
      apply (frame_for_each _ _ _ (fun _ => True)); [|exact I].
      intros n s _. apply frame_setitem_above, Ho.
    + destruct (length (Heap.array_shape a) =? 3)%nat; [|apply frame_raise].
      destruct a as [d|d|d]; try apply frame_raise.
      eapply frame_bind; [apply frame_alloc|]. intros output Ho.
      apply frame_ret. exact Ho.
Qed.

End Fresh.

(** X20.  The arrays the operations return are new objects of the store:
    the signals of [signals_from_labels], [signals_from_maps] and
    [apply_regions], the data of the images of [img_from_labels] and
    [regions_to_mask], the maps and the mask of [_trim_maps] are none of
    the arrays the caller held before the call. *)
Theorem returned_arrays_are_new :
  forall (h : gmap nat Heap.array),
    (forall dt niimgs labels_img mask_img background_label signals labels,
       (Heap.signals_from_labels dt niimgs labels_img mask_img
          background_label h).1 =
         Ok (signals, labels) ->
       h !! signals = None) /\
    (forall dt signals labels_img mask_img background_label img,
       (Heap.img_from_labels dt signals labels_img mask_img
          background_label h).1 =
         Ok img ->
       h !! Heap.get_data img = None) /\
    (forall maps mask trimmed_maps maps_mask indices,
       (Heap._trim_maps maps mask h).1 = Ok (trimmed_maps, maps_mask, indices) ->
       h !! trimmed_maps = None /\ h !! maps_mask = None) /\
    (forall lstsq niimgs maps_img mask_img signals,
       (Heap.signals_from_maps lstsq niimgs maps_img mask_img h).1 = Ok signals ->
       h !! signals = None) /\
    (forall lstsq voxel_signals regions normalize_regions region_signals,
       (Heap.apply_regions lstsq voxel_signals regions normalize_regions h).1 =
         Ok region_signals ->
       h !! region_signals = None) /\
    (forall regions_img threshold background img,
       (Heap.regions_to_mask regions_img threshold background h).1 = Ok img ->
       h !! Heap.get_data img = None).
Proof.
  intros h. split; [|split; [|split; [|split; [|split]]]].
  - intros dt niimgs labels_img mask_img bg signals labels H.
    exact (proj2 (fresh_signals_from_labels h dt niimgs labels_img mask_img bg h
                    (reflexivity h)) _ H).
  - intros dt signals labels_img mask_img bg img H.
    exact (proj2 (fresh_img_from_labels h dt signals labels_img mask_img bg h
                    (reflexivity h)) _ H).
  - intros maps mask trimmed_maps maps_mask indices H.
    exact (proj2 (fresh_trim_maps h maps mask h (reflexivity h)) _ H).
  - intros lstsq niimgs maps_img mask_img signals H.
    exact (proj2 (fresh_signals_from_maps h lstsq niimgs maps_img mask_img h
                    (reflexivity h)) _ H).
  - intros lstsq vs rs normalize l H.
    exact (proj2 (fresh_apply_regions h lstsq vs rs normalize h (reflexivity h)) _ H).
  - intros regions_img thr bg img H.
    exact (proj2 (fresh_regions_to_mask h regions_img thr bg h (reflexivity h)) _ H).
Qed.

(** ** [apply_regions] on a region given as a mask *)

Lemma Qsum_squares_binary (row : list Q) :
  Forall (fun w => w == 0 \/ w == 1) row ->
  Qsum (map (fun w => w * w) row) == Qsum row.
Proof.
  induction row as [|w row IH]; intros H; [reflexivity|].
  inversion H as [|? ? Hw Hrow]; subst. specialize (IH Hrow).
  change (w * w + Qsum (map (fun w => w * w) row) == w + Qsum row).
  destruct Hw as [Hw|Hw]; nra.
Qed.

(** X21.  For a region whose weights are only 0 and 1, and not all 0, the
    normalisation of [apply_regions] changes nothing: its factor is 1. *)
Theorem apply_regions_binary :
  forall (lstsq : ndarray matrix -> ndarray matrix -> ndarray matrix)
         (voxel_signals regions : ndarray matrix) (r t : nat),
    wf_matrix regions -> wf_matrix voxel_signals ->
    least_squares (transpose regions) (transpose voxel_signals)
                  (lstsq (transpose regions) (transpose voxel_signals)) ->
    (r < nth 0 (shape regions) 0)%nat ->
    (t < nth 0 (shape voxel_signals) 0)%nat ->
    Forall (fun w => w == 0 \/ w == 1) (nth r (items regions) []) ->
    ~ Qsum (nth r (items regions) []) == 0 ->
    region_factor regions r == 1 /\
    entry (items (apply_regions lstsq voxel_signals regions true)) t r ==
    entry (items (apply_regions lstsq voxel_signals regions false)) t r.
Proof.
  intros lstsq vs regions r t Hreg Hvs Hls Hr Ht Hbin Hsum.
  pose proof Hls as (Hx & Hsx & _).
  rewrite (transpose_shape_eq _ Hreg), (transpose_shape_eq _ Hvs) in Hsx.
  simpl in Hsx.
  destruct (apply_regions_entry lstsq vs regions t r Hreg Hx Hsx Ht Hr)
    as [Hraw Hnorm].
  pose proof (Qsum_squares_binary _ Hbin) as HS2.
  assert (Hone : region_factor regions r == 1).
  { unfold region_factor.
    set (S1 := Qsum (nth r (items regions) [])) in *.
    set (S2 := Qsum (map (fun w => w * w) (nth r (items regions) []))) in *.
    assert (HS2nz : ~ S2 == 0) by (intros E; apply Hsum; lra).
    apply (Qmult_inj_r _ _ S2 HS2nz).
    transitivity S1; [field; exact HS2nz|lra]. }
  split; [exact Hone|]. rewrite Hnorm, Hraw.
  set (f := region_factor regions r) in *.
  set (e := entry _ r t).
  assert (Hf : ~ f == 0) by (intros E; lra).
  apply (Qmult_inj_r _ _ f Hf).
  transitivity e; [field; exact Hf|nra].
Qed.

Lemma apply_regions_binary_witness :
  let lstsq := fun a b : ndarray matrix => NdArray [2; 1]%nat [[7]; [12]] in
  let regions := NdArray [2; 3]%nat [[1; 1; 0]; [0; 0; 1]] in
  let voxel_signals := NdArray [1; 3]%nat [[7; 7; 12]] in
  region_factor regions 0 == 1 /\
  entry (items (apply_regions lstsq voxel_signals regions true)) 0 0 ==
  entry (items (apply_regions lstsq voxel_signals regions false)) 0 0.
Proof.
  intros lstsq regions voxel_signals.
  refine (apply_regions_binary lstsq voxel_signals regions 0 0 _ _ _ _ _ _ _).
  - split; [reflexivity|]. split; [reflexivity|]. repeat constructor.
  - split; [reflexivity|]. split; [reflexivity|]. repeat constructor.
  - split; [|split; [reflexivity|]].
    + split; [reflexivity|]. split; [reflexivity|]. repeat constructor.
    + intros x' _ _.
      match goal with |- ?q <= _ => assert (E : q == 0) by reflexivity end.
      rewrite E. apply residual_nonneg.
  - simpl. lia.
  - simpl. lia.
  - simpl. repeat constructor; (left; reflexivity) || (right; reflexivity).
  - discriminate.
Defined.

(** ** [signals_from_labels] reads the regions only *)

(** X22.  [signals_from_labels] returns the same signals and labels for
    two sets of images that agree on the voxels whose label once the mask is
    applied (their own inside the mask, [background_label] cast to the
    dtype of the labels outside) is not the background one, whatever the
    type of the numbers and the dtype of the labels. *)
Theorem signals_from_labels_outside :
  forall (R : Type) (number : Number R) (dt : dtype)
         (niimgs niimgs' : niimg (stack R)) (labels_img : niimg (volume Z))
         (mask_img : option (niimg (volume Z))) (background_label : Z),
    labels_fit niimgs labels_img mask_img ->
    labels_fit niimgs' labels_img mask_img ->
    get_shape niimgs' = get_shape niimgs ->
    (forall v, (v < n_voxels (get_shape labels_img))%nat ->
       masked_label dt labels_img mask_img background_label v <>
         background_label ->
       nth v (items (get_data niimgs')) [] = nth v (items (get_data niimgs)) []) ->
    signals_from_labels dt niimgs' labels_img mask_img background_label =
    signals_from_labels dt niimgs labels_img mask_img background_label.
Proof.
  intros R number dt niimgs niimgs' labels_img mask_img bg Hfit Hfit' Hsh Hagree.
  rewrite (signals_from_labels_run dt _ _ _ bg Hfit).
  rewrite (signals_from_labels_run dt _ _ _ bg Hfit').
  rewrite Hsh. f_equal. f_equal. f_equal.
  destruct Hfit as ((_ & Hlen & _) & Hwf & Hs & _ & Hm).
  destruct Hfit' as ((_ & Hlen' & _) & _ & Hs' & _ & Hm').
  assert (Hnv : n_voxels (get_shape labels_img) = n_voxels (get_shape niimgs)).
  { rewrite Hs. apply n_voxels_firstn. }
  apply map_ext. intros n. unfold ndimage_mean.
  apply map_ext_in. intros l Hl.
  apply region_labels_In in Hl. destruct Hl as [_ Hne].
  rewrite (label_values_region num_zero dt labels_img mask_img bg _ _ _ l Hwf
             eq_refl ltac:(rewrite Hs; exact Hm))
    by (rewrite length_column, Hnv; unfold get_shape in *; congruence).
  rewrite (label_values_region num_zero dt labels_img mask_img bg _ _ _ l Hwf
             eq_refl ltac:(rewrite Hs; exact Hm))
    by (rewrite length_column, Hnv; exact Hlen).
  f_equal. apply map_ext_in. intros v Hv.
  apply region_voxels_In in Hv. destruct Hv as (Hv & Hlab).
  rewrite !nth_column by (unfold get_shape in *; rewrite ?Hnv in Hv; congruence).
  rewrite (Hagree v Hv) by congruence. reflexivity.
Qed.

Lemma signals_from_labels_outside_witness :
  let aff := repeat 1 16 in
  let niimgs := Niimg (NdArray [2; 2; 1; 1]%nat [[1]; [3]; [5]; [7]]) aff in
  let niimgs' := Niimg (NdArray [2; 2; 1; 1]%nat [[1]; [3]; [50]; [70]]) aff in
  let labels_img := Niimg (NdArray [2; 2; 1]%nat [3; 1; 3; 0]%Z) aff in
  let mask_img := Some (Niimg (NdArray [2; 2; 1]%nat [1; 1; 0; 1]%Z) aff) in
  signals_from_labels int64 niimgs' labels_img mask_img 0%Z =
  signals_from_labels int64 niimgs labels_img mask_img 0%Z.
Proof.
  intros aff niimgs niimgs' labels_img mask_img.
  assert (Hm : mask_fits mask_img [2; 2; 1]%nat aff).
  { intros m [= <-]. split; [split; reflexivity|]. split; reflexivity. }
  apply (signals_from_labels_outside Q Q_number int64 niimgs niimgs' labels_img
           mask_img 0%Z).
  - split; [split; [reflexivity|split; [reflexivity|repeat constructor]]|].
    split; [split; reflexivity|]. split; [reflexivity|]. split; [reflexivity|].
    exact Hm.
  - split; [split; [reflexivity|split; [reflexivity|repeat constructor]]|].
    split; [split; reflexivity|]. split; [reflexivity|]. split; [reflexivity|].
    exact Hm.
  - reflexivity.
  - intros v Hv Hl. unfold n_voxels in Hv. simpl in Hv.
    destruct v as [|[|[|[|v]]]]; try lia; try reflexivity;
      exfalso; apply Hl; reflexivity.
Defined.
